(** * Which Knob Moved: round generation, validation and playback scheduling

    A shallow embedding of [src/app.js]: the tunables, the numeric helpers,
    the random round generator and its validator, the retry loop that builds
    a game, the note and take timing arithmetic, and the timer driven
    playback loop with its session token.

    Numbers.  JavaScript numbers are modelled as exact rationals [Q]; every
    decimal literal of the source is the rational it denotes.  Rounding of
    binary floating point is therefore not part of the model, and neither are
    NaN and the infinities.

    Randomness.  [Math.random()] is an oracle [rnd : nat -> Q]: the [k]-th
    call made by the program returns [rnd k].  The program threads the number
    of calls made so far.  The ECMAScript contract of [Math.random] (a value
    in the half open interval from 0 to 1) is the hypothesis [rnd_range].

    Transcendental functions.  [Math.exp], [Math.log] and [Math.pow] are the
    operations of the class [MathLib], which states the three sign facts
    that the proofs use; [SeriesMath] is an instance built from truncated
    power series.

    Time and events.  The page is a machine that steps on events: a press of
    the start button, a choice of an option, a timer that fires.  Every event
    carries the reading of the audio clock, which a handler sees unchanged
    until it returns.  A pending timer may fire at any step and at any
    reading; the delay it was set with is recorded and does not restrict the
    runs, so what holds of all runs here holds of the runs of a browser. *)

From Stdlib Require Import QArith Qminmax Qround Qabs Lqa Lia.
From stdpp Require Import gmap strings list fin_maps.

Local Open Scope Q_scope.

(** ** Tunables: the [SETTINGS] object *)

Module SETTINGS.
Definition ROUNDS_PER_GAME : nat := 10.
Definition FEEDBACK_ADVANCE_MS : Q := 900.

Definition TAKE_SECONDS : Q := 2.0.
Definition SILENCE_GAP_SECONDS : Q := 0.25.
Definition LOOP_CYCLE_PAUSE_SECONDS : Q := 0.35.
Definition TAKE_FADE_SECONDS : Q := 0.02.
Definition SCHEDULING_LEAD_SECONDS : Q := 0.05.
Definition TAKE_CLEANUP_EXTRA_SECONDS : Q := 0.15.

Definition NOTE_FREQUENCIES_HZ : list Q := [98.0; 110.0; 130.81; 146.83; 164.81].
Definition NOTE_TIMES_SECONDS : list Q := [0.0; 0.33; 0.66; 1.0; 1.33; 1.66].

Definition AMP_ATTACK_SECONDS : Q := 0.005.
Definition AMP_RELEASE_SECONDS : Q := 0.05.

Definition FILTER_ENV_ATTACK_SECONDS : Q := 0.005.
Definition FILTER_ENV_AMOUNT_HZ : Q := 500.
Definition FILTER_STACK_SIZE : Q := 2.
Definition FILTER_STACK_Q2 : Q := 0.707.

Definition VOICE_PEAK_GAIN : Q := 0.11.

Definition CUTOFF_BASE_HZ_MIN : Q := 250.
Definition CUTOFF_BASE_HZ_MAX : Q := 2500.
Definition CUTOFF_CHANGE_MULTIPLIERS : list Q := [2.6; 0.38].
Definition CUTOFF_BASE_LOG_SKEW : Q := 1.8.

Definition RESONANCE_BASE_Q_MIN : Q := 0.5.
Definition RESONANCE_BASE_Q_MAX : Q := 8.0.
Definition RESONANCE_CHANGE_DELTA_Q : Q := 2.0.
Definition RESONANCE_Q_MIN : Q := 0.5.
Definition RESONANCE_Q_MAX : Q := 12.0.

Definition DECAY_BASE_MS_MIN : Q := 120.
Definition DECAY_BASE_MS_MAX : Q := 1200.
Definition DECAY_CHANGE_MULTIPLIERS : list Q := [1.6; 0.6].
Definition DECAY_MS_MIN : Q := 80.
Definition DECAY_MS_MAX : Q := 2000.
End SETTINGS.

(** ** Knobs *)

Record knob := { id : string; label : string }.

Definition KNOBS : list knob :=
  [ {| id := "cutoff"; label := "Cutoff" |};
    {| id := "resonance"; label := "Resonance" |};
    {| id := "decay"; label := "Decay" |} ].

(** [1e-9] *)
Definition PARAM_EPS : Q := 0.000000001.

Inductive phase := PHASE_A | PHASE_GAP | PHASE_B | PHASE_ANSWER.

(** ** Numeric helpers *)

Definition Math_max (a b : Q) : Q := Qmax a b.
Definition Math_min (a b : Q) : Q := Qmin a b.
Definition Math_abs (a : Q) : Q := Qabs a.
Definition Math_floor (a : Q) : Z := Qfloor a.

(** [a < b] and [a <= b] of the source, as booleans. *)
Definition ltb (a b : Q) : bool := negb (Qle_bool b a).
Definition leb (a b : Q) : bool := Qle_bool a b.

Definition clamp (x min max : Q) : Q := Math_min max (Math_max min x).

Definition nearEqual (a b : Q) : bool := leb (Math_abs (a - b)) PARAM_EPS.

Definition msToSec (ms : Q) : Q := ms / 1000.

(** [arr[z]] for an integer [z]: [None] is the [undefined] that JavaScript
    returns outside the bounds. *)
Definition js_index {A : Type} (arr : list A) (z : Z) : option A :=
  if (z <? 0)%Z then None else arr !! Z.to_nat z.

(** ** The interface of the transcendental functions *)

(** [Math.exp], [Math.log] and [Math.pow] return rationals that approximate
    the real functions.  Three facts about them are used: on the arguments
    named, the exponential is at least one, the logarithm is not negative
    and a power is not negative. *)
Class MathLib := {
  Math_exp : Q -> Q;
  Math_log : Q -> Q;
  Math_pow : Q -> Q -> Q;
  Math_exp_ge_1 : forall x, 0 <= x -> 1 <= Math_exp x;
  Math_log_nonneg : forall x, 1 <= x -> 0 <= Math_log x;
  Math_pow_nonneg : forall x y, 0 <= x -> 0 <= Math_pow x y
}.

(** An instance by truncated power series, for running the model. *)
Definition exp_series (x : Q) : Q := 1 + x + x * x / 2.

Definition exp_approx (x : Q) : Q :=
  Qred (if Qle_bool 0 x then exp_series x else / exp_series (- x)).

Definition log_series (x : Q) : Q :=
  let z := (x - 1) / (x + 1) in
  2 * z * (1 + z * z / 3).

Definition log_approx (x : Q) : Q :=
  Qred (if Qle_bool 1 x then log_series x
        else if Qle_bool x 0 then 0
        else - log_series (/ x)).

Definition pow_approx (x y : Q) : Q :=
  if Qle_bool x 0 then 0 else exp_approx (y * log_approx x).

Lemma exp_series_ge_1 (x : Q) : 0 <= x -> 1 <= exp_series x.
Proof.
  intros Hx. unfold exp_series.
  assert (H2 : 0 <= x * x) by (apply Qmult_le_0_compat; assumption).
  set (x2 := x * x) in *.
  unfold Qdiv. change (/ 2) with (1 # 2). lra.
Qed.

Lemma exp_approx_pos (x : Q) : 0 < exp_approx x.
Proof.
  unfold exp_approx. rewrite Qred_correct.
  destruct (Qle_bool 0 x) eqn:E.
  - apply Qle_bool_iff in E. pose proof (exp_series_ge_1 x E). lra.
  - apply Qinv_lt_0_compat.
    assert (Hx : 0 <= - x).
    { destruct (Qlt_le_dec x 0) as [H | H]; [lra |].
      apply Qle_bool_iff in H. congruence. }
    pose proof (exp_series_ge_1 (- x) Hx). lra.
Qed.

Lemma log_series_nonneg (x : Q) : 1 <= x -> 0 <= log_series x.
Proof.
  intros Hx. unfold log_series.
  set (z := (x - 1) / (x + 1)).
  assert (Hz : 0 <= z).
  { unfold z. apply Qle_shift_div_l; lra. }
  clearbody z.
  assert (H2 : 0 <= z * z) by (apply Qmult_le_0_compat; assumption).
  set (z2 := z * z) in *.
  unfold Qdiv. change (/ 3) with (1 # 3).
  apply Qmult_le_0_compat; [apply Qmult_le_0_compat; lra | lra].
Qed.

#[global] Program Instance SeriesMath : MathLib :=
  {| Math_exp := exp_approx; Math_log := log_approx; Math_pow := pow_approx |}.
Next Obligation.
  intros x Hx. unfold exp_approx. rewrite Qred_correct.
  apply Qle_bool_iff in Hx. rewrite Hx. apply exp_series_ge_1.
  apply Qle_bool_iff, Hx.
Qed.
Next Obligation.
  intros x Hx. unfold log_approx. rewrite Qred_correct.
  pose proof Hx as Hb. apply Qle_bool_iff in Hb. rewrite Hb.
  apply log_series_nonneg, Hx.
Qed.
Next Obligation.
  intros x y Hx. unfold pow_approx.
  destruct (Qle_bool x 0); [lra |]. apply Qlt_le_weak, exp_approx_pos.
Qed.

(** ** Outcomes and stateful code *)

Inductive error :=
| UnknownKnobId (changedKnob : option string)
| TypeErrorUndefined
| FailedToGenerate.

(** [OutOfModel] marks a run that reached a JavaScript value which the types
    of this model do not carry: an [undefined] or NaN stored where a number or
    an array element is expected.  It arises only from an array index out of
    bounds, hence only from a draw outside the range of [Math.random]. *)
Inductive outcome (A : Type) :=
| Ok (a : A)
| Throw (e : error)
| OutOfModel.
Arguments Ok {A} a.
Arguments Throw {A} e.
Arguments OutOfModel {A}.

(** Code that reads and writes a store of type [S] and may throw. *)
Definition ST (S A : Type) : Type := S -> outcome A * S.

Definition ret {S A} (a : A) : ST S A := fun s => (Ok a, s).

Definition bind {S A B} (m : ST S A) (k : A -> ST S B) : ST S B :=
  fun s =>
    match m s with
    | (Ok a, s') => k a s'
    | (Throw e, s') => (Throw e, s')
    | (OutOfModel, s') => (OutOfModel, s')
    end.

Definition throw {S A} (e : error) : ST S A := fun s => (Throw e, s).
Definition out_of_model {S A} : ST S A := fun s => (OutOfModel, s).

Notation "'let*' x := m 'in' k" := (bind m (fun x => k))
  (at level 10, x name, m at level 100, k at level 200).

(** Random code: the store is the number of calls of [Math.random] made so
    far. *)
Definition Rand (A : Type) : Type := ST nat A.

(** ** Rounds *)

Record params := {
  cutoffHz : Q;
  resonanceQ : Q;
  decayMs : Q;
  noteFreqHz : Q
}.

Record round := {
  index : nat;
  changedKnob : string;
  takeA : params;
  takeB : params;
  answerOrder : option (list string)
}.

(** The value of a run that returned, and the empty list otherwise. *)
Definition returned {A : Type} (run : outcome (list A) * nat) : list A :=
  match fst run with
  | Ok l => l
  | _ => []
  end.

(** ** Oracles for running the model *)

(** The draws [(a * k + b) mod m / m]. *)
Definition cyclic_draws (m : positive) (a b : nat) : nat -> Q :=
  fun k => (Z.of_nat (a * k + b) mod Z.pos m) # m.

(** ** The random generator *)

Section Generator.

Context {ML : MathLib}.
Variable rnd : nat -> Q.

Definition Math_random : Rand Q := fun n => (Ok (rnd n), S n).

Definition randFloat (min max : Q) : Rand Q :=
  let* u := Math_random in
  ret (min + u * (max - min)).

(** Every rational is finite. *)
Definition Number_isFinite (x : Q) : bool := true.

Definition randLogFloatSkew (min max skewPower : Q) : Rand Q :=
  let safeSkew := Math_max 0.05 (if Number_isFinite skewPower then skewPower else 1.0) in
  let* r := Math_random in
  let u := Math_pow r safeSkew in
  let safeMin := Math_max 0.000001 min in
  let safeMax := Math_max (safeMin * 1.000001) max in
  ret (safeMin * Math_exp (Math_log (safeMax / safeMin) * u)).

Definition pick {A : Type} (arr : list A) : Rand (option A) :=
  let* u := Math_random in
  ret (js_index arr (Math_floor (u * inject_Z (Z.of_nat (length arr))))).

(** [[arr[i], arr[j]] = [arr[j], arr[i]]].  Both reads happen first. *)
Definition swap {A : Type} (arr : list A) (i : nat) (j : Z) : option (list A) :=
  match js_index arr j, arr !! i with
  | Some aj, Some ai => Some (<[Z.to_nat j := ai]> (<[i := aj]> arr))
  | _, _ => None
  end.

(** The body of [shuffle]'s loop for [i] running from its start value down
    to 1. *)
Fixpoint shuffle_from {A : Type} (i : nat) (arr : list A) : Rand (list A) :=
  match i with
  | O => ret arr
  | S i' =>
      let* u := Math_random in
      let j := Math_floor (u * (inject_Z (Z.of_nat i) + 1)) in
      match swap arr i j with
      | Some arr' => shuffle_from i' arr'
      | None => out_of_model
      end
  end.

Definition shuffle {A : Type} (l : list A) : Rand (list A) :=
  shuffle_from (length l - 1) l.

(** The [if]/[else if] chain in the loop body of [generateRounds]: the one
    field of [takeB] that [changedKnob] names is overwritten with a value
    computed from [takeA]; an unknown knob id throws. *)
Definition perturb (changedKnob : option string) (takeA takeB : params) : Rand params :=
  match changedKnob with
  | Some "cutoff" =>
      let* m := pick SETTINGS.CUTOFF_CHANGE_MULTIPLIERS in
      match m with
      | Some m =>
          ret {| cutoffHz := cutoffHz takeA * m;
                      resonanceQ := resonanceQ takeB;
                      decayMs := decayMs takeB;
                      noteFreqHz := noteFreqHz takeB |}
      | None => out_of_model
      end
  | Some "resonance" =>
      let* r := Math_random in
      let sign : Q := if ltb r 0.5 then -1 else 1 in
      ret {| cutoffHz := cutoffHz takeB;
                  resonanceQ :=
                    clamp (resonanceQ takeA + sign * SETTINGS.RESONANCE_CHANGE_DELTA_Q)
                      SETTINGS.RESONANCE_Q_MIN SETTINGS.RESONANCE_Q_MAX;
                  decayMs := decayMs takeB;
                  noteFreqHz := noteFreqHz takeB |}
  | Some "decay" =>
      let* m := pick SETTINGS.DECAY_CHANGE_MULTIPLIERS in
      match m with
      | Some m =>
          ret {| cutoffHz := cutoffHz takeB;
                      resonanceQ := resonanceQ takeB;
                      decayMs :=
                        clamp (decayMs takeA * m) SETTINGS.DECAY_MS_MIN SETTINGS.DECAY_MS_MAX;
                      noteFreqHz := noteFreqHz takeB |}
      | None => out_of_model
      end
  | other => throw (UnknownKnobId other)
  end.

(** The body of the [for] loop of [generateRounds] for round [i], whose
    assigned knob is [changedKnobs[i]] ([None] when that read is
    [undefined]). *)
Definition generateRound (i : nat) (changedKnob : option string) : Rand round :=
  let* c := randLogFloatSkew SETTINGS.CUTOFF_BASE_HZ_MIN SETTINGS.CUTOFF_BASE_HZ_MAX
              SETTINGS.CUTOFF_BASE_LOG_SKEW in
  let* q := randFloat SETTINGS.RESONANCE_BASE_Q_MIN SETTINGS.RESONANCE_BASE_Q_MAX in
  let* d := randFloat SETTINGS.DECAY_BASE_MS_MIN SETTINGS.DECAY_BASE_MS_MAX in
  let* f := pick SETTINGS.NOTE_FREQUENCIES_HZ in
  match f with
  | None => out_of_model
  | Some f =>
      let base := {| cutoffHz := c; resonanceQ := q; decayMs := d; noteFreqHz := f |} in
      let takeA := base in
      let takeB := base in
      let* takeB := perturb changedKnob takeA takeB in
      match changedKnob with
      | Some k =>
          ret {| index := i; changedKnob := k; takeA := takeA; takeB := takeB;
                      answerOrder := None |}
      | None => throw (UnknownKnobId None)
      end
  end.

(** The [for] loop of [generateRounds]: [k] iterations remain, the next one
    is for index [i]. *)
Fixpoint rounds_loop (changedKnobs : list string) (k i : nat) (rounds : list round)
  : Rand (list round) :=
  match k with
  | O => ret rounds
  | S k' =>
      let* r := generateRound i (changedKnobs !! i) in
      rounds_loop changedKnobs k' (S i) (rounds ++ [r])
  end.

(** The bag before the extra knob is pushed: each knob id three times. *)
Definition knobBag0 : list string := flat_map (fun k => replicate 3 (id k)) KNOBS.

Definition generateRounds : Rand (list round) :=
  let* extra := pick KNOBS in
  match extra with
  | None => throw TypeErrorUndefined
  | Some extra =>
      let knobBag := knobBag0 ++ [id extra] in
      let* changedKnobs := shuffle knobBag in
      rounds_loop changedKnobs SETTINGS.ROUNDS_PER_GAME 0 []
  end.

End Generator.

(** ** Validation *)

(** The messages that [validateRounds] pushes on [errors], with the values
    that the message templates interpolate. *)
Inductive violation :=
| NotAnArray
| WrongLength
| NoteFreqDiffers (roundNumber : nat)
| ExpectedOneChange (roundNumber : nat) (diffs : list string)
| WrongKnob (roundNumber : nat) (changedKnob diff : string)
| TooFew (knobId : string) (count : nat).

Record validation := {
  ok : bool;
  errors : list violation;
  counts : gmap string nat
}.

(** [counts[k] || 0] *)
Definition count_of (counts : gmap string nat) (k : string) : nat :=
  default 0%nat (counts !! k).

(** The list [diffs] that the validator builds for one round. *)
Definition diffs_of (r : round) : list string :=
  let a := takeA r in
  let b := takeB r in
  (if nearEqual (cutoffHz a) (cutoffHz b) then [] else ["cutoff"]) ++
  (if nearEqual (resonanceQ a) (resonanceQ b) then [] else ["resonance"]) ++
  (if nearEqual (decayMs a) (decayMs b) then [] else ["decay"]).

(** The errors that one round adds. *)
Definition round_errors (r : round) : list violation :=
  let a := takeA r in
  let b := takeB r in
  let diffs := diffs_of r in
  (if nearEqual (noteFreqHz a) (noteFreqHz b) then [] else [NoteFreqDiffers (index r + 1)]) ++
  match diffs with
  | [d] =>
      if String.eqb d (changedKnob r) then []
      else [WrongKnob (index r + 1) (changedKnob r) d]
  | _ => [ExpectedOneChange (index r + 1) diffs]
  end.

(** One iteration of the loop over the rounds. *)
Definition validate_step (acc : list violation * gmap string nat) (r : round)
  : list violation * gmap string nat :=
  let '(errors, counts) := acc in
  let counts := <[changedKnob r := (count_of counts (changedKnob r) + 1)%nat]> counts in
  (errors ++ round_errors r, counts).

Definition validateRounds (rounds : list round) : validation :=
  let errors :=
    if Nat.eqb (length rounds) SETTINGS.ROUNDS_PER_GAME then [] else [WrongLength] in
  let counts : gmap string nat := list_to_map (map (fun k => (id k, 0%nat)) KNOBS) in
  let '(errors, counts) := fold_left validate_step rounds (errors, counts) in
  let errors :=
    fold_left
      (fun errors k =>
         if (count_of counts (id k) <? 3)%nat
         then errors ++ [TooFew (id k) (count_of counts (id k))]
         else errors)
      KNOBS errors in
  {| ok := Nat.eqb (length errors) 0; errors := errors; counts := counts |}.

(** The verdict of [bullfrogSelfTest]; its console output is not modelled. *)
Definition bullfrogSelfTest (rounds : list round) : bool := ok (validateRounds rounds).

(** ** Building a game *)

Section Build.

Context {ML : MathLib}.
Variable rnd : nat -> Q.

(** The [for] loop of [buildNewRounds] with [k] attempts left. *)
Fixpoint attempts (k : nat) : Rand (list round) :=
  match k with
  | O => throw FailedToGenerate
  | S k' =>
      let* candidate := generateRounds rnd in
      let v := validateRounds candidate in
      if ok v then ret candidate else attempts k'
  end.

(** [buildNewRounds] returns the batch that it stores in [state.rounds]. *)
Definition buildNewRounds : Rand (list round) := attempts 50.

End Build.

(** ** Notes, takes and rounds on the audio clock *)

(** What [scheduleVoice] programs for one note: the oscillator's frequency,
    start and stop, the resonance of every filter stage, the base and the
    peak of the filter envelope, and the end of the amplitude envelope. *)
Record voice := {
  osc_frequency : Q;
  osc_start : Q;
  osc_stop : Q;
  filter_Q : list Q;
  baseCutoff : Q;
  envPeak : Q;
  naturalEndTime : Q
}.

Definition scheduleVoice (p : params) (noteStartTime hardStopTime : Q) : voice :=
  let size := if Qeq_bool SETTINGS.FILTER_STACK_SIZE 0 then 1 else SETTINGS.FILTER_STACK_SIZE in
  let stackSize := clamp (inject_Z (Math_floor size)) 1 4 in
  let filters :=
    map (fun i => if Nat.eqb i 0 then resonanceQ p else SETTINGS.FILTER_STACK_Q2)
      (seq 0 (Z.to_nat (Qceiling stackSize))) in
  let attack := SETTINGS.AMP_ATTACK_SECONDS in
  let release := SETTINGS.AMP_RELEASE_SECONDS in
  let decay := msToSec (decayMs p) in
  let baseCutoff := clamp (cutoffHz p) 20 20000 in
  let envPeak := clamp (baseCutoff + SETTINGS.FILTER_ENV_AMOUNT_HZ) 20 20000 in
  let naturalEndTime := noteStartTime + attack + decay + release in
  let stopAt := Math_max (noteStartTime + 0.01) (Math_min naturalEndTime hardStopTime) in
  {| osc_frequency := noteFreqHz p;
     osc_start := noteStartTime;
     osc_stop := stopAt;
     filter_Q := filters;
     baseCutoff := baseCutoff;
     envPeak := envPeak;
     naturalEndTime := naturalEndTime |}.

(** The voices that [playTake] schedules for a take that starts at [when]. *)
Definition take_voices (p : params) (when : Q) : list voice :=
  let hardStopTime := when + SETTINGS.TAKE_SECONDS + SETTINGS.TAKE_CLEANUP_EXTRA_SECONDS in
  map (fun t => scheduleVoice p (when + t) hardStopTime) SETTINGS.NOTE_TIMES_SECONDS.

(** The object that [playRound] returns. *)
Record times := {
  aStart : Q;
  aEnd : Q;
  bStart : Q;
  bEnd : Q;
  endAt : Q
}.

(** ** The playback state machine *)

(** The closures handed to [window.setTimeout]: the wrapper that [scheduleUi]
    builds around a phase change or around the next loop cycle, the advance
    to the next round that [handleAnswer] arms, and the disconnection of an
    audio node. *)
Inductive ui_fn :=
| SetPhase (p : phase)
| NextLoopCycle (token : nat).

Inductive callback :=
| CbUi (token : nat) (fn : ui_fn)
| CbMoveNext
| CbDisconnect.

(** The object [state], the part of the page and of the window that the
    handlers read and write, and a history of what the loop did.  The audio
    context is present and running; the score, the results and the texts of
    the page are left out; [roundOutput] tells whether [state.roundOutput]
    holds a bus. *)
Record world := {
  (* the object [state] *)
  rounds : list round;
  currentIndex : nat;
  answered : bool;
  playbackToken : nat;
  moveNextTimer : option nat;
  phaseTimers : list nat;
  roundOutput : bool;
  loopNextAt : Q;
  (* the pending timers of the window, each with its callback and its delay
     in milliseconds, and the identifier that the next timer gets *)
  timers : gmap nat (callback * Q);
  nextTimer : nat;
  (* the option buttons: knob id and [disabled] *)
  buttons : list (string * bool);
  (* the phase that [setPhase] displayed last *)
  shownPhase : phase;
  (* the number of calls of [Math.random] so far *)
  rng : nat;
  (* history: token and times of every [playRound] of the loop, newest first *)
  cycles : list (nat * times);
  (* history: token and phase of every [setPhase] run by a timer, newest first *)
  phaseCalls : list (nat * phase)
}.

Definition set_rounds (v : list round) (w : world) : world :=
  {| rounds := v; currentIndex := currentIndex w; answered := answered w;
     playbackToken := playbackToken w; moveNextTimer := moveNextTimer w;
     phaseTimers := phaseTimers w; roundOutput := roundOutput w; loopNextAt := loopNextAt w;
     timers := timers w; nextTimer := nextTimer w; buttons := buttons w;
     shownPhase := shownPhase w; rng := rng w; cycles := cycles w;
     phaseCalls := phaseCalls w |}.

Definition set_currentIndex (v : nat) (w : world) : world :=
  {| rounds := rounds w; currentIndex := v; answered := answered w;
     playbackToken := playbackToken w; moveNextTimer := moveNextTimer w;
     phaseTimers := phaseTimers w; roundOutput := roundOutput w; loopNextAt := loopNextAt w;
     timers := timers w; nextTimer := nextTimer w; buttons := buttons w;
     shownPhase := shownPhase w; rng := rng w; cycles := cycles w;
     phaseCalls := phaseCalls w |}.

Definition set_answered (v : bool) (w : world) : world :=
  {| rounds := rounds w; currentIndex := currentIndex w; answered := v;
     playbackToken := playbackToken w; moveNextTimer := moveNextTimer w;
     phaseTimers := phaseTimers w; roundOutput := roundOutput w; loopNextAt := loopNextAt w;
     timers := timers w; nextTimer := nextTimer w; buttons := buttons w;
     shownPhase := shownPhase w; rng := rng w; cycles := cycles w;
     phaseCalls := phaseCalls w |}.

Definition set_playbackToken (v : nat) (w : world) : world :=
  {| rounds := rounds w; currentIndex := currentIndex w; answered := answered w;
     playbackToken := v; moveNextTimer := moveNextTimer w; phaseTimers := phaseTimers w;
     roundOutput := roundOutput w; loopNextAt := loopNextAt w; timers := timers w;
     nextTimer := nextTimer w; buttons := buttons w; shownPhase := shownPhase w;
     rng := rng w; cycles := cycles w; phaseCalls := phaseCalls w |}.

Definition set_moveNextTimer (v : option nat) (w : world) : world :=
  {| rounds := rounds w; currentIndex := currentIndex w; answered := answered w;
     playbackToken := playbackToken w; moveNextTimer := v; phaseTimers := phaseTimers w;
     roundOutput := roundOutput w; loopNextAt := loopNextAt w; timers := timers w;
     nextTimer := nextTimer w; buttons := buttons w; shownPhase := shownPhase w;
     rng := rng w; cycles := cycles w; phaseCalls := phaseCalls w |}.

Definition set_phaseTimers (v : list nat) (w : world) : world :=
  {| rounds := rounds w; currentIndex := currentIndex w; answered := answered w;
     playbackToken := playbackToken w; moveNextTimer := moveNextTimer w; phaseTimers := v;
     roundOutput := roundOutput w; loopNextAt := loopNextAt w; timers := timers w;
     nextTimer := nextTimer w; buttons := buttons w; shownPhase := shownPhase w;
     rng := rng w; cycles := cycles w; phaseCalls := phaseCalls w |}.

Definition set_roundOutput (v : bool) (w : world) : world :=
  {| rounds := rounds w; currentIndex := currentIndex w; answered := answered w;
     playbackToken := playbackToken w; moveNextTimer := moveNextTimer w;
     phaseTimers := phaseTimers w; roundOutput := v; loopNextAt := loopNextAt w;
     timers := timers w; nextTimer := nextTimer w; buttons := buttons w;
     shownPhase := shownPhase w; rng := rng w; cycles := cycles w;
     phaseCalls := phaseCalls w |}.

Definition set_loopNextAt (v : Q) (w : world) : world :=
  {| rounds := rounds w; currentIndex := currentIndex w; answered := answered w;
     playbackToken := playbackToken w; moveNextTimer := moveNextTimer w;
     phaseTimers := phaseTimers w; roundOutput := roundOutput w; loopNextAt := v;
     timers := timers w; nextTimer := nextTimer w; buttons := buttons w;
     shownPhase := shownPhase w; rng := rng w; cycles := cycles w;
     phaseCalls := phaseCalls w |}.

Definition set_timers (v : gmap nat (callback * Q)) (w : world) : world :=
  {| rounds := rounds w; currentIndex := currentIndex w; answered := answered w;
     playbackToken := playbackToken w; moveNextTimer := moveNextTimer w;
     phaseTimers := phaseTimers w; roundOutput := roundOutput w; loopNextAt := loopNextAt w;
     timers := v; nextTimer := nextTimer w; buttons := buttons w;
     shownPhase := shownPhase w; rng := rng w; cycles := cycles w;
     phaseCalls := phaseCalls w |}.

Definition set_nextTimer (v : nat) (w : world) : world :=
  {| rounds := rounds w; currentIndex := currentIndex w; answered := answered w;
     playbackToken := playbackToken w; moveNextTimer := moveNextTimer w;
     phaseTimers := phaseTimers w; roundOutput := roundOutput w; loopNextAt := loopNextAt w;
     timers := timers w; nextTimer := v; buttons := buttons w; shownPhase := shownPhase w;
     rng := rng w; cycles := cycles w; phaseCalls := phaseCalls w |}.

Definition set_buttons (v : list (string * bool)) (w : world) : world :=
  {| rounds := rounds w; currentIndex := currentIndex w; answered := answered w;
     playbackToken := playbackToken w; moveNextTimer := moveNextTimer w;
     phaseTimers := phaseTimers w; roundOutput := roundOutput w; loopNextAt := loopNextAt w;
     timers := timers w; nextTimer := nextTimer w; buttons := v; shownPhase := shownPhase w;
     rng := rng w; cycles := cycles w; phaseCalls := phaseCalls w |}.

Definition set_shownPhase (v : phase) (w : world) : world :=
  {| rounds := rounds w; currentIndex := currentIndex w; answered := answered w;
     playbackToken := playbackToken w; moveNextTimer := moveNextTimer w;
     phaseTimers := phaseTimers w; roundOutput := roundOutput w; loopNextAt := loopNextAt w;
     timers := timers w; nextTimer := nextTimer w; buttons := buttons w; shownPhase := v;
     rng := rng w; cycles := cycles w; phaseCalls := phaseCalls w |}.

Definition set_rng (v : nat) (w : world) : world :=
  {| rounds := rounds w; currentIndex := currentIndex w; answered := answered w;
     playbackToken := playbackToken w; moveNextTimer := moveNextTimer w;
     phaseTimers := phaseTimers w; roundOutput := roundOutput w; loopNextAt := loopNextAt w;
     timers := timers w; nextTimer := nextTimer w; buttons := buttons w;
     shownPhase := shownPhase w; rng := v; cycles := cycles w; phaseCalls := phaseCalls w |}.

Definition set_cycles (v : list (nat * times)) (w : world) : world :=
  {| rounds := rounds w; currentIndex := currentIndex w; answered := answered w;
     playbackToken := playbackToken w; moveNextTimer := moveNextTimer w;
     phaseTimers := phaseTimers w; roundOutput := roundOutput w; loopNextAt := loopNextAt w;
     timers := timers w; nextTimer := nextTimer w; buttons := buttons w;
     shownPhase := shownPhase w; rng := rng w; cycles := v; phaseCalls := phaseCalls w |}.

Definition set_phaseCalls (v : list (nat * phase)) (w : world) : world :=
  {| rounds := rounds w; currentIndex := currentIndex w; answered := answered w;
     playbackToken := playbackToken w; moveNextTimer := moveNextTimer w;
     phaseTimers := phaseTimers w; roundOutput := roundOutput w; loopNextAt := loopNextAt w;
     timers := timers w; nextTimer := nextTimer w; buttons := buttons w;
     shownPhase := shownPhase w; rng := rng w; cycles := cycles w; phaseCalls := v |}.

Definition initial_world : world :=
  {| rounds := []; currentIndex := 0; answered := false; playbackToken := 0;
     moveNextTimer := None; phaseTimers := []; roundOutput := false; loopNextAt := 0;
     timers := ∅; nextTimer := 1; buttons := []; shownPhase := PHASE_A; rng := 0;
     cycles := []; phaseCalls := [] |}.

(** [window.setTimeout]: the new timer gets the next identifier. *)
Definition setTimeout (cb : callback) (delayMs : Q) (w : world) : nat * world :=
  let t := nextTimer w in
  (t, set_nextTimer (S t) (set_timers (<[t := (cb, delayMs)]> (timers w)) w)).

Definition clearTimeout (t : nat) (w : world) : world :=
  set_timers (delete t (timers w)) w.

Definition clearPhaseTimers (w : world) : world :=
  set_phaseTimers [] (fold_left (fun w t => clearTimeout t w) (phaseTimers w) w).

(** A timer identifier is truthy unless it is 0. *)
Definition clearTimers (w : world) : world :=
  let w :=
    match moveNextTimer w with
    | Some t => if Nat.eqb t 0 then w else set_moveNextTimer None (clearTimeout t w)
    | None => w
    end in
  clearPhaseTimers w.

Definition scheduleUi (token : nat) (delaySeconds : Q) (fn : ui_fn) (w : world) : world :=
  let '(t, w) := setTimeout (CbUi token fn) (Math_max 0 (delaySeconds * 1000)) w in
  set_phaseTimers (phaseTimers w ++ [t]) w.

Definition setPhase (p : phase) (w : world) : world := set_shownPhase p w.

Definition stopRoundAudio (now : Q) (w : world) : world :=
  if roundOutput w then
    let w := set_roundOutput false w in
    let fade := 0.03 in
    let disconnectMs := Math_max 0 ((now + fade + 0.03 - now) * 1000) in
    snd (setTimeout CbDisconnect disconnectMs w)
  else w.

Definition setOptionsDisabled (disabled : bool) (w : world) : world :=
  set_buttons (map (fun b => (fst b, disabled)) (buttons w)) w.

Definition renderOptions (order : list string) (w : world) : world :=
  set_buttons (map (fun knobId => (knobId, true)) order) w.

(** [playTake]: the voices are those of [take_voices]; the world gets the
    timer that disconnects the take's gain node. *)
Definition playTake (now : Q) (p : params) (when : Q) (w : world) : Q * world :=
  let hardStopTime := when + SETTINGS.TAKE_SECONDS + SETTINGS.TAKE_CLEANUP_EXTRA_SECONDS in
  let cleanupAt := hardStopTime in
  let cleanupMs := Math_max 0 ((cleanupAt - now) * 1000) in
  (when + SETTINGS.TAKE_SECONDS, snd (setTimeout CbDisconnect cleanupMs w)).

Definition playRound (now : Q) (r : round) (when : Q) (w : world) : times * world :=
  let aStart := when in
  let '(aEnd, w) := playTake now (takeA r) aStart w in
  let bStart := aEnd + SETTINGS.SILENCE_GAP_SECONDS in
  let '(bEnd, w) := playTake now (takeB r) bStart w in
  ({| aStart := aStart; aEnd := aEnd; bStart := bStart; bEnd := bEnd; endAt := bEnd |}, w).

(** [now] is the reading of [ctx.currentTime] during the handler. *)
Definition scheduleNextLoopCycle (token : nat) (now : Q) : ST world unit :=
  fun w =>
    if negb (Nat.eqb token (playbackToken w)) then (Ok tt, w)
    else if answered w then (Ok tt, w)
    else if negb (roundOutput w) then (Ok tt, w)
    else
      match rounds w !! currentIndex w with
      | None => (Throw TypeErrorUndefined, w)
      | Some round =>
          let at_ := loopNextAt w in
          let at_ := if ltb at_ (now + 0.005) then now + 0.005 else at_ in
          let '(t, w) := playRound now round at_ w in
          let w := set_cycles ((token, t) :: cycles w) w in
          let w := scheduleUi token (aStart t - now) (SetPhase PHASE_A) w in
          let w := scheduleUi token (aEnd t - now) (SetPhase PHASE_GAP) w in
          let w := scheduleUi token (bStart t - now) (SetPhase PHASE_B) w in
          let w := scheduleUi token (endAt t - now) (SetPhase PHASE_GAP) w in
          let w := set_loopNextAt (endAt t + SETTINGS.LOOP_CYCLE_PAUSE_SECONDS) w in
          let callAt := loopNextAt w - SETTINGS.SCHEDULING_LEAD_SECONDS in
          let w := scheduleUi token (callAt - now) (NextLoopCycle token) w in
          (Ok tt, w)
      end.

Definition finishGame (now : Q) (w : world) : world :=
  let w := clearTimers w in
  let w := stopRoundAudio now w in
  let w := setOptionsDisabled true w in
  setPhase PHASE_ANSWER w.

Definition with_answerOrder (order : list string) (r : round) : round :=
  {| index := index r; changedKnob := changedKnob r; takeA := takeA r; takeB := takeB r;
     answerOrder := Some order |}.

Section Machine.

Context {ML : MathLib}.
Variable rnd : nat -> Q.

Definition startRound (index : nat) (now : Q) : ST world unit :=
  fun w =>
    let w := clearTimers w in
    let w := stopRoundAudio now w in
    let w := set_playbackToken (playbackToken w + 1) w in
    let token := playbackToken w in
    let w := set_currentIndex index w in
    let w := set_answered false w in
    let round := rounds w !! index in
    match shuffle rnd (map id KNOBS) (rng w) with
    | (Ok order, n) =>
        let w := set_rng n w in
        match round with
        | None => (Throw TypeErrorUndefined, w)
        | Some r =>
            let w := set_rounds (<[index := with_answerOrder order r]> (rounds w)) w in
            let w := renderOptions order w in
            let w := setOptionsDisabled false w in
            let w := setPhase PHASE_GAP w in
            let startAt := now + SETTINGS.SCHEDULING_LEAD_SECONDS in
            let w := set_roundOutput true w in
            let w := set_loopNextAt startAt w in
            scheduleNextLoopCycle token now w
        end
    | (Throw e, n) => (Throw e, set_rng n w)
    | (OutOfModel, n) => (OutOfModel, set_rng n w)
    end.

Definition handleAnswer (knobId : string) (now : Q) : ST world unit :=
  fun w =>
    if answered w then (Ok tt, w)
    else
      let anyEnabled := existsb (fun b => negb (snd b)) (buttons w) in
      if negb anyEnabled then (Ok tt, w)
      else
        let w := set_answered true w in
        let w := clearPhaseTimers w in
        let w := stopRoundAudio now w in
        let w := setPhase PHASE_ANSWER w in
        match rounds w !! currentIndex w with
        | None => (Throw TypeErrorUndefined, w)
        | Some round =>
            let w := setOptionsDisabled true w in
            let '(t, w) := setTimeout CbMoveNext SETTINGS.FEEDBACK_ADVANCE_MS w in
            (Ok tt, set_moveNextTimer (Some t) w)
        end.

(** The callback that [handleAnswer] arms. *)
Definition moveNext (now : Q) : ST world unit :=
  fun w =>
    if (SETTINGS.ROUNDS_PER_GAME <=? currentIndex w + 1)%nat then (Ok tt, finishGame now w)
    else startRound (currentIndex w + 1) now w.

Definition startNewGame (now : Q) : ST world unit :=
  fun w =>
    let w := clearTimers w in
    let w := stopRoundAudio now w in
    match buildNewRounds rnd (rng w) with
    | (Ok batch, n) =>
        let w := set_rounds batch (set_rng n w) in
        let w := set_currentIndex 0 w in
        let w := set_answered false w in
        startRound 0 now w
    | (Throw e, n) => (Throw e, set_rng n w)
    | (OutOfModel, n) => (OutOfModel, set_rng n w)
    end.

(** A timer fires: it leaves the list of pending timers and its callback
    runs. *)
Definition fire (t : nat) (now : Q) : ST world unit :=
  fun w =>
    match timers w !! t with
    | None => (Ok tt, w)
    | Some (cb, _) =>
        let w := clearTimeout t w in
        match cb with
        | CbUi token fn =>
            if negb (Nat.eqb token (playbackToken w)) then (Ok tt, w)
            else
              match fn with
              | SetPhase p =>
                  (Ok tt, set_phaseCalls ((token, p) :: phaseCalls w) (setPhase p w))
              | NextLoopCycle token' => scheduleNextLoopCycle token' now w
              end
        | CbMoveNext => moveNext now w
        | CbDisconnect => (Ok tt, w)
        end
    end.

(** What happens to the page: the start or restart button is pressed, an
    option is chosen by click or key, a timer fires.  Each event carries the
    reading of the audio clock at that moment. *)
Inductive event :=
| EvStart (now : Q)
| EvAnswer (knobId : string) (now : Q)
| EvTimer (t : nat) (now : Q).

Definition handle (e : event) : ST world unit :=
  match e with
  | EvStart now => startNewGame now
  | EvAnswer knobId now => handleAnswer knobId now
  | EvTimer t now => fire t now
  end.

(** The world after the handler of [e] has run, to its end or to a throw. *)
Definition step (w : world) (e : event) : world := snd (handle e w).

Definition run (w : world) (es : list event) : world := fold_left step es w.

Inductive reachable : world -> Prop :=
| reachable_initial : reachable initial_world
| reachable_step (w : world) (e : event) : reachable w -> reachable (step w e).

End Machine.

(** ** A game for running the machine *)

Definition demo_draws : nat -> Q := cyclic_draws 11 7 3.

(** The start button is pressed when the audio clock reads 0: a batch is
    built, round 0 starts with token 1, and the first cycle is scheduled.  Its
    timers are 1 and 2 (disconnections), 3 to 6 (phase changes) and 7 (the
    next cycle). *)
Definition playing : world := step demo_draws initial_world (EvStart 0).

(** Timer 7 fires when the clock reads 4.62, which is 20 ms later than it
    was set for: the second cycle is scheduled. *)
Definition looping : world := step demo_draws playing (EvTimer 7 4.62).

(** The delay with which timer [t] was set. *)
Definition delay_of (w : world) (t : nat) : Q :=
  match timers w !! t with
  | Some (_, d) => d
  | None => 0
  end.

(** ** Further functions of the source *)

Section MoreRandom.

Context {ML : MathLib}.
Variable rnd : nat -> Q.

Definition randLogFloat (min max : Q) : Rand Q :=
  let safeMin := Math_max 0.000001 min in
  let safeMax := Math_max (safeMin * 1.000001) max in
  let* u := Math_random rnd in
  ret (safeMin * Math_exp (Math_log (safeMax / safeMin) * u)).

End MoreRandom.

(** [KNOB_BY_ID]: the knobs keyed by their id. *)
Definition KNOB_BY_ID : gmap string knob := list_to_map (map (fun k => (id k, k)) KNOBS).

(** [(KNOB_BY_ID[id] && KNOB_BY_ID[id].label) || id]: an empty label is
    falsy. *)
Definition formatKnob (i : string) : string :=
  match KNOB_BY_ID !! i with
  | Some k => if String.eqb (label k) "" then i else label k
  | None => i
  end.

(** The calls that the source makes on an audio parameter, with the value
    and the time of each. *)
Inductive automation :=
| CancelScheduledValues (time : Q)
| SetValueAtTime (value time : Q)
| LinearRampToValueAtTime (value time : Q)
| ExponentialRampToValueAtTime (value time : Q).

Definition automation_time (a : automation) : Q :=
  match a with
  | CancelScheduledValues t => t
  | SetValueAtTime _ t => t
  | LinearRampToValueAtTime _ t => t
  | ExponentialRampToValueAtTime _ t => t
  end.

(** The value that a call programs; cancelling programs none. *)
Definition automation_value (a : automation) : option Q :=
  match a with
  | CancelScheduledValues _ => None
  | SetValueAtTime v _ => Some v
  | LinearRampToValueAtTime v _ => Some v
  | ExponentialRampToValueAtTime v _ => Some v
  end.

(** The calls of [scheduleTakeFade] on the gain of a take, in order. *)
Definition scheduleTakeFade (startTime durationSeconds : Q) : list automation :=
  let fade := clamp SETTINGS.TAKE_FADE_SECONDS 0.001 (durationSeconds / 2) in
  let endTime := startTime + durationSeconds in
  let fadeOutStart := endTime - fade in
  [ CancelScheduledValues startTime;
    SetValueAtTime 0.0 startTime;
    LinearRampToValueAtTime 1.0 (startTime + fade);
    SetValueAtTime 1.0 fadeOutStart;
    LinearRampToValueAtTime 0.0 endTime ].

(** The calls of [scheduleVoice] on the gain of a note: the amplitude
    envelope, after the initial [setValueAtTime] made when the node is
    created. *)
Definition voice_gain (p : params) (noteStartTime : Q) : list automation :=
  let attack := SETTINGS.AMP_ATTACK_SECONDS in
  let release := SETTINGS.AMP_RELEASE_SECONDS in
  let decay := msToSec (decayMs p) in
  let nearZero := 0.0001 in
  [ SetValueAtTime 0.0 noteStartTime;
    SetValueAtTime 0.0 noteStartTime;
    LinearRampToValueAtTime SETTINGS.VOICE_PEAK_GAIN (noteStartTime + attack);
    LinearRampToValueAtTime nearZero (noteStartTime + attack + decay);
    LinearRampToValueAtTime 0.0 (noteStartTime + attack + decay + release) ].

(** The calls of [scheduleVoice] on the frequency of each filter stage: the
    filter envelope. *)
Definition voice_filter (p : params) (noteStartTime : Q) : list automation :=
  let decay := msToSec (decayMs p) in
  let baseCutoff := clamp (cutoffHz p) 20 20000 in
  let envPeak := clamp (baseCutoff + SETTINGS.FILTER_ENV_AMOUNT_HZ) 20 20000 in
  [ SetValueAtTime baseCutoff noteStartTime;
    ExponentialRampToValueAtTime envPeak
      (noteStartTime + SETTINGS.FILTER_ENV_ATTACK_SECONDS);
    ExponentialRampToValueAtTime baseCutoff
      (noteStartTime + SETTINGS.FILTER_ENV_ATTACK_SECONDS + decay) ].

(** Times that never decrease along a list of calls. *)
Fixpoint ascending (l : list Q) : Prop :=
  match l with
  | x :: ((y :: _) as rest) => x <= y /\ ascending rest
  | _ => True
  end.

(** * Properties *)

(** ** Arithmetic of the helpers *)

Lemma ltb_lt (a b : Q) : ltb a b = true <-> a < b.
Proof.
  unfold ltb. rewrite negb_true_iff, <- not_true_iff_false, Qle_bool_iff.
  split; [apply Qnot_le_lt | apply Qlt_not_le].
Qed.

Lemma leb_le (a b : Q) : leb a b = true <-> a <= b.
Proof. apply Qle_bool_iff. Qed.

Lemma Math_max_cases (a b : Q) :
  (a <= b /\ Math_max a b == b) \/ (b <= a /\ Math_max a b == a).
Proof.
  unfold Math_max. destruct (Q.max_spec a b) as [[H E] | [H E]]; [left | right];
    split; auto. apply Qlt_le_weak, H.
Qed.

Lemma Math_min_cases (a b : Q) :
  (a <= b /\ Math_min a b == a) \/ (b <= a /\ Math_min a b == b).
Proof.
  unfold Math_min. destruct (Q.min_spec a b) as [[H E] | [H E]]; [left | right];
    split; auto. apply Qlt_le_weak, H.
Qed.

Lemma clamp_range (x lo hi : Q) : lo <= hi -> lo <= clamp x lo hi <= hi.
Proof.
  intros Hlh. unfold clamp.
  destruct (Math_max_cases lo x) as [[H1 E1] | [H1 E1]];
    destruct (Math_min_cases hi (Math_max lo x)) as [[H2 E2] | [H2 E2]];
    rewrite E2; rewrite ?E1; rewrite E1 in H2; split; lra.
Qed.

Lemma clamp_inside (x lo hi : Q) : lo <= x <= hi -> clamp x lo hi == x.
Proof.
  intros [Hl Hh]. unfold clamp.
  destruct (Math_max_cases lo x) as [[H1 E1] | [H1 E1]];
    destruct (Math_min_cases hi (Math_max lo x)) as [[H2 E2] | [H2 E2]];
    rewrite E2; rewrite ?E1; rewrite E1 in H2; lra.
Qed.

Lemma clamp_below (x lo hi : Q) : x <= lo -> lo <= hi -> clamp x lo hi == lo.
Proof.
  intros Hl Hh. unfold clamp.
  destruct (Math_max_cases lo x) as [[H1 E1] | [H1 E1]];
    destruct (Math_min_cases hi (Math_max lo x)) as [[H2 E2] | [H2 E2]];
    rewrite E2; rewrite ?E1; rewrite E1 in H2; lra.
Qed.

Lemma nearEqual_true (a b : Q) :
  nearEqual a b = true <-> - PARAM_EPS <= a - b <= PARAM_EPS.
Proof.
  unfold nearEqual, Math_abs. rewrite leb_le. split.
  - intros H. apply Qabs_Qle_condition in H. exact H.
  - intros H. apply Qabs_Qle_condition. exact H.
Qed.

Lemma nearEqual_false (a b : Q) :
  nearEqual a b = false <-> PARAM_EPS < Math_abs (a - b).
Proof.
  unfold nearEqual. rewrite <- not_true_iff_false, leb_le.
  split; [apply Qnot_le_lt | apply Qlt_not_le].
Qed.

Lemma nearEqual_refl (a : Q) : nearEqual a a = true.
Proof. apply nearEqual_true. unfold PARAM_EPS. split; lra. Qed.

(** A draw scaled by a positive array length floors to an index of the
    array. *)
Lemma floor_draw_range (u : Q) (n : nat) :
  0 <= u < 1 -> (0 < n)%nat ->
  (0 <= Math_floor (u * inject_Z (Z.of_nat n)) < Z.of_nat n)%Z.
Proof.
  intros [H0 H1] Hn. unfold Math_floor.
  assert (Hn' : 0 < inject_Z (Z.of_nat n)).
  { change 0 with (inject_Z 0). rewrite <- Zlt_Qlt. lia. }
  set (m := inject_Z (Z.of_nat n)) in *.
  assert (Hx0 : 0 <= u * m) by (apply Qmult_le_0_compat; lra).
  assert (Hx1' : u * m < 1 * m) by (apply Qmult_lt_compat_r; lra).
  assert (Hx1 : u * m < m) by lra.
  set (x := u * m) in *.
  pose proof (Qfloor_le x) as Hf. pose proof (Qlt_floor x) as Hg.
  split.
  - assert (inject_Z 0 < inject_Z (Qfloor x + 1)) as H
      by (apply Qle_lt_trans with x; [exact Hx0 | exact Hg]).
    rewrite <- Zlt_Qlt in H. lia.
  - rewrite Zlt_Qlt. apply Qle_lt_trans with x; [exact Hf | exact Hx1].
Qed.

Lemma js_index_draw {A : Type} (arr : list A) (u : Q) :
  0 <= u < 1 -> arr <> [] ->
  exists x, js_index arr (Math_floor (u * inject_Z (Z.of_nat (length arr)))) = Some x
            /\ x ∈ arr.
Proof.
  intros Hu Hne.
  assert (Hlen : (0 < length arr)%nat) by (destruct arr; simpl; [congruence | lia]).
  destruct (floor_draw_range u (length arr) Hu Hlen) as [H0 H1].
  unfold js_index.
  destruct (Z.ltb_spec (Math_floor (u * inject_Z (Z.of_nat (length arr)))) 0); [lia |].
  destruct (lookup_lt_is_Some_2 arr
              (Z.to_nat (Math_floor (u * inject_Z (Z.of_nat (length arr))))))
    as [x Hx]; [lia |].
  exists x. split; [exact Hx |]. apply list_elem_of_lookup. eauto.
Qed.

(** Which of two array elements a draw selects: the first one exactly on the
    lower half of the unit interval. *)
Lemma js_index_draw2 {A : Type} (x y : A) (u : Q) :
  0 <= u < 1 ->
  js_index [x; y] (Math_floor (u * inject_Z (Z.of_nat (length [x; y]))))
  = Some (if ltb u 0.5 then x else y).
Proof.
  intros Hu.
  destruct (floor_draw_range u 2 Hu ltac:(lia)) as [H0 H1].
  change (length [x; y]) with 2%nat.
  pose proof (Qfloor_le (u * inject_Z (Z.of_nat 2))) as Hf.
  pose proof (Qlt_floor (u * inject_Z (Z.of_nat 2))) as Hg.
  unfold Math_floor in *.
  set (z := Qfloor (u * inject_Z (Z.of_nat 2))) in *.
  change (inject_Z (Z.of_nat 2)) with 2 in *.
  assert (Hz : z = 0%Z \/ z = 1%Z) by lia.
  destruct (ltb u 0.5) eqn:E.
  - apply ltb_lt in E. destruct Hz as [-> | ->]; [reflexivity |].
    exfalso. change (inject_Z 1) with 1 in Hf. lra.
  - apply not_true_iff_false in E. rewrite ltb_lt in E.
    destruct Hz as [-> | ->]; [| reflexivity].
    exfalso. apply E. change (inject_Z (0 + 1)) with 1 in Hg. lra.
Qed.


(** ** The random primitives under the contract of [Math.random] *)

Section GeneratorFacts.

Context {ML : MathLib}.
Variable rnd : nat -> Q.
Hypothesis rnd_range : forall k, 0 <= rnd k < 1.

Lemma pick_spec {A : Type} (arr : list A) (n : nat) :
  arr <> [] ->
  exists x, pick rnd arr n = (Ok (Some x), S n) /\ x ∈ arr.
Proof.
  intros Hne. destruct (js_index_draw arr (rnd n) (rnd_range n) Hne) as [x [Hx Hin]].
  exists x. split; [| exact Hin].
  unfold pick, bind, Math_random, ret. rewrite Hx. reflexivity.
Qed.

Lemma pick2_spec {A : Type} (x y : A) (n : nat) :
  pick rnd [x; y] n = (Ok (Some (if ltb (rnd n) 0.5 then x else y)), S n).
Proof.
  unfold pick, bind, Math_random, ret.
  rewrite (js_index_draw2 x y (rnd n) (rnd_range n)). reflexivity.
Qed.

Lemma swap_spec {A : Type} (arr : list A) (i : nat) (u : Q) :
  0 <= u < 1 -> (i < length arr)%nat ->
  exists arr', swap arr i (Math_floor (u * (inject_Z (Z.of_nat i) + 1))) = Some arr'
               /\ arr' ≡ₚ arr.
Proof.
  intros Hu Hi.
  assert (E : u * (inject_Z (Z.of_nat i) + 1) == u * inject_Z (Z.of_nat (S i))).
  { rewrite Nat2Z.inj_succ. unfold Z.succ. rewrite inject_Z_plus. reflexivity. }
  unfold Math_floor. rewrite (Qfloor_comp _ _ E).
  destruct (floor_draw_range u (S i) Hu ltac:(lia)) as [H0 H1].
  unfold Math_floor in *. set (j := Qfloor (u * inject_Z (Z.of_nat (S i)))) in *.
  unfold swap, js_index.
  destruct (Z.ltb_spec j 0); [lia |].
  destruct (lookup_lt_is_Some_2 arr (Z.to_nat j)) as [aj Hj]; [lia |].
  destruct (lookup_lt_is_Some_2 arr i) as [ai Hi']; [lia |].
  rewrite Hj, Hi'. eexists. split; [reflexivity |].
  apply Permutation_insert_swap; assumption.
Qed.

Lemma shuffle_from_spec {A : Type} (i : nat) :
  forall (arr : list A) (n : nat),
    (i <= length arr - 1)%nat ->
    exists arr', shuffle_from rnd i arr n = (Ok arr', (n + i)%nat) /\ arr' ≡ₚ arr.
Proof.
  induction i as [| i IH]; intros arr n Hi.
  - exists arr. split; [| reflexivity]. simpl. unfold ret. f_equal. lia.
  - destruct (swap_spec arr (S i) (rnd n) (rnd_range n)) as [arr1 [Hs Hp]]; [lia |].
    destruct (IH arr1 (S n)) as [arr2 [Hr Hp2]].
    { apply Permutation_length in Hp. lia. }
    exists arr2. split; [| etransitivity; eassumption].
    cbn [shuffle_from]. unfold bind, Math_random at 1.
    rewrite Hs, Hr. f_equal. lia.
Qed.

Lemma shuffle_spec {A : Type} (l : list A) (n : nat) :
  exists l', shuffle rnd l n = (Ok l', (n + (length l - 1))%nat) /\ l' ≡ₚ l.
Proof. apply shuffle_from_spec. lia. Qed.

(** What the base draws of a round guarantee. *)
Definition base_ok (a : params) : Prop :=
  SETTINGS.CUTOFF_BASE_HZ_MIN <= cutoffHz a /\
  SETTINGS.RESONANCE_BASE_Q_MIN <= resonanceQ a < SETTINGS.RESONANCE_BASE_Q_MAX /\
  SETTINGS.DECAY_BASE_MS_MIN <= decayMs a < SETTINGS.DECAY_BASE_MS_MAX /\
  noteFreqHz a ∈ SETTINGS.NOTE_FREQUENCIES_HZ.

Lemma randFloat_spec (lo hi : Q) (n : nat) :
  lo < hi ->
  exists x, randFloat rnd lo hi n = (Ok x, S n) /\ lo <= x < hi.
Proof.
  intros Hlh. exists (lo + rnd n * (hi - lo)). split; [reflexivity |].
  destruct (rnd_range n) as [H0 H1].
  assert (0 <= rnd n * (hi - lo)) by (apply Qmult_le_0_compat; lra).
  assert (rnd n * (hi - lo) < 1 * (hi - lo)) by (apply Qmult_lt_compat_r; lra).
  split; lra.
Qed.

(** The skewed logarithmic draw never falls below its lower bound. *)
Lemma randLogFloatSkew_spec (lo hi skew : Q) (n : nat) :
  0 < lo -> lo <= hi ->
  exists x, randLogFloatSkew rnd lo hi skew n = (Ok x, S n) /\ lo <= x.
Proof.
  intros Hlo Hhi. eexists. split; [reflexivity |].
  set (safeMin := Math_max 0.000001 lo).
  set (safeMax := Math_max (safeMin * 1.000001) hi).
  assert (Hmin : lo <= safeMin /\ 0 < safeMin).
  { unfold safeMin. destruct (Math_max_cases 0.000001 lo) as [[H E] | [H E]];
      rewrite E; split; lra. }
  destruct Hmin as [Hmin Hpos].
  assert (Hmax : safeMin <= safeMax).
  { unfold safeMax.
    destruct (Math_max_cases (safeMin * 1.000001) hi) as [[H E] | [H E]];
      rewrite E; lra. }
  assert (Hratio : 1 <= safeMax / safeMin).
  { apply Qle_shift_div_l; [exact Hpos | lra]. }
  assert (Harg : 0 <= Math_log (safeMax / safeMin)
                      * Math_pow (rnd n) (Math_max 0.05 skew)).
  { apply Qmult_le_0_compat.
    - apply Math_log_nonneg, Hratio.
    - apply Math_pow_nonneg, rnd_range. }
  pose proof (Math_exp_ge_1 _ Harg) as Hexp.
  unfold Number_isFinite.
  apply Qle_trans with (safeMin * 1); [lra |].
  apply Qmult_le_l; assumption.
Qed.

Lemma perturb_cutoff (a b : params) (n : nat) :
  perturb rnd (Some "cutoff") a b n =
  (Ok {| cutoffHz := cutoffHz a * (if ltb (rnd n) 0.5 then 2.6 else 0.38);
         resonanceQ := resonanceQ b; decayMs := decayMs b; noteFreqHz := noteFreqHz b |},
   S n).
Proof.
  unfold perturb, bind, SETTINGS.CUTOFF_CHANGE_MULTIPLIERS.
  rewrite pick2_spec. reflexivity.
Qed.

Lemma perturb_resonance (a b : params) (n : nat) :
  perturb rnd (Some "resonance") a b n =
  (Ok {| cutoffHz := cutoffHz b;
         resonanceQ :=
           clamp (resonanceQ a + (if ltb (rnd n) 0.5 then -1 else 1)
                                 * SETTINGS.RESONANCE_CHANGE_DELTA_Q)
             SETTINGS.RESONANCE_Q_MIN SETTINGS.RESONANCE_Q_MAX;
         decayMs := decayMs b; noteFreqHz := noteFreqHz b |},
   S n).
Proof. reflexivity. Qed.

Lemma perturb_decay (a b : params) (n : nat) :
  perturb rnd (Some "decay") a b n =
  (Ok {| cutoffHz := cutoffHz b; resonanceQ := resonanceQ b;
         decayMs :=
           clamp (decayMs a * (if ltb (rnd n) 0.5 then 1.6 else 0.6))
             SETTINGS.DECAY_MS_MIN SETTINGS.DECAY_MS_MAX;
         noteFreqHz := noteFreqHz b |},
   S n).
Proof.
  unfold perturb, bind, SETTINGS.DECAY_CHANGE_MULTIPLIERS.
  rewrite pick2_spec. reflexivity.
Qed.

(** The ids of [KNOBS]. *)
Definition knob_ids : list string := map id KNOBS.

Lemma perturb_total (k : string) (a b : params) (n : nat) :
  k ∈ knob_ids -> exists b', perturb rnd (Some k) a b n = (Ok b', S n).
Proof.
  intros Hk. unfold knob_ids in Hk. simpl in Hk.
  repeat (apply elem_of_cons in Hk; destruct Hk as [-> | Hk]);
    [rewrite perturb_cutoff | rewrite perturb_resonance | rewrite perturb_decay |];
    eauto.
  apply elem_of_nil in Hk. contradiction.
Qed.

Lemma generateRound_spec (i : nat) (k : string) (n : nat) :
  k ∈ knob_ids ->
  exists a b,
    generateRound rnd i (Some k) n =
      (Ok {| index := i; changedKnob := k; takeA := a; takeB := b; answerOrder := None |},
       (n + 5)%nat)
    /\ base_ok a
    /\ perturb rnd (Some k) a a (n + 4)%nat = (Ok b, (n + 5)%nat).
Proof.
  intros Hk.
  destruct (randLogFloatSkew_spec SETTINGS.CUTOFF_BASE_HZ_MIN SETTINGS.CUTOFF_BASE_HZ_MAX
              SETTINGS.CUTOFF_BASE_LOG_SKEW n) as [c [Hc Hc0]];
    [reflexivity | discriminate |].
  destruct (randFloat_spec SETTINGS.RESONANCE_BASE_Q_MIN SETTINGS.RESONANCE_BASE_Q_MAX (S n))
    as [q [Hq Hq0]]; [reflexivity |].
  destruct (randFloat_spec SETTINGS.DECAY_BASE_MS_MIN SETTINGS.DECAY_BASE_MS_MAX (S (S n)))
    as [d [Hd Hd0]]; [reflexivity |].
  destruct (pick_spec SETTINGS.NOTE_FREQUENCIES_HZ (S (S (S n)))) as [f [Hf Hf0]];
    [discriminate |].
  set (a := {| cutoffHz := c; resonanceQ := q; decayMs := d; noteFreqHz := f |}).
  destruct (perturb_total k a a (S (S (S (S n)))) Hk) as [b Hb].
  exists a, b.
  replace (n + 4)%nat with (S (S (S (S n)))) by lia.
  replace (n + 5)%nat with (S (S (S (S (S n))))) by lia.
  split; [| split; [repeat split; simpl; try tauto; assumption | exact Hb]].
  unfold generateRound, bind at 1. rewrite Hc.
  unfold bind at 1. rewrite Hq.
  unfold bind at 1. rewrite Hd.
  unfold bind at 1. rewrite Hf.
  unfold bind at 1. fold a. rewrite Hb. reflexivity.
Qed.

(** What is known of every round that the generator emits. *)
Definition generated_round (r : round) : Prop :=
  changedKnob r ∈ knob_ids /\
  base_ok (takeA r) /\
  answerOrder r = None /\
  exists n, perturb rnd (Some (changedKnob r)) (takeA r) (takeA r) n = (Ok (takeB r), S n).

Lemma rounds_loop_spec (changedKnobs : list string) (k : nat) :
  forall (i : nat) (acc : list round) (n : nat),
    (forall j, (i <= j < i + k)%nat ->
               exists s, changedKnobs !! j = Some s /\ s ∈ knob_ids) ->
    exists new,
      rounds_loop rnd changedKnobs k i acc n = (Ok (acc ++ new), (n + 5 * k)%nat)
      /\ map changedKnob new = take k (drop i changedKnobs)
      /\ map index new = seq i k
      /\ Forall generated_round new.
Proof.
  induction k as [| k IH]; intros i acc n Hck.
  - exists []. rewrite app_nil_r. repeat split; try constructor.
    simpl. unfold ret. f_equal. lia.
  - destruct (Hck i ltac:(lia)) as [s [Hs Hin]].
    destruct (generateRound_spec i s n Hin) as [a [b [Hg [Ha Hb]]]].
    set (r := {| index := i; changedKnob := s; takeA := a; takeB := b;
                 answerOrder := None |}) in *.
    destruct (IH (S i) (acc ++ [r]) (n + 5)%nat) as [new [Hl [Hm [Hi Hf]]]].
    { intros j Hj. apply Hck. lia. }
    exists (r :: new). repeat split.
    + cbn [rounds_loop]. unfold bind. rewrite Hs, Hg, Hl.
      rewrite <- app_assoc. simpl. f_equal. lia.
    + simpl. rewrite Hm. rewrite (drop_S _ _ _ Hs). reflexivity.
    + simpl. rewrite Hi. reflexivity.
    + constructor; [| exact Hf].
      split; [exact Hin |]. split; [exact Ha |]. split; [reflexivity |].
      exists (n + 4)%nat. replace (S (n + 4)) with (n + 5)%nat by lia. exact Hb.
Qed.

Lemma knobBag_ids (extra : knob) (bag : list string) :
  extra ∈ KNOBS -> bag ≡ₚ knobBag0 ++ [id extra] ->
  length bag = 10%nat /\ Forall (fun s => s ∈ knob_ids) bag.
Proof.
  intros He Hp. split.
  - rewrite (Permutation_length Hp). reflexivity.
  - rewrite Hp. unfold KNOBS in He.
    repeat (apply elem_of_cons in He; destruct He as [-> | He]);
      [| | | apply elem_of_nil in He; contradiction];
      repeat constructor; unfold knob_ids; simpl; set_solver.
Qed.

Lemma generateRounds_spec (n : nat) :
  exists (extra : knob) (bag : list string) (rounds : list round),
    pick rnd KNOBS n = (Ok (Some extra), S n)
    /\ extra ∈ KNOBS
    /\ shuffle rnd (knobBag0 ++ [id extra]) (S n) = (Ok bag, (n + 10)%nat)
    /\ bag ≡ₚ knobBag0 ++ [id extra]
    /\ generateRounds rnd n = (Ok rounds, (n + 60)%nat)
    /\ map changedKnob rounds = bag
    /\ map index rounds = seq 0 SETTINGS.ROUNDS_PER_GAME
    /\ Forall generated_round rounds.
Proof.
  destruct (pick_spec KNOBS n) as [extra [Hp He]]; [discriminate |].
  destruct (shuffle_spec (knobBag0 ++ [id extra]) (S n)) as [bag [Hs Hperm]].
  replace (S n + (length (knobBag0 ++ [id extra]) - 1))%nat with (n + 10)%nat in Hs
    by (rewrite length_app; simpl; lia).
  destruct (knobBag_ids extra bag He Hperm) as [Hlen Hids].
  destruct (rounds_loop_spec bag SETTINGS.ROUNDS_PER_GAME 0 [] (n + 10)%nat)
    as [rounds [Hl [Hm [Hi Hf]]]].
  { intros j Hj. unfold SETTINGS.ROUNDS_PER_GAME in Hj.
    destruct (lookup_lt_is_Some_2 bag j) as [s Hs']; [lia |].
    exists s. split; [exact Hs' |].
    rewrite Forall_forall in Hids. apply Hids. apply list_elem_of_lookup. eauto. }
  exists extra, bag, rounds. repeat split; try assumption.
  - unfold generateRounds, bind at 1. rewrite Hp.
    unfold bind. rewrite Hs, Hl. simpl. f_equal. unfold SETTINGS.ROUNDS_PER_GAME. lia.
  - rewrite Hm. rewrite drop_0. apply take_ge. unfold SETTINGS.ROUNDS_PER_GAME. lia.
Qed.

End GeneratorFacts.

(** ** What the validator accepts *)

(** How often [k] occurs in a list of knob ids. *)
Definition occurrences (k : string) (l : list string) : nat :=
  count_occ String.string_dec l k.

(** Two values differ by more than the tolerance. *)
Definition differs (x y : Q) : Prop := PARAM_EPS < Qabs (x - y).

(** Exactly one of the three knob fields differs between the two takes, and
    it is the field that [changedKnob] names: every field differs if and only
    if it is the named one, and the name is one of the three. *)
Definition single_difference (r : round) : Prop :=
  changedKnob r ∈ knob_ids /\
  (differs (cutoffHz (takeA r)) (cutoffHz (takeB r)) <-> changedKnob r = "cutoff") /\
  (differs (resonanceQ (takeA r)) (resonanceQ (takeB r)) <-> changedKnob r = "resonance") /\
  (differs (decayMs (takeA r)) (decayMs (takeB r)) <-> changedKnob r = "decay").

Lemma nearEqual_differs (x y : Q) : nearEqual x y = false <-> differs x y.
Proof. apply nearEqual_false. Qed.


Lemma diffs_of_single (r : round) :
  diffs_of r = [changedKnob r] <-> single_difference r.
Proof.
  unfold diffs_of, single_difference, knob_ids. simpl.
  rewrite <- !nearEqual_differs.
  destruct (nearEqual (cutoffHz (takeA r)) (cutoffHz (takeB r)));
    destruct (nearEqual (resonanceQ (takeA r)) (resonanceQ (takeB r)));
    destruct (nearEqual (decayMs (takeA r)) (decayMs (takeB r)));
    simpl; split.
  all: try (intros H; discriminate H).
  all: try (intros H; injection H as H; rewrite <- H;
            split; [set_solver | repeat split; congruence]).
  all: intros (Hin & Hc & Hr & Hd).
  all: try (destruct Hc as [Hc _]; specialize (Hc eq_refl)).
  all: try (destruct Hr as [Hr _]; specialize (Hr eq_refl)).
  all: try (destruct Hd as [Hd _]; specialize (Hd eq_refl)).
  all: try congruence.
  repeat (apply elem_of_cons in Hin; destruct Hin as [Hin | Hin]).
  - destruct Hc as [_ Hc]. specialize (Hc Hin). discriminate.
  - destruct Hr as [_ Hr]. specialize (Hr Hin). discriminate.
  - destruct Hd as [_ Hd]. specialize (Hd Hin). discriminate.
  - apply elem_of_nil in Hin. contradiction.
Qed.

Lemma round_errors_nil (r : round) :
  round_errors r = [] <->
  nearEqual (noteFreqHz (takeA r)) (noteFreqHz (takeB r)) = true /\ single_difference r.
Proof.
  rewrite <- diffs_of_single. unfold round_errors.
  destruct (nearEqual (noteFreqHz (takeA r)) (noteFreqHz (takeB r))); simpl.
  - destruct (diffs_of r) as [| d [| d' ds]]; simpl.
    + split; [discriminate | intros [_ H]; discriminate].
    + destruct (String.eqb_spec d (changedKnob r)) as [-> | Hne].
      * tauto.
      * split; [discriminate | intros [_ H]; congruence].
    + split; [discriminate | intros [_ H]; discriminate].
  - split; [discriminate | intros [H _]; discriminate].
Qed.

Lemma validate_fold (rounds : list round) :
  forall (errors : list violation) (counts : gmap string nat),
    fst (fold_left validate_step rounds (errors, counts))
    = errors ++ concat (map round_errors rounds)
    /\ forall k, count_of (snd (fold_left validate_step rounds (errors, counts))) k
                 = (count_of counts k + occurrences k (map changedKnob rounds))%nat.
Proof.
  induction rounds as [| r rounds IH]; intros errors counts; simpl.
  - rewrite app_nil_r. split; [reflexivity | intros k; unfold occurrences; simpl; lia].
  - destruct (IH (errors ++ round_errors r)
                (<[changedKnob r := (count_of counts (changedKnob r) + 1)%nat]> counts))
      as [He Hc].
    split.
    + rewrite He, app_assoc. reflexivity.
    + intros k. rewrite Hc. unfold occurrences, count_of. simpl.
      destruct (String.string_dec (changedKnob r) k) as [-> | Hne].
      * rewrite lookup_insert_eq. simpl. lia.
      * rewrite lookup_insert_ne by exact Hne. lia.
Qed.

Lemma validateRounds_ok (rounds : list round) :
  ok (validateRounds rounds) = true <->
  length rounds = SETTINGS.ROUNDS_PER_GAME
  /\ Forall (fun r => nearEqual (noteFreqHz (takeA r)) (noteFreqHz (takeB r)) = true
                      /\ single_difference r) rounds
  /\ Forall (fun k => (3 <= occurrences (id k) (map changedKnob rounds))%nat) KNOBS.
Proof.
  unfold validateRounds.
  set (e0 := if Nat.eqb (length rounds) SETTINGS.ROUNDS_PER_GAME then [] else [WrongLength]).
  set (c0 := list_to_map (map (fun k => (id k, 0%nat)) KNOBS) : gmap string nat).
  destruct (validate_fold rounds e0 c0) as [He Hc].
  destruct (fold_left validate_step rounds (e0, c0)) as [e1 c1]. simpl in He, Hc.
  assert (Hc0 : forall k, count_of c0 k = 0%nat).
  { intros k. unfold count_of. destruct (c0 !! k) as [v |] eqn:E; [| reflexivity].
    unfold c0 in E. simpl in E.
    repeat (rewrite lookup_insert in E; case_decide; [injection E as <-; reflexivity |]).
    rewrite lookup_empty in E. discriminate. }
  unfold KNOBS at 1. cbn [fold_left ok id].
  rewrite !Hc, !Hc0. cbn [Nat.add].
  rewrite Nat.eqb_eq, length_zero_iff_nil.
  unfold KNOBS. rewrite !Forall_cons, Forall_nil. cbn [id].
  set (n1 := occurrences "cutoff" (map changedKnob rounds)).
  set (n2 := occurrences "resonance" (map changedKnob rounds)).
  set (n3 := occurrences "decay" (map changedKnob rounds)).
  assert (Hr : concat (map round_errors rounds) = [] <->
               Forall (fun r => nearEqual (noteFreqHz (takeA r)) (noteFreqHz (takeB r)) = true
                                /\ single_difference r) rounds).
  { clear. induction rounds as [| r rounds IH]; simpl.
    - split; [constructor | reflexivity].
    - rewrite Forall_cons, <- IH, <- round_errors_nil.
      split; [apply app_eq_nil | intros [-> ->]; reflexivity]. }
  rewrite <- Hr. subst e1. unfold e0.
  destruct (Nat.eqb_spec (length rounds) SETTINGS.ROUNDS_PER_GAME) as [Hl | Hl];
    destruct (Nat.ltb_spec n1 3) as [L1 | L1];
    destruct (Nat.ltb_spec n2 3) as [L2 | L2];
    destruct (Nat.ltb_spec n3 3) as [L3 | L3];
    simpl; split.
  all: try (intros H; repeat (apply app_eq_nil in H; destruct H as [H ?]); discriminate).
  all: try (intros (? & ? & ? & ? & ? & ?); lia).
  - intros H. repeat split; auto.
  - intros (_ & H & _). exact H.
Qed.

(** ** The oracles *)

Lemma cyclic_draws_range (m : positive) (a b : nat) :
  forall k, 0 <= cyclic_draws m a b k < 1.
Proof.
  intros k. unfold cyclic_draws.
  pose proof (Z.mod_pos_bound (Z.of_nat (a * k + b)) (Z.pos m) ltac:(lia)) as [H0 H1].
  unfold Qle, Qlt. simpl. lia.
Qed.

(** ** Batches of the generator *)

Section GeneratedBatches.

Context {ML : MathLib}.
Variable rnd : nat -> Q.
Hypothesis rnd_range : forall k, 0 <= rnd k < 1.

(** The second take of a generated round is the first one with the field of
    the assigned knob recomputed from one draw [u]. *)
Lemma generated_round_cases (r : round) :
  generated_round rnd r ->
  exists u, 0 <= u < 1 /\
    ((changedKnob r = "cutoff" /\
      takeB r = {| cutoffHz := cutoffHz (takeA r) * (if ltb u 0.5 then 2.6 else 0.38);
                   resonanceQ := resonanceQ (takeA r);
                   decayMs := decayMs (takeA r);
                   noteFreqHz := noteFreqHz (takeA r) |})
     \/ (changedKnob r = "resonance" /\
         takeB r = {| cutoffHz := cutoffHz (takeA r);
                      resonanceQ :=
                        clamp (resonanceQ (takeA r)
                               + (if ltb u 0.5 then -1 else 1)
                                 * SETTINGS.RESONANCE_CHANGE_DELTA_Q)
                          SETTINGS.RESONANCE_Q_MIN SETTINGS.RESONANCE_Q_MAX;
                      decayMs := decayMs (takeA r);
                      noteFreqHz := noteFreqHz (takeA r) |})
     \/ (changedKnob r = "decay" /\
         takeB r = {| cutoffHz := cutoffHz (takeA r);
                      resonanceQ := resonanceQ (takeA r);
                      decayMs :=
                        clamp (decayMs (takeA r) * (if ltb u 0.5 then 1.6 else 0.6))
                          SETTINGS.DECAY_MS_MIN SETTINGS.DECAY_MS_MAX;
                      noteFreqHz := noteFreqHz (takeA r) |})).
Proof.
  intros (Hin & _ & _ & n & Hp). exists (rnd n). split; [apply rnd_range |].
  unfold knob_ids in Hin. simpl in Hin.
  repeat (apply elem_of_cons in Hin; destruct Hin as [Hin | Hin]).
  - left. split; [exact Hin |]. rewrite Hin in Hp.
    rewrite (perturb_cutoff rnd rnd_range) in Hp. congruence.
  - right; left. split; [exact Hin |]. rewrite Hin in Hp.
    rewrite perturb_resonance in Hp. congruence.
  - right; right. split; [exact Hin |]. rewrite Hin in Hp.
    rewrite (perturb_decay rnd rnd_range) in Hp. congruence.
  - apply elem_of_nil in Hin. contradiction.
Qed.

Lemma generateRounds_inv (n n' : nat) (rounds : list round) :
  generateRounds rnd n = (Ok rounds, n') ->
  n' = (n + 60)%nat
  /\ length rounds = SETTINGS.ROUNDS_PER_GAME
  /\ Forall (generated_round rnd) rounds
  /\ exists extra, extra ∈ KNOBS
                   /\ map changedKnob rounds ≡ₚ knobBag0 ++ [id extra].
Proof.
  intros H.
  destruct (generateRounds_spec rnd rnd_range n)
    as (extra & bag & rounds' & _ & He & _ & Hperm & Hg & Hm & Hi & Hf).
  rewrite Hg in H. injection H as <- <-.
  repeat split; try assumption.
  - rewrite <- (length_map index), Hi. apply length_seq.
  - exists extra. split; [exact He |]. rewrite Hm. exact Hperm.
Qed.

Lemma generateRounds_total (n : nat) :
  exists rounds, generateRounds rnd n = (Ok rounds, (n + 60)%nat).
Proof.
  destruct (generateRounds_spec rnd rnd_range n)
    as (extra & bag & rounds & _ & _ & _ & _ & Hg & _).
  exists rounds. exact Hg.
Qed.

End GeneratedBatches.

(** ** Which generated rounds have a single difference *)

Lemma differs_iff (x y : Q) :
  differs x y <-> PARAM_EPS < x - y \/ PARAM_EPS < y - x.
Proof.
  unfold differs. split.
  - intros H. destruct (Qlt_le_dec PARAM_EPS (x - y)) as [H1 | H1]; [left; exact H1 |].
    destruct (Qlt_le_dec PARAM_EPS (y - x)) as [H2 | H2]; [right; exact H2 |].
    exfalso. apply (Qlt_not_le _ _ H). apply Qabs_Qle_condition. split; lra.
  - intros H. apply Qnot_le_lt. intros Hle. apply Qabs_Qle_condition in Hle.
    destruct H; lra.
Qed.

Lemma not_differs_same (x : Q) : ~ differs x x.
Proof. rewrite differs_iff. unfold PARAM_EPS. intros [H | H]; lra. Qed.

Section SingleDifference.

Context {ML : MathLib}.
Variable rnd : nat -> Q.
Hypothesis rnd_range : forall k, 0 <= rnd k < 1.

(** A generated round has the same pitch in both takes, and it has a single
    difference unless the knob is "resonance" and the first take's resonance
    is within the tolerance of the lower clamp bound, in which case the
    downward change is absorbed by the clamp and no field differs. *)
Lemma generated_round_difference (r : round) :
  generated_round rnd r ->
  noteFreqHz (takeA r) = noteFreqHz (takeB r)
  /\ (single_difference r
      \/ (changedKnob r = "resonance"
          /\ resonanceQ (takeA r) <= SETTINGS.RESONANCE_Q_MIN + PARAM_EPS
          /\ ~ differs (cutoffHz (takeA r)) (cutoffHz (takeB r))
          /\ ~ differs (resonanceQ (takeA r)) (resonanceQ (takeB r))
          /\ ~ differs (decayMs (takeA r)) (decayMs (takeB r)))).
Proof.
  intros Hr. pose proof Hr as (Hin & (Hc & Hq & Hd & _) & _).
  unfold SETTINGS.CUTOFF_BASE_HZ_MIN, SETTINGS.RESONANCE_BASE_Q_MIN,
    SETTINGS.RESONANCE_BASE_Q_MAX, SETTINGS.DECAY_BASE_MS_MIN,
    SETTINGS.DECAY_BASE_MS_MAX in *.
  destruct (generated_round_cases rnd rnd_range r Hr)
    as (u & _ & [[Hk Hb] | [[Hk Hb] | [Hk Hb]]]); rewrite Hb;
    cbn [cutoffHz resonanceQ decayMs noteFreqHz]; (split; [reflexivity |]).
  - (* cutoff *)
    left. unfold single_difference. rewrite Hb, Hk.
    cbn [cutoffHz resonanceQ decayMs]. split; [rewrite <- Hk; exact Hin |].
    split; [| split].
    + split; [reflexivity | intros _].
      apply differs_iff. unfold PARAM_EPS.
      destruct (ltb u 0.5); [right | left]; lra.
    + split; [intros H; exfalso; exact (not_differs_same _ H) | discriminate].
    + split; [intros H; exfalso; exact (not_differs_same _ H) | discriminate].
  - (* resonance *)
    unfold SETTINGS.RESONANCE_CHANGE_DELTA_Q, SETTINGS.RESONANCE_Q_MIN,
      SETTINGS.RESONANCE_Q_MAX.
    set (q := resonanceQ (takeA r)) in *.
    assert (Hcases :
      differs q (clamp (q + (if ltb u 0.5 then -1 else 1) * 2.0) 0.5 12.0)
      \/ (q <= 0.5 + PARAM_EPS
          /\ ~ differs q (clamp (q + (if ltb u 0.5 then -1 else 1) * 2.0) 0.5 12.0))).
    { destruct (ltb u 0.5).
      - destruct (Qlt_le_dec (q + -1 * 2.0) 0.5) as [Hlow | Hhigh].
        + pose proof (clamp_below (q + -1 * 2.0) 0.5 12.0 ltac:(lra) ltac:(lra)) as E.
          destruct (Qlt_le_dec (0.5 + PARAM_EPS) q) as [Hfar | Hnear].
          * left. apply differs_iff. left. lra.
          * right. split; [exact Hnear |]. rewrite differs_iff.
            unfold PARAM_EPS in *. intros [H | H]; lra.
        + pose proof (clamp_inside (q + -1 * 2.0) 0.5 12.0 ltac:(lra)) as E.
          left. apply differs_iff. left. unfold PARAM_EPS. lra.
      - pose proof (clamp_inside (q + 1 * 2.0) 0.5 12.0 ltac:(lra)) as E.
        left. apply differs_iff. right. unfold PARAM_EPS. lra. }
    destruct Hcases as [Hdiff | [Hnear Hsame]].
    + left. unfold single_difference. rewrite Hb, Hk.
      cbn [cutoffHz resonanceQ decayMs]. split; [rewrite <- Hk; exact Hin |].
      split; [| split].
      * split; [intros H; exfalso; exact (not_differs_same _ H) | discriminate].
      * split; [reflexivity | intros _; exact Hdiff].
      * split; [intros H; exfalso; exact (not_differs_same _ H) | discriminate].
    + right. repeat split; try assumption; apply not_differs_same.
  - (* decay *)
    left. unfold single_difference. rewrite Hb, Hk.
    cbn [cutoffHz resonanceQ decayMs]. split; [rewrite <- Hk; exact Hin |].
    unfold SETTINGS.DECAY_MS_MIN, SETTINGS.DECAY_MS_MAX.
    set (d := decayMs (takeA r)) in *.
    split; [| split].
    + split; [intros H; exfalso; exact (not_differs_same _ H) | discriminate].
    + split; [intros H; exfalso; exact (not_differs_same _ H) | discriminate].
    + split; [reflexivity | intros _].
      apply differs_iff. unfold PARAM_EPS.
      destruct (ltb u 0.5).
      * pose proof (clamp_inside (d * 1.6) 80 2000 ltac:(lra)) as E. right. lra.
      * destruct (Qlt_le_dec (d * 0.6) 80) as [Hlow | Hhigh].
        -- pose proof (clamp_below (d * 0.6) 80 2000 ltac:(lra) ltac:(lra)) as E.
           left. lra.
        -- pose proof (clamp_inside (d * 0.6) 80 2000 ltac:(lra)) as E. left. lra.
Qed.

End SingleDifference.

(** * Theorems about the generator *)

(** C10: in every batch of the generator, for every outcome of the draws, the
    note pitch of a round is one of the five frequencies 98.0, 110.0, 130.81,
    146.83 and 164.81, and the two takes hold the very same value. *)
Theorem noteFreq_shared_from_set {ML : MathLib} (rnd : nat -> Q)
    (rnd_range : forall k, 0 <= rnd k < 1) (n : nat) :
  exists rounds,
    generateRounds rnd n = (Ok rounds, (n + 60)%nat)
    /\ Forall (fun r => noteFreqHz (takeA r) ∈ [98.0; 110.0; 130.81; 146.83; 164.81]
                        /\ noteFreqHz (takeB r) = noteFreqHz (takeA r)) rounds.
Proof.
  destruct (generateRounds_total rnd rnd_range n) as [rounds Hg].
  exists rounds. split; [exact Hg |].
  destruct (generateRounds_inv rnd rnd_range _ _ _ Hg) as (_ & _ & Hf & _).
  eapply Forall_impl; [exact Hf |]. intros r Hr. split.
  - destruct Hr as (_ & (_ & _ & _ & Hfreq) & _). exact Hfreq.
  - destruct (generated_round_cases rnd rnd_range r Hr)
      as (u & _ & [[_ ->] | [[_ ->] | [_ ->]]]); reflexivity.
Qed.

Lemma noteFreq_shared_from_set_witness :
  (forall k, 0 <= cyclic_draws 11 7 3 k < 1)
  /\ exists rounds,
       generateRounds (cyclic_draws 11 7 3) 0%nat = (Ok rounds, 60%nat)
       /\ Forall (fun r => noteFreqHz (takeA r) ∈ [98.0; 110.0; 130.81; 146.83; 164.81]
                           /\ noteFreqHz (takeB r) = noteFreqHz (takeA r)) rounds.
Proof.
  split; [apply cyclic_draws_range |].
  exact (noteFreq_shared_from_set (cyclic_draws 11 7 3) (cyclic_draws_range 11 7 3) 0%nat).
Defined.



(** C7: the cutoff change multiplies the base value by 2.6 or by 0.38 and
    does not clamp the product; the multiplier is 2.6 on the lower half of the
    draw's range and 0.38 on the upper half.  This holds for the loop body run
    with the knob "cutoff", and for every round of a batch whose knob is
    "cutoff".  With base cutoff 500 and the multiplier 2.6 the second take has
    cutoff 1300 and its other fields are those of the first take. *)
Theorem cutoff_change_unclamped {ML : MathLib} (rnd : nat -> Q)
    (rnd_range : forall k, 0 <= rnd k < 1) :
  (forall (i n : nat),
     exists a,
       generateRound rnd i (Some "cutoff") n =
         (Ok {| index := i; changedKnob := "cutoff"; takeA := a;
                takeB := {| cutoffHz :=
                              cutoffHz a * (if ltb (rnd (n + 4)%nat) 0.5 then 2.6 else 0.38);
                            resonanceQ := resonanceQ a;
                            decayMs := decayMs a;
                            noteFreqHz := noteFreqHz a |};
                answerOrder := None |},
          (n + 5)%nat))
  /\ (forall (n n' : nat) (rounds : list round) (r : round),
        generateRounds rnd n = (Ok rounds, n') -> r ∈ rounds ->
        changedKnob r = "cutoff" ->
        exists m, m ∈ [2.6; 0.38]
                  /\ takeB r = {| cutoffHz := cutoffHz (takeA r) * m;
                                  resonanceQ := resonanceQ (takeA r);
                                  decayMs := decayMs (takeA r);
                                  noteFreqHz := noteFreqHz (takeA r) |})
  /\ (forall (a : params) (n : nat),
        cutoffHz a == 500 -> rnd n < 0.5 ->
        exists b,
          perturb rnd (Some "cutoff") a a n = (Ok b, S n)
          /\ cutoffHz b == 1300
          /\ resonanceQ b = resonanceQ a
          /\ decayMs b = decayMs a
          /\ noteFreqHz b = noteFreqHz a).
Proof.
  split; [| split].
  - intros i n.
    destruct (generateRound_spec rnd rnd_range i "cutoff" n) as (a & b & Hg & _ & Hp).
    { unfold knob_ids. simpl. repeat constructor. }
    pose proof (perturb_cutoff rnd rnd_range a a (n + 4)) as E.
    rewrite E in Hp. injection Hp as <-.
    exists a. exact Hg.
  - intros n n' rounds r Hg Hin Hk.
    destruct (generateRounds_inv rnd rnd_range _ _ _ Hg) as (_ & _ & Hf & _).
    rewrite Forall_forall in Hf. specialize (Hf r Hin).
    destruct (generated_round_cases rnd rnd_range r Hf)
      as (u & _ & [[_ Hb] | [[Hk' _] | [Hk' _]]]); try congruence.
    exists (if ltb u 0.5 then 2.6 else 0.38). split; [| exact Hb].
    destruct (ltb u 0.5); repeat constructor.
  - intros a n Ha Hu. rewrite (perturb_cutoff rnd rnd_range).
    eexists. split; [reflexivity |]. cbn [cutoffHz resonanceQ decayMs noteFreqHz].
    apply ltb_lt in Hu. rewrite Hu, Ha. repeat split; reflexivity.
Qed.

Lemma cutoff_change_unclamped_witness :
  (forall k, 0 <= cyclic_draws 11 7 3 k < 1)
  /\ (500 == 500 -> cyclic_draws 11 7 3 1 < 0.5 ->
      exists b,
        perturb (cyclic_draws 11 7 3) (Some "cutoff")
          {| cutoffHz := 500; resonanceQ := 4; decayMs := 300; noteFreqHz := 110.0 |}
          {| cutoffHz := 500; resonanceQ := 4; decayMs := 300; noteFreqHz := 110.0 |} 1%nat
        = (Ok b, 2%nat)
        /\ cutoffHz b == 1300
        /\ resonanceQ b = 4
        /\ decayMs b = 300
        /\ noteFreqHz b = 110.0)
  /\ (exists r,
        returned (generateRounds (cyclic_draws 11 7 3) 0%nat) !! 4%nat = Some r
        /\ changedKnob r = "cutoff"
        /\ exists m, m ∈ [2.6; 0.38]
                     /\ takeB r = {| cutoffHz := cutoffHz (takeA r) * m;
                                     resonanceQ := resonanceQ (takeA r);
                                     decayMs := decayMs (takeA r);
                                     noteFreqHz := noteFreqHz (takeA r) |}).
Proof.
  split; [apply cyclic_draws_range |].
  split.
  - exact (proj2 (proj2 (cutoff_change_unclamped (cyclic_draws 11 7 3)
                           (cyclic_draws_range 11 7 3)))
             {| cutoffHz := 500; resonanceQ := 4; decayMs := 300; noteFreqHz := 110.0 |}
             1%nat).
  - assert (G : generateRounds (cyclic_draws 11 7 3) 0%nat
                = (Ok (returned (generateRounds (cyclic_draws 11 7 3) 0%nat)), 60%nat))
      by (vm_compute; reflexivity).
    assert (K : changedKnob <$> returned (generateRounds (cyclic_draws 11 7 3) 0%nat) !! 4%nat
                = Some "cutoff") by (vm_compute; reflexivity).
    destruct (returned (generateRounds (cyclic_draws 11 7 3) 0%nat) !! 4%nat)
      as [r |] eqn:E; [| discriminate K].
    injection K as K. exists r. split; [reflexivity |]. split; [exact K |].
    exact (proj1 (proj2 (cutoff_change_unclamped (cyclic_draws 11 7 3)
                           (cyclic_draws_range 11 7 3)))
             0%nat 60%nat _ r G (proj2 (list_elem_of_lookup _ r) (ex_intro _ 4%nat E)) K).
Defined.



(** ** The retry loop *)

Section Retry.

Context {ML : MathLib}.
Variable rnd : nat -> Q.
Hypothesis rnd_range : forall k, 0 <= rnd k < 1.

(** The candidate generated from draw [m] on fails validation. *)
Definition rejected (m : nat) : Prop :=
  exists c, generateRounds rnd m = (Ok c, (m + 60)%nat) /\ ok (validateRounds c) = false.

(** The candidate generated from draw [m] on is [batch] and passes
    validation. *)
Definition accepted (m : nat) (batch : list round) : Prop :=
  generateRounds rnd m = (Ok batch, (m + 60)%nat) /\ ok (validateRounds batch) = true.

Lemma attempts_S (k n : nat) :
  attempts rnd (S k) n =
  match generateRounds rnd n with
  | (Ok c, n') => if ok (validateRounds c) then (Ok c, n') else attempts rnd k n'
  | (Throw e, n') => (Throw e, n')
  | (OutOfModel, n') => (OutOfModel, n')
  end.
Proof.
  cbn [attempts]. unfold bind. destruct (generateRounds rnd n) as [[c | e |] n'];
    try reflexivity.
  destruct (ok (validateRounds c)); reflexivity.
Qed.

Lemma attempts_spec (k : nat) :
  forall n,
    (exists j batch,
        (j < k)%nat
        /\ attempts rnd k n = (Ok batch, (n + 60 * (j + 1))%nat)
        /\ accepted (n + 60 * j) batch
        /\ forall i, (i < j)%nat -> rejected (n + 60 * i))
    \/ (attempts rnd k n = (Throw FailedToGenerate, (n + 60 * k)%nat)
        /\ forall i, (i < k)%nat -> rejected (n + 60 * i)).
Proof.
  induction k as [| k IH]; intros n.
  - right. split; [| intros i Hi; lia].
    unfold attempts, throw. f_equal; lia.
  - destruct (generateRounds_total rnd rnd_range n) as [c Hc].
    rewrite attempts_S, Hc.
    destruct (ok (validateRounds c)) eqn:Hv.
    + left. exists 0%nat, c. split; [lia |]. split; [| split].
      * f_equal; lia.
      * split; [| exact Hv]. replace (n + 60 * 0)%nat with n by lia. exact Hc.
      * intros i Hi. lia.
    + assert (Hrej : rejected n) by (exists c; split; assumption).
      destruct (IH (n + 60)%nat) as [(j & batch & Hj & Ha & Hacc & Hprev) | [Ht Hall]].
      * left. exists (S j), batch. split; [lia |]. split; [| split].
        -- rewrite Ha. f_equal; lia.
        -- replace (n + 60 * S j)%nat with (n + 60 + 60 * j)%nat by lia. exact Hacc.
        -- intros i Hi. destruct i as [| i].
           ++ replace (n + 60 * 0)%nat with n by lia. exact Hrej.
           ++ replace (n + 60 * S i)%nat with (n + 60 + 60 * i)%nat by lia.
              apply Hprev. lia.
      * right. split.
        -- rewrite Ht. f_equal; lia.
        -- intros i Hi. destruct i as [| i].
           ++ replace (n + 60 * 0)%nat with n by lia. exact Hrej.
           ++ replace (n + 60 * S i)%nat with (n + 60 + 60 * i)%nat by lia.
              apply Hall. lia.
Qed.


End Retry.

(** C9: building a game validates each candidate batch and generates a new
    one when validation fails, for at most 50 candidates.  Either one of the
    first 50 candidates passes validation, every earlier one having failed,
    and that candidate is the batch returned: the validator reports no error
    for it, so it has the full number of rounds, every round has the same
    pitch in both takes and a single difference, and every knob occurs at
    least three times.  Or all 50 candidates fail and the error "Failed to
    generate valid rounds." is thrown.  No other outcome exists. *)
Theorem buildNewRounds_retries {ML : MathLib} (rnd : nat -> Q)
    (rnd_range : forall k, 0 <= rnd k < 1) (n : nat) :
  (exists j batch,
      (j < 50)%nat
      /\ buildNewRounds rnd n = (Ok batch, (n + 60 * (j + 1))%nat)
      /\ generateRounds rnd (n + 60 * j)%nat = (Ok batch, (n + 60 * j + 60)%nat)
      /\ ok (validateRounds batch) = true
      /\ errors (validateRounds batch) = []
      /\ length batch = SETTINGS.ROUNDS_PER_GAME
      /\ Forall (fun r => nearEqual (noteFreqHz (takeA r)) (noteFreqHz (takeB r)) = true
                          /\ single_difference r) batch
      /\ Forall (fun k => (3 <= occurrences (id k) (map changedKnob batch))%nat) KNOBS
      /\ forall i, (i < j)%nat ->
           exists c, generateRounds rnd (n + 60 * i)%nat = (Ok c, (n + 60 * i + 60)%nat)
                     /\ ok (validateRounds c) = false)
  \/ (buildNewRounds rnd n = (Throw FailedToGenerate, (n + 60 * 50)%nat)
      /\ forall i, (i < 50)%nat ->
           exists c, generateRounds rnd (n + 60 * i)%nat = (Ok c, (n + 60 * i + 60)%nat)
                     /\ ok (validateRounds c) = false).
Proof.
  destruct (attempts_spec rnd rnd_range 50 n)
    as [(j & batch & Hj & Ha & [Hg Hv] & Hprev) | [Ht Hall]].
  - left. exists j, batch.
    pose proof (proj1 (validateRounds_ok batch) Hv) as (Hlen & Hone & Hcount).
    split; [exact Hj |]. split; [exact Ha |]. split; [exact Hg |].
    split; [exact Hv |]. split; [| repeat split; assumption].
    clear - Hv. unfold validateRounds in *.
    destruct (fold_left validate_step batch _) as [e c]. cbn [ok errors] in *.
    apply Nat.eqb_eq, length_zero_iff_nil in Hv. exact Hv.
  - right. split; assumption.
Qed.

Lemma buildNewRounds_retries_witness :
  (forall k, 0 <= cyclic_draws 7 3 2 k < 1)
  /\ ((exists j batch,
         (j < 50)%nat
         /\ buildNewRounds (cyclic_draws 7 3 2) 0%nat = (Ok batch, (0 + 60 * (j + 1))%nat)
         /\ generateRounds (cyclic_draws 7 3 2) (0 + 60 * j)%nat
            = (Ok batch, (0 + 60 * j + 60)%nat)
         /\ ok (validateRounds batch) = true
         /\ errors (validateRounds batch) = []
         /\ length batch = SETTINGS.ROUNDS_PER_GAME
         /\ Forall (fun r => nearEqual (noteFreqHz (takeA r)) (noteFreqHz (takeB r)) = true
                             /\ single_difference r) batch
         /\ Forall (fun k => (3 <= occurrences (id k) (map changedKnob batch))%nat) KNOBS
         /\ forall i, (i < j)%nat ->
              exists c, generateRounds (cyclic_draws 7 3 2) (0 + 60 * i)%nat
                        = (Ok c, (0 + 60 * i + 60)%nat)
                        /\ ok (validateRounds c) = false)
      \/ (buildNewRounds (cyclic_draws 7 3 2) 0%nat
          = (Throw FailedToGenerate, (0 + 60 * 50)%nat)
          /\ forall i, (i < 50)%nat ->
               exists c, generateRounds (cyclic_draws 7 3 2) (0 + 60 * i)%nat
                         = (Ok c, (0 + 60 * i + 60)%nat)
                         /\ ok (validateRounds c) = false)).
Proof.
  split; [apply cyclic_draws_range |].
  exact (buildNewRounds_retries (cyclic_draws 7 3 2) (cyclic_draws_range 7 3 2) 0%nat).
Defined.

(** The three ways the retry loop ends: on the first candidate, on a later
    one, and with the error after the fiftieth. *)
Example buildNewRounds_first_try :
  snd (buildNewRounds (cyclic_draws 11 7 3) 0%nat) = 60%nat
  /\ ok (validateRounds (returned (buildNewRounds (cyclic_draws 11 7 3) 0%nat))) = true.
Proof. vm_compute. split; reflexivity. Qed.

Example buildNewRounds_third_try :
  snd (buildNewRounds (cyclic_draws 7 3 2) 0%nat) = 180%nat
  /\ ok (validateRounds (returned (generateRounds (cyclic_draws 7 3 2) 0%nat))) = false
  /\ ok (validateRounds (returned (generateRounds (cyclic_draws 7 3 2) 60%nat))) = false
  /\ returned (buildNewRounds (cyclic_draws 7 3 2) 0%nat)
     = returned (generateRounds (cyclic_draws 7 3 2) 120%nat)
  /\ ok (validateRounds (returned (buildNewRounds (cyclic_draws 7 3 2) 0%nat))) = true.
Proof. vm_compute. repeat split; reflexivity. Qed.

Example buildNewRounds_exhausted :
  buildNewRounds (fun _ => 0) 0%nat = (Throw FailedToGenerate, 3000%nat).
Proof. vm_compute. reflexivity. Qed.

(** ** The single difference *)




(** * Theorems about note timing *)

(** C4: the oscillator of a voice stops at the later of 10 ms after the note
    start and the earlier of the hard stop time and the natural end of the
    envelope (start + attack + decay + release, with attack 0.005 s, release
    0.05 s and the decay in seconds); so it never stops earlier than 10 ms
    after the start, wherever the hard stop lies; a voice with a decay of
    120000 ms whose hard stop is 50 ms after its start stops at start + 0.05;
    and the same holds for each voice of a take. *)
Theorem voice_stop_time (p : params) (noteStartTime hardStopTime : Q) :
  let attack := 0.005 in
  let release := 0.05 in
  let decay := decayMs p / 1000 in
  let v := scheduleVoice p noteStartTime hardStopTime in
  osc_start v = noteStartTime
  /\ osc_stop v ==
       Qmax (noteStartTime + 0.01)
            (Qmin hardStopTime (noteStartTime + attack + decay + release))
  /\ noteStartTime + 0.01 <= osc_stop v
  /\ (decayMs p == 120000 -> hardStopTime == noteStartTime + 0.05 ->
      osc_stop v == noteStartTime + 0.05)
  /\ (forall when, Forall (fun v' => osc_start v' + 0.01 <= osc_stop v')
                     (take_voices p when)).
Proof.
  intros attack release decay v.
  assert (Hfloor : forall (q : params) (s h : Q),
             s + 0.01 <= osc_stop (scheduleVoice q s h)).
  { intros q s h. cbn [scheduleVoice osc_stop].
    destruct (Math_max_cases (s + 0.01)
                (Math_min (s + SETTINGS.AMP_ATTACK_SECONDS + msToSec (decayMs q)
                           + SETTINGS.AMP_RELEASE_SECONDS) h))
      as [[H E] | [H E]]; rewrite E; lra. }
  split; [reflexivity |]. split; [| split; [apply Hfloor | split]].
  - subst v. cbn [scheduleVoice osc_stop].
    unfold Math_max, Math_min, msToSec, SETTINGS.AMP_ATTACK_SECONDS,
      SETTINGS.AMP_RELEASE_SECONDS. fold attack release decay.
    rewrite (Q.min_comm hardStopTime). reflexivity.
  - intros Hd Hh. subst v. cbn [scheduleVoice osc_stop].
    unfold msToSec, SETTINGS.AMP_ATTACK_SECONDS, SETTINGS.AMP_RELEASE_SECONDS.
    set (natural := noteStartTime + 0.005 + decayMs p / 1000 + 0.05).
    assert (Hn : natural == noteStartTime + 120.055).
    { unfold natural. rewrite Hd. field. }
    destruct (Math_min_cases natural hardStopTime) as [[H1 E1] | [H1 E1]];
      destruct (Math_max_cases (noteStartTime + 0.01) (Math_min natural hardStopTime))
        as [[H2 E2] | [H2 E2]]; rewrite E2; rewrite ?E1; rewrite E1 in H2; lra.
  - intros when. unfold take_voices. apply Forall_map, Forall_forall.
    intros t _. cbn [osc_start scheduleVoice]. apply Hfloor.
Qed.

Lemma voice_stop_time_witness :
  120000 == 120000 /\ 1.05 == 1 + 0.05
  /\ osc_stop (scheduleVoice
                 {| cutoffHz := 500; resonanceQ := 4; decayMs := 120000; noteFreqHz := 110.0 |}
                 1 1.05) == 1 + 0.05.
Proof.
  split; [reflexivity |]. split; [reflexivity |].
  exact (proj1 (proj2 (proj2 (proj2
           (voice_stop_time
              {| cutoffHz := 500; resonanceQ := 4; decayMs := 120000; noteFreqHz := 110.0 |}
              1 1.05))))
           ltac:(reflexivity) ltac:(reflexivity)).
Defined.

(** * The playback state machine: invariants *)

(** ** Timers of [scheduleUi] *)

(** Every pending [scheduleUi] timer is listed in [state.phaseTimers]. *)
Definition tracked (w : world) : Prop :=
  forall t token fn d, timers w !! t = Some (CbUi token fn, d) -> t ∈ phaseTimers w.

(** Every pending [scheduleUi] timer carries the current token, and none is
    pending once the round is answered. *)
Definition current (w : world) : Prop :=
  forall t token fn d,
    timers w !! t = Some (CbUi token fn, d) ->
    token = playbackToken w /\ answered w = false.

(** No [scheduleUi] timer is pending. *)
Definition no_ui (w : world) : Prop :=
  forall t token fn d, timers w !! t <> Some (CbUi token fn, d).

Lemma no_ui_tracked (w : world) : no_ui w -> tracked w.
Proof. intros H t token fn d Ht. exfalso. exact (H _ _ _ _ Ht). Qed.

Lemma no_ui_current (w : world) : no_ui w -> current w.
Proof. intros H t token fn d Ht. exfalso. exact (H _ _ _ _ Ht). Qed.

(** The fields that the scheduling theorems read. *)
Definition same_session (w w' : world) : Prop :=
  playbackToken w' = playbackToken w
  /\ answered w' = answered w
  /\ loopNextAt w' = loopNextAt w
  /\ cycles w' = cycles w
  /\ phaseCalls w' = phaseCalls w.

Lemma same_session_refl (w : world) : same_session w w.
Proof. repeat split. Qed.

Lemma same_session_trans (w1 w2 w3 : world) :
  same_session w1 w2 -> same_session w2 w3 -> same_session w1 w3.
Proof.
  intros (A1 & A2 & A3 & A4 & A5) (B1 & B2 & B3 & B4 & B5).
  repeat split; congruence.
Qed.

Lemma world_eta (w : world) : set_timers (timers w) w = w.
Proof. destruct w; reflexivity. Qed.

Lemma clear_all_timers (l : list nat) :
  forall w,
    fold_left (fun w t => clearTimeout t w) l w
    = set_timers (fold_left (fun m t => delete t m) l (timers w)) w.
Proof.
  induction l as [| a l IH]; intros w.
  - simpl. symmetry. apply world_eta.
  - simpl. rewrite IH. reflexivity.
Qed.

Lemma lookup_fold_delete {X : Type} (l : list nat) :
  forall (m : gmap nat X) (k : nat) (x : X),
    fold_left (fun m t => delete t m) l m !! k = Some x ->
    m !! k = Some x /\ k ∉ l.
Proof.
  induction l as [| a l IH]; intros m k x H.
  - split; [exact H | apply not_elem_of_nil].
  - simpl in H. apply IH in H. destruct H as [H Hl].
    apply lookup_delete_Some in H. destruct H as [Hne H].
    split; [exact H |]. intros Hin. apply elem_of_cons in Hin.
    destruct Hin as [-> | Hin]; [congruence | exact (Hl Hin)].
Qed.

Lemma clearPhaseTimers_no_ui (w : world) : tracked w -> no_ui (clearPhaseTimers w).
Proof.
  intros Ht t token fn d H. unfold clearPhaseTimers in H.
  rewrite clear_all_timers in H. cbn [timers set_phaseTimers set_timers] in H.
  apply lookup_fold_delete in H. destruct H as [H Hn].
  apply Hn. exact (Ht _ _ _ _ H).
Qed.

Lemma clearPhaseTimers_session (w : world) : same_session w (clearPhaseTimers w).
Proof.
  unfold clearPhaseTimers. rewrite clear_all_timers. repeat split.
Qed.

Lemma clearTimeout_tracked (t : nat) (w : world) : tracked w -> tracked (clearTimeout t w).
Proof.
  intros Ht k token fn d H. unfold clearTimeout in H. cbn [timers set_timers] in H.
  apply lookup_delete_Some in H. destruct H as [_ H].
  exact (Ht _ _ _ _ H).
Qed.

Lemma clearTimeout_current (t : nat) (w : world) : current w -> current (clearTimeout t w).
Proof.
  intros Hc k token fn d H. unfold clearTimeout in H. cbn [timers set_timers] in H.
  apply lookup_delete_Some in H. destruct H as [_ H].
  exact (Hc _ _ _ _ H).
Qed.

Lemma clearTimers_no_ui (w : world) : tracked w -> no_ui (clearTimers w).
Proof.
  intros Ht. unfold clearTimers. apply clearPhaseTimers_no_ui.
  destruct (moveNextTimer w) as [t |]; [| exact Ht].
  destruct (Nat.eqb t 0); [exact Ht |].
  intros k token fn d H. exact (clearTimeout_tracked t w Ht _ _ _ _ H).
Qed.

Lemma clearTimers_session (w : world) : same_session w (clearTimers w).
Proof.
  unfold clearTimers.
  eapply same_session_trans; [| apply clearPhaseTimers_session].
  destruct (moveNextTimer w) as [t |]; [| apply same_session_refl].
  destruct (Nat.eqb t 0); [apply same_session_refl | repeat split].
Qed.

(** A timer whose callback is not a [scheduleUi] wrapper. *)
Definition other_cb (cb : callback) : Prop :=
  match cb with
  | CbUi _ _ => False
  | _ => True
  end.

Lemma no_ui_insert (cb : callback) (d : Q) (t : nat) (w : world) :
  other_cb cb -> no_ui w -> no_ui (set_timers (<[t := (cb, d)]> (timers w)) w).
Proof.
  intros Hcb Hn k token fn d' H. cbn in H.
  apply lookup_insert_Some in H. destruct H as [[_ H] | [_ H]].
  - injection H as -> _. exact Hcb.
  - exact (Hn _ _ _ _ H).
Qed.

Lemma setTimeout_no_ui (cb : callback) (d : Q) (w : world) :
  other_cb cb -> no_ui w -> no_ui (snd (setTimeout cb d w)).
Proof.
  intros Hcb Hn t token fn d' H. cbn in H.
  apply lookup_insert_Some in H. destruct H as [[_ H] | [_ H]].
  - injection H as -> _. exact Hcb.
  - exact (Hn _ _ _ _ H).
Qed.

Lemma setTimeout_tracked (cb : callback) (d : Q) (w : world) :
  other_cb cb -> tracked w -> tracked (snd (setTimeout cb d w)).
Proof.
  intros Hcb Ht t token fn d' H. cbn in H.
  apply lookup_insert_Some in H. destruct H as [[_ H] | [_ H]].
  - injection H as -> _. destruct Hcb.
  - exact (Ht _ _ _ _ H).
Qed.

Lemma setTimeout_current (cb : callback) (d : Q) (w : world) :
  other_cb cb -> current w -> current (snd (setTimeout cb d w)).
Proof.
  intros Hcb Hc t token fn d' H. cbn in H.
  apply lookup_insert_Some in H. destruct H as [[_ H] | [_ H]].
  - injection H as -> _. destruct Hcb.
  - exact (Hc _ _ _ _ H).
Qed.

Lemma setTimeout_session (cb : callback) (d : Q) (w : world) :
  same_session w (snd (setTimeout cb d w)).
Proof. repeat split. Qed.

Lemma stopRoundAudio_no_ui (now : Q) (w : world) : no_ui w -> no_ui (stopRoundAudio now w).
Proof.
  intros Hn. unfold stopRoundAudio. destruct (roundOutput w); [| exact Hn].
  apply setTimeout_no_ui; [exact I | exact Hn].
Qed.

Lemma stopRoundAudio_session (now : Q) (w : world) : same_session w (stopRoundAudio now w).
Proof.
  unfold stopRoundAudio. destruct (roundOutput w); repeat split.
Qed.

Lemma scheduleUi_tracked (token : nat) (d : Q) (fn : ui_fn) (w : world) :
  tracked w -> tracked (scheduleUi token d fn w).
Proof.
  intros Ht t token' fn' d' H. cbn in H. cbn [phaseTimers scheduleUi setTimeout
    set_phaseTimers set_nextTimer set_timers].
  apply elem_of_app.
  apply lookup_insert_Some in H. destruct H as [[<- _] | [_ H]].
  - right. apply list_elem_of_singleton. reflexivity.
  - left. exact (Ht _ _ _ _ H).
Qed.

Lemma scheduleUi_current (token : nat) (d : Q) (fn : ui_fn) (w : world) :
  token = playbackToken w -> answered w = false ->
  current w -> current (scheduleUi token d fn w).
Proof.
  intros Htok Hans Hc t token' fn' d' H. cbn in H. cbn.
  apply lookup_insert_Some in H. destruct H as [[_ H] | [_ H]].
  - injection H as <- _ _. split; assumption.
  - exact (Hc _ _ _ _ H).
Qed.

Lemma scheduleUi_session (token : nat) (d : Q) (fn : ui_fn) (w : world) :
  same_session w (scheduleUi token d fn w).
Proof. repeat split. Qed.

(** ** One cycle of the loop *)

(** The times of a round that starts at [when]. *)
Definition round_times (when : Q) : times :=
  {| aStart := when;
     aEnd := when + SETTINGS.TAKE_SECONDS;
     bStart := when + SETTINGS.TAKE_SECONDS + SETTINGS.SILENCE_GAP_SECONDS;
     bEnd := when + SETTINGS.TAKE_SECONDS + SETTINGS.SILENCE_GAP_SECONDS
             + SETTINGS.TAKE_SECONDS;
     endAt := when + SETTINGS.TAKE_SECONDS + SETTINGS.SILENCE_GAP_SECONDS
              + SETTINGS.TAKE_SECONDS |}.

(** Where [scheduleNextLoopCycle] starts the cycle that it schedules. *)
Definition cycle_start (now : Q) (w : world) : Q :=
  if ltb (loopNextAt w) (now + 0.005) then now + 0.005 else loopNextAt w.

(** The world after [scheduleNextLoopCycle] has passed its three guards and
    found the round. *)
Definition loop_cycle (token : nat) (now : Q) (r : round) (w : world) : world :=
  let t := round_times (cycle_start now w) in
  let w := snd (playRound now r (cycle_start now w) w) in
  let w := set_cycles ((token, t) :: cycles w) w in
  let w := scheduleUi token (aStart t - now) (SetPhase PHASE_A) w in
  let w := scheduleUi token (aEnd t - now) (SetPhase PHASE_GAP) w in
  let w := scheduleUi token (bStart t - now) (SetPhase PHASE_B) w in
  let w := scheduleUi token (endAt t - now) (SetPhase PHASE_GAP) w in
  let w := set_loopNextAt (endAt t + SETTINGS.LOOP_CYCLE_PAUSE_SECONDS) w in
  scheduleUi token (loopNextAt w - SETTINGS.SCHEDULING_LEAD_SECONDS - now)
    (NextLoopCycle token) w.

Lemma playRound_times (now : Q) (r : round) (when : Q) (w : world) :
  fst (playRound now r when w) = round_times when.
Proof. reflexivity. Qed.

Lemma scheduleNextLoopCycle_cases (token : nat) (now : Q) (w : world) :
  (scheduleNextLoopCycle token now w = (Ok tt, w)
   /\ (token <> playbackToken w \/ answered w = true \/ roundOutput w = false))
  \/ (scheduleNextLoopCycle token now w = (Throw TypeErrorUndefined, w)
      /\ rounds w !! currentIndex w = None)
  \/ (exists r,
        token = playbackToken w /\ answered w = false /\ roundOutput w = true
        /\ rounds w !! currentIndex w = Some r
        /\ scheduleNextLoopCycle token now w = (Ok tt, loop_cycle token now r w)).
Proof.
  unfold scheduleNextLoopCycle.
  destruct (Nat.eqb_spec token (playbackToken w)) as [Htok | Htok]; cbn [negb];
    [| left; split; [reflexivity | left; exact Htok]].
  destruct (answered w) eqn:Hans; [left; split; [reflexivity | right; left; reflexivity] |].
  destruct (roundOutput w) eqn:Hout; cbn [negb];
    [| left; split; [reflexivity | right; right; reflexivity]].
  destruct (rounds w !! currentIndex w) as [r |] eqn:Hr;
    [| right; left; split; reflexivity].
  right; right. exists r. repeat split; try assumption.
Qed.

Lemma tracked_ext (w w' : world) :
  timers w' = timers w -> phaseTimers w' = phaseTimers w -> tracked w -> tracked w'.
Proof.
  intros Ht Hp H t token fn d Hl. rewrite Ht in Hl. rewrite Hp. exact (H _ _ _ _ Hl).
Qed.

Lemma current_ext (w w' : world) :
  timers w' = timers w -> playbackToken w' = playbackToken w -> answered w' = answered w ->
  current w -> current w'.
Proof.
  intros Ht Hp Ha H t token fn d Hl. rewrite Ht in Hl. rewrite Hp, Ha.
  exact (H _ _ _ _ Hl).
Qed.

Lemma no_ui_ext (w w' : world) : timers w' = timers w -> no_ui w -> no_ui w'.
Proof. intros Ht H t token fn d Hl. rewrite Ht in Hl. exact (H _ _ _ _ Hl). Qed.

(** Field updates that leave the timers alone keep the invariants. *)
Lemma no_ui_set_rounds (v : list round) (w : world) : no_ui w -> no_ui (set_rounds v w).
Proof. exact (fun H => H). Qed.

Lemma tracked_set_rounds (v : list round) (w : world) : tracked w -> tracked (set_rounds v w).
Proof. exact (fun H => H). Qed.

Lemma current_set_rounds (v : list round) (w : world) : current w -> current (set_rounds v w).
Proof. exact (fun H => H). Qed.

Lemma no_ui_set_currentIndex (v : nat) (w : world) : no_ui w -> no_ui (set_currentIndex v w).
Proof. exact (fun H => H). Qed.

Lemma tracked_set_currentIndex (v : nat) (w : world) : tracked w -> tracked (set_currentIndex v w).
Proof. exact (fun H => H). Qed.

Lemma current_set_currentIndex (v : nat) (w : world) : current w -> current (set_currentIndex v w).
Proof. exact (fun H => H). Qed.

Lemma no_ui_set_answered (v : bool) (w : world) : no_ui w -> no_ui (set_answered v w).
Proof. exact (fun H => H). Qed.

Lemma tracked_set_answered (v : bool) (w : world) : tracked w -> tracked (set_answered v w).
Proof. exact (fun H => H). Qed.

Lemma no_ui_set_playbackToken (v : nat) (w : world) : no_ui w -> no_ui (set_playbackToken v w).
Proof. exact (fun H => H). Qed.

Lemma tracked_set_playbackToken (v : nat) (w : world) : tracked w -> tracked (set_playbackToken v w).
Proof. exact (fun H => H). Qed.

Lemma no_ui_set_moveNextTimer (v : option nat) (w : world) : no_ui w -> no_ui (set_moveNextTimer v w).
Proof. exact (fun H => H). Qed.

Lemma tracked_set_moveNextTimer (v : option nat) (w : world) : tracked w -> tracked (set_moveNextTimer v w).
Proof. exact (fun H => H). Qed.

Lemma current_set_moveNextTimer (v : option nat) (w : world) : current w -> current (set_moveNextTimer v w).
Proof. exact (fun H => H). Qed.

Lemma no_ui_set_phaseTimers (v : list nat) (w : world) : no_ui w -> no_ui (set_phaseTimers v w).
Proof. exact (fun H => H). Qed.

Lemma current_set_phaseTimers (v : list nat) (w : world) : current w -> current (set_phaseTimers v w).
Proof. exact (fun H => H). Qed.

Lemma no_ui_set_roundOutput (v : bool) (w : world) : no_ui w -> no_ui (set_roundOutput v w).
Proof. exact (fun H => H). Qed.

Lemma tracked_set_roundOutput (v : bool) (w : world) : tracked w -> tracked (set_roundOutput v w).
Proof. exact (fun H => H). Qed.

Lemma current_set_roundOutput (v : bool) (w : world) : current w -> current (set_roundOutput v w).
Proof. exact (fun H => H). Qed.

Lemma no_ui_set_loopNextAt (v : Q) (w : world) : no_ui w -> no_ui (set_loopNextAt v w).
Proof. exact (fun H => H). Qed.

Lemma tracked_set_loopNextAt (v : Q) (w : world) : tracked w -> tracked (set_loopNextAt v w).
Proof. exact (fun H => H). Qed.

Lemma current_set_loopNextAt (v : Q) (w : world) : current w -> current (set_loopNextAt v w).
Proof. exact (fun H => H). Qed.

Lemma no_ui_set_nextTimer (v : nat) (w : world) : no_ui w -> no_ui (set_nextTimer v w).
Proof. exact (fun H => H). Qed.

Lemma tracked_set_nextTimer (v : nat) (w : world) : tracked w -> tracked (set_nextTimer v w).
Proof. exact (fun H => H). Qed.

Lemma current_set_nextTimer (v : nat) (w : world) : current w -> current (set_nextTimer v w).
Proof. exact (fun H => H). Qed.

Lemma no_ui_set_buttons (v : list (string * bool)) (w : world) : no_ui w -> no_ui (set_buttons v w).
Proof. exact (fun H => H). Qed.

Lemma tracked_set_buttons (v : list (string * bool)) (w : world) : tracked w -> tracked (set_buttons v w).
Proof. exact (fun H => H). Qed.

Lemma current_set_buttons (v : list (string * bool)) (w : world) : current w -> current (set_buttons v w).
Proof. exact (fun H => H). Qed.

Lemma no_ui_set_shownPhase (v : phase) (w : world) : no_ui w -> no_ui (set_shownPhase v w).
Proof. exact (fun H => H). Qed.

Lemma tracked_set_shownPhase (v : phase) (w : world) : tracked w -> tracked (set_shownPhase v w).
Proof. exact (fun H => H). Qed.

Lemma current_set_shownPhase (v : phase) (w : world) : current w -> current (set_shownPhase v w).
Proof. exact (fun H => H). Qed.

Lemma no_ui_set_rng (v : nat) (w : world) : no_ui w -> no_ui (set_rng v w).
Proof. exact (fun H => H). Qed.

Lemma tracked_set_rng (v : nat) (w : world) : tracked w -> tracked (set_rng v w).
Proof. exact (fun H => H). Qed.

Lemma current_set_rng (v : nat) (w : world) : current w -> current (set_rng v w).
Proof. exact (fun H => H). Qed.

Lemma no_ui_set_cycles (v : list (nat * times)) (w : world) : no_ui w -> no_ui (set_cycles v w).
Proof. exact (fun H => H). Qed.

Lemma tracked_set_cycles (v : list (nat * times)) (w : world) : tracked w -> tracked (set_cycles v w).
Proof. exact (fun H => H). Qed.

Lemma current_set_cycles (v : list (nat * times)) (w : world) : current w -> current (set_cycles v w).
Proof. exact (fun H => H). Qed.

Lemma no_ui_set_phaseCalls (v : list (nat * phase)) (w : world) : no_ui w -> no_ui (set_phaseCalls v w).
Proof. exact (fun H => H). Qed.

Lemma tracked_set_phaseCalls (v : list (nat * phase)) (w : world) : tracked w -> tracked (set_phaseCalls v w).
Proof. exact (fun H => H). Qed.

Lemma current_set_phaseCalls (v : list (nat * phase)) (w : world) : current w -> current (set_phaseCalls v w).
Proof. exact (fun H => H). Qed.

Lemma playRound_tracked (now : Q) (r : round) (when : Q) (w : world) :
  tracked w -> tracked (snd (playRound now r when w)).
Proof.
  intros Ht. unfold playRound, playTake. cbv zeta. cbn [snd].
  apply (setTimeout_tracked CbDisconnect); [exact I |].
  apply (setTimeout_tracked CbDisconnect); [exact I | exact Ht].
Qed.

Lemma playRound_current (now : Q) (r : round) (when : Q) (w : world) :
  current w -> current (snd (playRound now r when w)).
Proof.
  intros Hc. unfold playRound, playTake. cbv zeta. cbn [snd].
  apply (setTimeout_current CbDisconnect); [exact I |].
  apply (setTimeout_current CbDisconnect); [exact I | exact Hc].
Qed.

Lemma playRound_no_ui (now : Q) (r : round) (when : Q) (w : world) :
  no_ui w -> no_ui (snd (playRound now r when w)).
Proof.
  intros Hc. unfold playRound, playTake. cbv zeta. cbn [snd].
  apply (setTimeout_no_ui CbDisconnect); [exact I |].
  apply (setTimeout_no_ui CbDisconnect); [exact I | exact Hc].
Qed.

Lemma playRound_session (now : Q) (r : round) (when : Q) (w : world) :
  same_session w (snd (playRound now r when w)).
Proof. repeat split. Qed.

Lemma loop_cycle_tracked (token : nat) (now : Q) (r : round) (w : world) :
  tracked w -> tracked (loop_cycle token now r w).
Proof.
  intros Ht. unfold loop_cycle. cbv zeta.
  apply scheduleUi_tracked, tracked_set_loopNextAt.
  do 4 apply scheduleUi_tracked. apply tracked_set_cycles.
  apply playRound_tracked, Ht.
Qed.

Lemma loop_cycle_current (token : nat) (now : Q) (r : round) (w : world) :
  token = playbackToken w -> answered w = false ->
  current w -> current (loop_cycle token now r w).
Proof.
  intros Htok Hans Hc. unfold loop_cycle. cbv zeta.
  apply scheduleUi_current; [exact Htok | exact Hans |].
  apply current_set_loopNextAt.
  do 4 (apply scheduleUi_current; [exact Htok | exact Hans |]).
  apply current_set_cycles.
  apply playRound_current, Hc.
Qed.

Lemma loop_cycle_fields (token : nat) (now : Q) (r : round) (w : world) :
  playbackToken (loop_cycle token now r w) = playbackToken w
  /\ answered (loop_cycle token now r w) = answered w
  /\ phaseCalls (loop_cycle token now r w) = phaseCalls w
  /\ cycles (loop_cycle token now r w)
     = (token, round_times (cycle_start now w)) :: cycles w
  /\ loopNextAt (loop_cycle token now r w)
     = endAt (round_times (cycle_start now w)) + SETTINGS.LOOP_CYCLE_PAUSE_SECONDS.
Proof. repeat split. Qed.

(** ** The handlers *)

Section Handlers.

Context {ML : MathLib}.
Variable rnd : nat -> Q.

Lemma first_cycle_start (now : Q) :
  ltb (now + SETTINGS.SCHEDULING_LEAD_SECONDS) (now + 0.005) = false.
Proof.
  apply not_true_iff_false. rewrite ltb_lt.
  unfold SETTINGS.SCHEDULING_LEAD_SECONDS. lra.
Qed.

(** [startRound] leaves no timer of an earlier session, moves to the next
    token, clears the answered flag, and schedules at most one cycle, which
    starts one scheduling lead after [now]. *)
Lemma startRound_spec (index : nat) (now : Q) (w : world) :
  tracked w ->
  let w' := snd (startRound rnd index now w) in
  tracked w' /\ current w'
  /\ playbackToken w' = (playbackToken w + 1)%nat
  /\ answered w' = false
  /\ phaseCalls w' = phaseCalls w
  /\ (cycles w' = cycles w
      \/ (cycles w'
            = ((playbackToken w + 1)%nat,
               round_times (now + SETTINGS.SCHEDULING_LEAD_SECONDS)) :: cycles w
          /\ loopNextAt w'
             = endAt (round_times (now + SETTINGS.SCHEDULING_LEAD_SECONDS))
               + SETTINGS.LOOP_CYCLE_PAUSE_SECONDS)).
Proof.
  intros Ht.
  pose proof (clearTimers_no_ui w Ht) as N1.
  pose proof (clearTimers_session w) as S1.
  pose proof (stopRoundAudio_no_ui now _ N1) as N2.
  pose proof (stopRoundAudio_session now (clearTimers w)) as S2.
  pose proof (same_session_trans _ _ _ S1 S2) as (Et & _ & _ & Ec & Ep).
  clear S1 S2 N1.
  unfold startRound. cbv zeta.
  set (w2 := stopRoundAudio now (clearTimers w)) in *. clearbody w2.
  assert (N3 : no_ui (set_answered false (set_currentIndex index
                        (set_playbackToken (playbackToken w2 + 1) w2)))).
  { apply no_ui_set_answered, no_ui_set_currentIndex, no_ui_set_playbackToken, N2. }
  destruct (shuffle rnd (map id KNOBS) _) as [[order | e |] n] eqn:Hs.
  2, 3: cbn [snd]; split; [apply tracked_set_rng, no_ui_tracked, N3 |];
        (split; [apply current_set_rng, no_ui_current, N3 |]);
        cbn; rewrite Et, Ec, Ep; repeat split; left; reflexivity.
  match goal with
  | |- context [match ?l !! index with _ => _ end] => destruct (l !! index) as [r |] eqn:Hr
  end.
  2: cbn [snd]; split; [apply tracked_set_rng, no_ui_tracked, N3 |];
     (split; [apply current_set_rng, no_ui_current, N3 |]);
     cbn; rewrite Et, Ec, Ep; repeat split; left; reflexivity.
  match goal with
  | |- context [scheduleNextLoopCycle ?tok now ?W] =>
      set (token := tok); set (w9 := W);
      assert (N9 : no_ui w9);
      [ unfold w9, setPhase, setOptionsDisabled, renderOptions;
        apply no_ui_set_loopNextAt, no_ui_set_roundOutput, no_ui_set_shownPhase,
          no_ui_set_buttons, no_ui_set_buttons, no_ui_set_rounds, no_ui_set_rng, N3 |];
      assert (F9 : playbackToken w9 = (playbackToken w + 1)%nat
                   /\ answered w9 = false
                   /\ phaseCalls w9 = phaseCalls w
                   /\ cycles w9 = cycles w
                   /\ loopNextAt w9 = now + SETTINGS.SCHEDULING_LEAD_SECONDS
                   /\ token = playbackToken w9);
      [ unfold w9, token; cbn; rewrite Et, Ec, Ep; repeat split |]
  end.
  destruct F9 as (F1 & F2 & F3 & F4 & F5 & F6).
  clearbody w9. clearbody token.
  destruct (scheduleNextLoopCycle_cases token now w9)
    as [[E _] | [[E _] | (r' & _ & _ & _ & _ & E)]]; rewrite E; cbn [snd].
  - split; [apply no_ui_tracked, N9 |]. split; [apply no_ui_current, N9 |].
    repeat split; try assumption. left. exact F4.
  - split; [apply no_ui_tracked, N9 |]. split; [apply no_ui_current, N9 |].
    repeat split; try assumption. left. exact F4.
  - split; [apply loop_cycle_tracked, no_ui_tracked, N9 |].
    split; [apply loop_cycle_current; [exact F6 | exact F2 | apply no_ui_current, N9] |].
    destruct (loop_cycle_fields token now r' w9) as (L1 & L2 & L3 & L4 & L5).
    rewrite L1, L2, L3, L4, L5.
    assert (Hstart : cycle_start now w9 = now + SETTINGS.SCHEDULING_LEAD_SECONDS).
    { unfold cycle_start. rewrite F5, first_cycle_start. reflexivity. }
    rewrite Hstart, F4, F6, F1. repeat split; try assumption. right. split; reflexivity.
Qed.

(** What one handler does to the session: nothing that the scheduling
    theorems read; a phase change run by a timer; a cycle of the running
    loop; a new round, which schedules its first cycle unless the handler
    throws. *)
Inductive effect (w w' : world) : Prop :=
| eff_none :
    playbackToken w' = playbackToken w ->
    (answered w' = answered w \/ answered w' = true) ->
    loopNextAt w' = loopNextAt w ->
    cycles w' = cycles w ->
    phaseCalls w' = phaseCalls w ->
    effect w w'
| eff_phase (p : phase) :
    answered w = false ->
    playbackToken w' = playbackToken w ->
    answered w' = false ->
    loopNextAt w' = loopNextAt w ->
    cycles w' = cycles w ->
    phaseCalls w' = (playbackToken w, p) :: phaseCalls w ->
    effect w w'
| eff_cycle (now : Q) :
    answered w = false ->
    playbackToken w' = playbackToken w ->
    answered w' = false ->
    cycles w' = (playbackToken w, round_times (cycle_start now w)) :: cycles w ->
    loopNextAt w'
      = endAt (round_times (cycle_start now w)) + SETTINGS.LOOP_CYCLE_PAUSE_SECONDS ->
    phaseCalls w' = phaseCalls w ->
    effect w w'
| eff_round (now : Q) :
    playbackToken w' = (playbackToken w + 1)%nat ->
    answered w' = false ->
    phaseCalls w' = phaseCalls w ->
    (cycles w' = cycles w
     \/ (cycles w'
           = ((playbackToken w + 1)%nat,
              round_times (now + SETTINGS.SCHEDULING_LEAD_SECONDS)) :: cycles w
         /\ loopNextAt w'
            = endAt (round_times (now + SETTINGS.SCHEDULING_LEAD_SECONDS))
              + SETTINGS.LOOP_CYCLE_PAUSE_SECONDS)) ->
    effect w w'.

Lemma scheduleNextLoopCycle_effect (token : nat) (now : Q) (w : world) :
  tracked w -> current w ->
  let w' := snd (scheduleNextLoopCycle token now w) in
  tracked w' /\ current w' /\ effect w w'.
Proof.
  intros Ht Hc.
  destruct (scheduleNextLoopCycle_cases token now w)
    as [[E _] | [[E _] | (r & Htok & Hans & _ & _ & E)]]; rewrite E; cbn [snd].
  - split; [exact Ht | split; [exact Hc | apply eff_none; auto]].
  - split; [exact Ht | split; [exact Hc | apply eff_none; auto]].
  - split; [apply loop_cycle_tracked, Ht |].
    split; [apply loop_cycle_current; assumption |].
    destruct (loop_cycle_fields token now r w) as (L1 & L2 & L3 & L4 & L5).
    apply (eff_cycle _ _ now); try congruence.
Qed.

Lemma handleAnswer_cases (knobId : string) (now : Q) (w : world) :
  tracked w -> current w ->
  let w' := snd (handleAnswer knobId now w) in
  (w' = w /\ (answered w = true \/ existsb (fun b => negb (snd b)) (buttons w) = false))
  \/ (answered w = false /\ existsb (fun b => negb (snd b)) (buttons w) = true
      /\ answered w' = true /\ no_ui w'
      /\ playbackToken w' = playbackToken w
      /\ loopNextAt w' = loopNextAt w
      /\ cycles w' = cycles w
      /\ phaseCalls w' = phaseCalls w).
Proof.
  intros Ht Hc. unfold handleAnswer.
  destruct (answered w) eqn:Hans; [left; split; [reflexivity | left; reflexivity] |].
  destruct (existsb (fun b => negb (snd b)) (buttons w)) eqn:Hbtn; cbn [negb];
    [| left; split; [reflexivity | right; reflexivity]].
  right. cbv zeta.
  assert (T1 : tracked (set_answered true w)) by (apply tracked_set_answered, Ht).
  pose proof (clearPhaseTimers_no_ui _ T1) as N1.
  pose proof (clearPhaseTimers_session (set_answered true w)) as S1.
  pose proof (stopRoundAudio_no_ui now _ N1) as N2.
  pose proof (stopRoundAudio_session now (clearPhaseTimers (set_answered true w))) as S2.
  pose proof (same_session_trans _ _ _ S1 S2) as (Et & Ea & El & Ec & Ep).
  cbn in Et, Ea, El, Ec, Ep. clear S1 S2 N1 T1.
  set (w2 := stopRoundAudio now (clearPhaseTimers (set_answered true w))) in *.
  clearbody w2.
  split; [reflexivity |]. split; [reflexivity |].
  match goal with
  | |- context [match ?l !! ?i with _ => _ end] => destruct (l !! i) as [r |]
  end.
  - unfold setOptionsDisabled, setPhase, setTimeout. cbv zeta. cbn [snd].
    split; [exact Ea |]. split; [| repeat split; assumption].
    apply no_ui_set_moveNextTimer, no_ui_set_nextTimer.
    apply (no_ui_insert CbMoveNext); [exact I |].
    apply no_ui_set_buttons, no_ui_set_shownPhase, N2.
  - unfold setPhase. cbn [snd].
    split; [exact Ea |]. split; [| repeat split; assumption].
    apply no_ui_set_shownPhase, N2.
Qed.

Lemma finishGame_spec (now : Q) (w : world) :
  tracked w -> no_ui (finishGame now w) /\ same_session w (finishGame now w).
Proof.
  intros Ht.
  pose proof (clearTimers_no_ui w Ht) as N1.
  pose proof (clearTimers_session w) as S1.
  pose proof (stopRoundAudio_no_ui now _ N1) as N2.
  pose proof (stopRoundAudio_session now (clearTimers w)) as S2.
  pose proof (same_session_trans _ _ _ S1 S2) as S3. clear S1 S2 N1.
  unfold finishGame, setPhase, setOptionsDisabled. cbv zeta.
  set (w2 := stopRoundAudio now (clearTimers w)) in *. clearbody w2.
  split; [apply no_ui_set_shownPhase, no_ui_set_buttons, N2 | exact S3].
Qed.

Lemma startRound_effect (index : nat) (now : Q) (w : world) :
  tracked w ->
  let w' := snd (startRound rnd index now w) in
  tracked w' /\ current w' /\ effect w w'.
Proof.
  intros Ht. destruct (startRound_spec index now w Ht) as (T & C & E1 & E2 & E3 & E4).
  split; [exact T |]. split; [exact C |]. apply (eff_round _ _ now); assumption.
Qed.

Lemma moveNext_effect (now : Q) (w : world) :
  tracked w ->
  let w' := snd (moveNext rnd now w) in
  tracked w' /\ current w' /\ effect w w'.
Proof.
  intros Ht. unfold moveNext.
  destruct (SETTINGS.ROUNDS_PER_GAME <=? currentIndex w + 1)%nat.
  - cbn [snd]. destruct (finishGame_spec now w Ht) as [N (Et & Ea & El & Ec & Ep)].
    split; [apply no_ui_tracked, N |]. split; [apply no_ui_current, N |].
    apply eff_none; auto.
  - apply startRound_effect, Ht.
Qed.

Lemma startNewGame_effect (now : Q) (w : world) :
  tracked w ->
  let w' := snd (startNewGame rnd now w) in
  tracked w' /\ current w' /\ effect w w'.
Proof.
  intros Ht.
  pose proof (clearTimers_no_ui w Ht) as N1.
  pose proof (clearTimers_session w) as S1.
  pose proof (stopRoundAudio_no_ui now _ N1) as N2.
  pose proof (stopRoundAudio_session now (clearTimers w)) as S2.
  pose proof (same_session_trans _ _ _ S1 S2) as (Et & Ea & El & Ec & Ep).
  clear S1 S2 N1.
  unfold startNewGame. cbv zeta.
  set (w2 := stopRoundAudio now (clearTimers w)) in *. clearbody w2.
  destruct (buildNewRounds rnd (rng w2)) as [[batch | e |] n].
  2, 3: cbn [snd]; split; [apply tracked_set_rng, no_ui_tracked, N2 |];
        (split; [apply current_set_rng, no_ui_current, N2 |]);
        apply eff_none; auto.
  match goal with
  | |- context [startRound rnd 0 now ?W] =>
      assert (T3 : tracked W)
        by (apply tracked_set_answered, tracked_set_currentIndex, tracked_set_rounds,
              tracked_set_rng, no_ui_tracked, N2);
      destruct (startRound_spec 0 now W T3) as (T & C & E1 & E2 & E3 & E4)
  end.
  cbn in E1, E3, E4.
  split; [exact T |]. split; [exact C |].
  apply (eff_round _ _ now); try congruence.
  rewrite <- Et, <- Ec. exact E4.
Qed.

Lemma fire_effect (t : nat) (now : Q) (w : world) :
  tracked w -> current w ->
  let w' := snd (fire rnd t now w) in
  tracked w' /\ current w' /\ effect w w'.
Proof.
  intros Ht Hc. unfold fire.
  destruct (timers w !! t) as [[cb d] |] eqn:Hl;
    [| cbn [snd]; split; [exact Ht | split; [exact Hc | apply eff_none; auto]]].
  pose proof (clearTimeout_tracked t w Ht) as T1.
  pose proof (clearTimeout_current t w Hc) as C1.
  cbv zeta.
  assert (S1 : same_session w (clearTimeout t w)) by (repeat split).
  destruct S1 as (Et & Ea & El & Ec & Ep).
  destruct cb as [token fn | |].
  - destruct (Hc _ _ _ _ Hl) as [Htok Hans].
    set (w1 := clearTimeout t w) in *. clearbody w1.
    destruct (Nat.eqb_spec token (playbackToken w1)) as [_ | Hne]; cbn [negb];
      [| cbn [snd]; split; [exact T1 | split; [exact C1 | apply eff_none; auto]]].
    destruct fn as [p | token'].
    + cbn [snd]. unfold setPhase.
      split; [apply tracked_set_phaseCalls, tracked_set_shownPhase, T1 |].
      split; [apply current_set_phaseCalls, current_set_shownPhase, C1 |].
      apply (eff_phase _ _ p); cbn; try congruence.
    + destruct (scheduleNextLoopCycle_effect token' now w1 T1 C1) as (T & C & E).
      split; [exact T |]. split; [exact C |].
      destruct E as [A1 A2 A3 A4 A5 | p A0 A1 A2 A3 A4 A5 | now' A0 A1 A2 A3 A4 A5
                    | now' A1 A2 A3 A4].
      * apply eff_none; try congruence; destruct A2; (left; congruence) || (right; congruence).
      * apply (eff_phase _ _ p); congruence.
      * apply (eff_cycle _ _ now'); try congruence;
          unfold cycle_start in *; rewrite <- ?El, <- ?Et, <- ?Ec; assumption.
      * apply (eff_round _ _ now'); try congruence;
          try (rewrite <- Et, <- Ec; exact A4).
  - set (w1 := clearTimeout t w) in *. clearbody w1.
    destruct (moveNext_effect now w1 T1) as (T & C & E).
    split; [exact T |]. split; [exact C |].
    destruct E as [A1 A2 A3 A4 A5 | p A0 A1 A2 A3 A4 A5 | now' A0 A1 A2 A3 A4 A5
                  | now' A1 A2 A3 A4].
    + apply eff_none; try congruence; destruct A2; (left; congruence) || (right; congruence).
    + apply (eff_phase _ _ p); congruence.
    + apply (eff_cycle _ _ now'); try congruence;
        unfold cycle_start in *; rewrite <- ?El, <- ?Et, <- ?Ec; assumption.
    + apply (eff_round _ _ now'); try congruence;
        try (rewrite <- Et, <- Ec; exact A4).
  - cbn [snd]. split; [exact T1 | split; [exact C1 | apply eff_none; auto]].
Qed.

Lemma step_effect (w : world) (e : event) :
  tracked w -> current w ->
  tracked (step rnd w e) /\ current (step rnd w e) /\ effect w (step rnd w e).
Proof.
  intros Ht Hc. unfold step. destruct e as [now | knobId now | t now]; cbn [handle].
  - apply startNewGame_effect, Ht.
  - destruct (handleAnswer_cases knobId now w Ht Hc)
      as [[-> _] | (_ & _ & Ha & N & Et & El & Ec & Ep)].
    + split; [exact Ht | split; [exact Hc | apply eff_none; auto]].
    + split; [apply no_ui_tracked, N |]. split; [apply no_ui_current, N |].
      apply eff_none; auto.
  - apply fire_effect; assumption.
Qed.

End Handlers.

(** ** Runs of the machine *)

(** Cycles of one session keep their distance: wherever two neighbours of the
    history carry the same token, the newer cycle starts no earlier than the
    inter-cycle pause after the end of the older one, and later than the
    older one started. *)
Fixpoint gaps (l : list (nat * times)) : Prop :=
  match l with
  | newer :: ((older :: _) as rest) =>
      (fst newer = fst older ->
       endAt (snd older) + SETTINGS.LOOP_CYCLE_PAUSE_SECONDS <= aStart (snd newer)
       /\ aStart (snd older) < aStart (snd newer))
      /\ gaps rest
  | _ => True
  end.

(** What the history of cycles satisfies in every reachable world. *)
Definition cycles_inv (w : world) : Prop :=
  Forall (fun c => (fst c <= playbackToken w)%nat /\ aStart (snd c) < endAt (snd c))
    (cycles w)
  /\ (forall token t rest,
        cycles w = (token, t) :: rest -> token = playbackToken w ->
        loopNextAt w = endAt t + SETTINGS.LOOP_CYCLE_PAUSE_SECONDS)
  /\ gaps (cycles w).





Lemma round_times_order (when : Q) :
  aStart (round_times when) < aEnd (round_times when)
  /\ aEnd (round_times when) <= bStart (round_times when)
  /\ bStart (round_times when) < bEnd (round_times when)
  /\ bEnd (round_times when) <= endAt (round_times when).
Proof.
  cbn [round_times aStart aEnd bStart bEnd endAt].
  unfold SETTINGS.TAKE_SECONDS, SETTINGS.SILENCE_GAP_SECONDS. repeat split; lra.
Qed.

Lemma round_times_span (when : Q) : aStart (round_times when) < endAt (round_times when).
Proof. destruct (round_times_order when) as (H1 & H2 & H3 & H4). lra. Qed.

Lemma cycle_start_max (now : Q) (w : world) :
  cycle_start now w == Qmax (now + 0.005) (loopNextAt w).
Proof.
  unfold cycle_start. destruct (ltb (loopNextAt w) (now + 0.005)) eqn:E.
  - apply ltb_lt in E. symmetry. apply Q.max_l. lra.
  - apply not_true_iff_false in E. rewrite ltb_lt in E.
    symmetry. apply Q.max_r. apply Qnot_lt_le, E.
Qed.

Lemma cycle_start_ge (now : Q) (w : world) : loopNextAt w <= cycle_start now w.
Proof. rewrite cycle_start_max. apply Q.le_max_r. Qed.


Lemma Forall_token_weaken (n m : nat) (l : list (nat * times)) :
  (n <= m)%nat ->
  Forall (fun c => (fst c <= n)%nat /\ aStart (snd c) < endAt (snd c)) l ->
  Forall (fun c => (fst c <= m)%nat /\ aStart (snd c) < endAt (snd c)) l.
Proof.
  intros Hnm H. eapply Forall_impl; [exact H |]. intros c [H1 H2]. split; [lia | exact H2].
Qed.

Lemma effect_cycles_inv (w w' : world) : cycles_inv w -> effect w w' -> cycles_inv w'.
Proof.
  intros (Htok & Hcur & Hgap) E.
  destruct E as [A1 A2 A3 A4 A5 | p A0 A1 A2 A3 A4 A5 | now A0 A1 A2 A3 A4 A5
                | now A1 A2 A3 A4].
  - unfold cycles_inv. rewrite A1, A3, A4. repeat split; assumption.
  - unfold cycles_inv. rewrite A1, A3, A4. repeat split; assumption.
  - unfold cycles_inv. rewrite A1, A3, A4. split; [| split].
    + constructor; [| exact Htok]. cbn [fst snd]. split; [lia | apply round_times_span].
    + intros token t rest H _. injection H as _ <- _. reflexivity.
    + destruct (cycles w) as [| [token' t'] rest] eqn:Ec; [exact I |].
      cbn [gaps fst snd]. split; [| exact Hgap].
      intros Heq. symmetry in Heq.
      pose proof (Hcur token' t' rest eq_refl Heq) as Hl.
      pose proof (cycle_start_ge now w) as Hge. rewrite Hl in Hge.
      apply Forall_cons in Htok. destruct Htok as [[_ Hspan] _]. cbn [snd] in Hspan.
      cbn [round_times aStart]. unfold SETTINGS.LOOP_CYCLE_PAUSE_SECONDS in *.
      split; lra.
  - unfold cycles_inv. rewrite A1.
    pose proof (Forall_token_weaken (playbackToken w) (playbackToken w + 1) _
                  ltac:(lia) Htok) as Htok'.
    destruct A4 as [A4 | [A4 A5]]; rewrite A4.
    + split; [exact Htok' |]. split; [| exact Hgap].
      intros token t rest H Heq. exfalso. rewrite H in Htok.
      apply Forall_cons in Htok. destruct Htok as [[Hle _] _]. cbn [fst] in Hle. lia.
    + split; [| split].
      * constructor; [| exact Htok']. cbn [fst snd].
        split; [lia | apply round_times_span].
      * intros token t rest H _. injection H as _ <- _. exact A5.
      * destruct (cycles w) as [| [token' t'] rest] eqn:Ec; [exact I |].
        cbn [gaps fst snd]. split; [| exact Hgap].
        intros Heq. exfalso.
        apply Forall_cons in Htok. destruct Htok as [[Hle _] _]. cbn [fst] in Hle. lia.
Qed.

Section Traces.

Context {ML : MathLib}.
Variable rnd : nat -> Q.

Lemma reachable_inv (w : world) :
  reachable rnd w -> tracked w /\ current w /\ cycles_inv w.
Proof.
  induction 1 as [| w e Hr (Ht & Hc & Hi)].
  - split; [| split].
    + intros t token fn d H. cbn in H. rewrite lookup_empty in H. discriminate.
    + intros t token fn d H. cbn in H. rewrite lookup_empty in H. discriminate.
    + repeat split; cbn; try constructor. intros token t rest H. discriminate.
  - destruct (step_effect rnd w e Ht Hc) as (Ht' & Hc' & E).
    split; [exact Ht' |]. split; [exact Hc' |]. exact (effect_cycles_inv _ _ Hi E).
Qed.


End Traces.

(** ** Tokens of the timers that a cycle schedules *)








(** * Theorems about the playback loop *)



(** The wrapper of [scheduleUi] tests the token and nothing else.  What keeps
    a phase change from running after an answer is that [handleAnswer] clears
    the timers: in a world, not a reachable one, in which the flag is set
    while the phase timer 3 of [playing] is still pending, the timer changes
    the phase. *)
Example phase_callback_tests_token_only :
  shownPhase playing = PHASE_GAP
  /\ shownPhase (snd (fire demo_draws 3 0.05 (set_answered true playing))) = PHASE_A.
Proof. vm_compute. split; reflexivity. Qed.

(** An accepted answer leaves the token as it is; the next [startRound]
    increments it. *)
Example answer_keeps_token :
  playbackToken playing = 1%nat
  /\ playbackToken (step demo_draws playing (EvAnswer "cutoff" 1)) = 1%nat
  /\ playbackToken (run demo_draws playing [EvAnswer "cutoff" 1; EvTimer 9 1.9]) = 2%nat.
Proof. vm_compute. repeat split; reflexivity. Qed.

(** The second cycle of [looping] starts at the cursor, 4.65, although the
    clock read 4.62 when it was scheduled: the clock plus the scheduling lead
    is 4.67. *)
Lemma loop_cycle_start_counterexample :
  reachable demo_draws playing
  /\ playbackToken playing = 1%nat
  /\ loopNextAt playing == 4.65
  /\ timers playing !! 7%nat = Some (CbUi 1 (NextLoopCycle 1), delay_of playing 7)
  /\ exists t,
       cycles looping = (1%nat, t) :: cycles playing
       /\ aStart t == 4.65
       /\ Qmax (4.62 + SETTINGS.SCHEDULING_LEAD_SECONDS) (loopNextAt playing) == 4.67
       /\ ~ aStart t == Qmax (4.62 + SETTINGS.SCHEDULING_LEAD_SECONDS) (loopNextAt playing).
Proof.
  split; [apply reachable_step, reachable_initial |].
  split; [vm_compute; reflexivity |].
  split; [vm_compute; reflexivity |].
  split; [vm_compute; reflexivity |].
  exists (round_times (loopNextAt playing)).
  split; [vm_compute; reflexivity |].
  split; [vm_compute; reflexivity |].
  split; [vm_compute; reflexivity |].
  intros H. vm_compute in H. discriminate H.
Qed.

(** C5, amended: a cycle of the loop starts at the later of the audio clock
    plus 5 ms and the cursor [state.loopNextAt]; after the cycle the cursor is
    the cycle's end plus the inter-cycle pause.  [startRound] sets the cursor
    to the clock plus the scheduling lead, 0.05 s, so the first cycle of a
    round starts there.  In every reachable world whose latest cycle belongs
    to the current session, the cursor is that cycle's end plus the pause. *)
Theorem loop_cycle_start {ML : MathLib} (rnd : nat -> Q) :
  (forall token now w r,
      token = playbackToken w -> answered w = false -> roundOutput w = true ->
      rounds w !! currentIndex w = Some r ->
      exists w' t,
        scheduleNextLoopCycle token now w = (Ok tt, w')
        /\ cycles w' = (token, t) :: cycles w
        /\ aStart t == Qmax (now + 0.005) (loopNextAt w)
        /\ loopNextAt w' = endAt t + SETTINGS.LOOP_CYCLE_PAUSE_SECONDS)
  /\ (forall index now w,
        reachable rnd w ->
        let w' := snd (startRound rnd index now w) in
        cycles w' = cycles w
        \/ exists t,
             cycles w' = (playbackToken w', t) :: cycles w
             /\ aStart t = now + SETTINGS.SCHEDULING_LEAD_SECONDS
             /\ loopNextAt w' = endAt t + SETTINGS.LOOP_CYCLE_PAUSE_SECONDS)
  /\ (forall w token t rest,
        reachable rnd w ->
        cycles w = (token, t) :: rest -> token = playbackToken w ->
        loopNextAt w = endAt t + SETTINGS.LOOP_CYCLE_PAUSE_SECONDS).
Proof.
  split; [| split].
  - intros token now w r Htok Hans Hout Hr.
    destruct (scheduleNextLoopCycle_cases token now w)
      as [[_ [H | [H | H]]] | [[_ H] | (r' & _ & _ & _ & _ & E)]]; try congruence.
    destruct (loop_cycle_fields token now r' w) as (_ & _ & _ & L4 & L5).
    exists (loop_cycle token now r' w), (round_times (cycle_start now w)).
    split; [exact E |]. split; [exact L4 |]. split; [| exact L5].
    apply cycle_start_max.
  - intros index now w Hr w'.
    destruct (reachable_inv rnd w Hr) as (Ht & _ & _).
    destruct (startRound_spec rnd index now w Ht) as (_ & _ & E1 & _ & _ & [E4 | [E4 E5]]).
    + left. exact E4.
    + right. exists (round_times (now + SETTINGS.SCHEDULING_LEAD_SECONDS)).
      fold w' in E1, E4, E5. rewrite E1. split; [exact E4 |]. split; [reflexivity | exact E5].
  - intros w token t rest Hr Hc Htok.
    destruct (reachable_inv rnd w Hr) as (_ & _ & _ & Hcur & _).
    exact (Hcur _ _ _ Hc Htok).
Qed.

Lemma loop_cycle_start_witness :
  1%nat = playbackToken playing
  /\ answered playing = false
  /\ roundOutput playing = true
  /\ rounds playing !! currentIndex playing <> None
  /\ (exists w' t,
       scheduleNextLoopCycle 1 4.62 playing = (Ok tt, w')
       /\ cycles w' = (1%nat, t) :: cycles playing
       /\ aStart t == Qmax (4.62 + 0.005) (loopNextAt playing)
       /\ loopNextAt w' = endAt t + SETTINGS.LOOP_CYCLE_PAUSE_SECONDS)
  /\ reachable demo_draws looping
  /\ cycles looping = (1%nat, round_times (loopNextAt playing)) :: cycles playing
  /\ 1%nat = playbackToken looping
  /\ loopNextAt looping
     = endAt (round_times (loopNextAt playing)) + SETTINGS.LOOP_CYCLE_PAUSE_SECONDS.
Proof.
  assert (H1 : 1%nat = playbackToken playing) by (vm_compute; reflexivity).
  assert (H2 : answered playing = false) by (vm_compute; reflexivity).
  assert (H3 : roundOutput playing = true) by (vm_compute; reflexivity).
  destruct (rounds playing !! currentIndex playing) as [r |] eqn:H4;
    [| vm_compute in H4; discriminate H4].
  split; [exact H1 |]. split; [exact H2 |]. split; [exact H3 |].
  split; [discriminate |].
  split; [exact (proj1 (loop_cycle_start demo_draws) 1%nat 4.62 playing r H1 H2 H3 H4) |].
  assert (Hr : reachable demo_draws looping)
    by (apply reachable_step, reachable_step, reachable_initial).
  assert (Hc : cycles looping
               = (1%nat, round_times (loopNextAt playing)) :: cycles playing)
    by (vm_compute; reflexivity).
  assert (Ht : 1%nat = playbackToken looping) by (vm_compute; reflexivity).
  split; [exact Hr |]. split; [exact Hc |]. split; [exact Ht |].
  exact (proj2 (proj2 (loop_cycle_start demo_draws)) looping 1%nat _ _ Hr Hc Ht).
Defined.

(** C8: the times that [playRound] returns for a round that starts at [when]
    satisfy aStart < aEnd <= bStart < bEnd <= endAt, with aStart = [when];
    and of two successive cycles of one session, in every reachable world,
    the later one starts at least the inter-cycle pause after the end of the
    earlier one, and strictly after the earlier one started. *)
Theorem playback_times_monotone {ML : MathLib} (rnd : nat -> Q) :
  (forall now r when w,
      let t := fst (playRound now r when w) in
      aStart t = when
      /\ aStart t < aEnd t /\ aEnd t <= bStart t /\ bStart t < bEnd t /\ bEnd t <= endAt t)
  /\ (forall w i token later earlier,
        reachable rnd w ->
        cycles w !! i = Some (token, later) ->
        cycles w !! S i = Some (token, earlier) ->
        endAt earlier + SETTINGS.LOOP_CYCLE_PAUSE_SECONDS <= aStart later
        /\ aStart earlier < aStart later).
Proof.
  split.
  - intros now r when w t. subst t. rewrite playRound_times.
    split; [reflexivity | apply round_times_order].
  - intros w i token later earlier Hr.
    destruct (reachable_inv rnd w Hr) as (_ & _ & _ & _ & Hgap).
    revert i Hgap. generalize (cycles w) as l.
    induction l as [| c l IH]; intros i Hgap H1 H2; [discriminate |].
    destruct l as [| c' l]; [destruct i; discriminate |].
    destruct Hgap as [Hhead Hrest].
    destruct i as [| i].
    + injection H1 as ->. injection H2 as ->. apply Hhead. reflexivity.
    + apply (IH i); assumption.
Qed.

Lemma playback_times_monotone_witness :
  reachable demo_draws looping
  /\ cycles looping !! 0%nat = Some (1%nat, round_times (loopNextAt playing))
  /\ cycles looping !! 1%nat = Some (1%nat, round_times (0 + SETTINGS.SCHEDULING_LEAD_SECONDS))
  /\ endAt (round_times (0 + SETTINGS.SCHEDULING_LEAD_SECONDS)) + SETTINGS.LOOP_CYCLE_PAUSE_SECONDS
     <= aStart (round_times (loopNextAt playing))
  /\ aStart (round_times (0 + SETTINGS.SCHEDULING_LEAD_SECONDS)) < aStart (round_times (loopNextAt playing)).
Proof.
  assert (Hr : reachable demo_draws looping)
    by (apply reachable_step, reachable_step, reachable_initial).
  assert (H0 : cycles looping !! 0%nat = Some (1%nat, round_times (loopNextAt playing)))
    by (vm_compute; reflexivity).
  assert (H1 : cycles looping !! 1%nat = Some (1%nat, round_times (0 + SETTINGS.SCHEDULING_LEAD_SECONDS)))
    by (vm_compute; reflexivity).
  split; [exact Hr |]. split; [exact H0 |]. split; [exact H1 |].
  exact (proj2 (playback_times_monotone demo_draws) looping 0%nat 1%nat _ _ Hr H0 H1).
Defined.

(** * Further properties of the source *)

(** ** The numeric helpers *)

(** X1: [clamp] never exceeds its upper bound, is monotone in its argument
    and idempotent; with bounds in order it stays at or above the lower bound
    and leaves a value between the bounds alone; with the bounds swapped it
    returns the upper bound, whatever the argument. *)
Theorem clamp_laws (x y lo hi : Q) :
  clamp x lo hi <= hi
  /\ clamp (clamp x lo hi) lo hi == clamp x lo hi
  /\ (x <= y -> clamp x lo hi <= clamp y lo hi)
  /\ (lo <= hi -> lo <= clamp x lo hi)
  /\ (lo <= x <= hi -> clamp x lo hi == x)
  /\ (hi < lo -> clamp x lo hi == hi).
Proof.
  assert (Hval : forall z,
             (lo <= z /\ z <= hi /\ clamp z lo hi == z)
             \/ (z <= lo /\ lo <= hi /\ clamp z lo hi == lo)
             \/ ((hi <= z \/ hi <= lo) /\ clamp z lo hi == hi)).
  { intros z. unfold clamp.
    destruct (Math_max_cases lo z) as [[H1 E1] | [H1 E1]];
      destruct (Math_min_cases hi (Math_max lo z)) as [[H2 E2] | [H2 E2]];
      rewrite E1 in H2; rewrite E2, ?E1.
    - right; right. split; [left; exact H2 | reflexivity].
    - left. repeat split; try assumption; reflexivity.
    - right; right. split; [right; exact H2 | reflexivity].
    - right; left. repeat split; try assumption; reflexivity. }
  split; [| split; [| split; [| split; [| split]]]].
  - destruct (Hval x) as [(A & B & E) | [(A & B & E) | (A & E)]]; rewrite E; lra.
  - destruct (Hval x) as [(A & B & E) | [(A & B & E) | (A & E)]];
      destruct (Hval (clamp x lo hi)) as [(A' & B' & E') | [(A' & B' & E') | (A' & E')]];
      repeat match goal with H : _ \/ _ |- _ => destruct H end; lra.
  - intros Hxy.
    destruct (Hval x) as [(A & B & E) | [(A & B & E) | (A & E)]];
      destruct (Hval y) as [(A' & B' & E') | [(A' & B' & E') | (A' & E')]];
      repeat match goal with H : _ \/ _ |- _ => destruct H end; lra.
  - intros Hb. apply clamp_range, Hb.
  - apply clamp_inside.
  - intros Hb.
    destruct (Hval x) as [(A & B & E) | [(A & B & E) | (A & E)]]; lra.
Qed.

Lemma clamp_laws_witness :
  (1 <= 2 /\ clamp 1 0 3 <= clamp 2 0 3)
  /\ (0 <= 3 /\ 0 <= clamp (-5) 0 3)
  /\ (0 <= 1 <= 3 /\ clamp 1 0 3 == 1)
  /\ (0.001 < 1 /\ clamp 0.02 1 0.001 == 0.001).
Proof.
  assert (H1 : 1 <= 2) by lra.
  assert (H2 : 0 <= 3) by lra.
  assert (H3 : 0 <= 1 <= 3) by (split; lra).
  assert (H4 : 0.001 < 1) by lra.
  split; [split; [exact H1 | exact (proj1 (proj2 (proj2 (clamp_laws 1 2 0 3))) H1)] |].
  split; [split; [exact H2
                 | exact (proj1 (proj2 (proj2 (proj2 (clamp_laws (-5) 0 0 3)))) H2)] |].
  split; [split; [exact H3
                 | exact (proj1 (proj2 (proj2 (proj2 (proj2 (clamp_laws 1 1 0 3))))) H3)] |].
  split; [exact H4
         | exact (proj2 (proj2 (proj2 (proj2 (proj2 (clamp_laws 0.02 0 1 0.001))))) H4)].
Defined.

(** X2: [nearEqual] is reflexive and symmetric, it accepts two values that
    are exactly the tolerance apart, and it is not transitive. *)
Theorem nearEqual_laws :
  (forall a, nearEqual a a = true)
  /\ (forall a b, nearEqual a b = nearEqual b a)
  /\ (forall a, nearEqual a (a + PARAM_EPS) = true)
  /\ ~ (forall a b c, nearEqual a b = true -> nearEqual b c = true -> nearEqual a c = true).
Proof.
  split; [exact nearEqual_refl |]. split; [| split].
  - intros a b. destruct (nearEqual b a) eqn:E.
    + apply nearEqual_true in E. apply nearEqual_true. split; lra.
    + apply not_true_iff_false. intros H. apply not_true_iff_false in E. apply E.
      apply nearEqual_true in H. apply nearEqual_true. split; lra.
  - intros a. apply nearEqual_true. unfold PARAM_EPS. split; lra.
  - intros H. specialize (H 0 PARAM_EPS (PARAM_EPS + PARAM_EPS)).
    assert (H' : nearEqual 0 (PARAM_EPS + PARAM_EPS) = true)
      by (apply H; vm_compute; reflexivity).
    vm_compute in H'. discriminate H'.
Qed.

(** ** The random helpers *)

Section RandomHelpers.

Context {ML : MathLib}.
Variable rnd : nat -> Q.
Hypothesis rnd_range : forall k, 0 <= rnd k < 1.

Lemma randFloat_between (lo hi : Q) (n : nat) :
  exists x,
    randFloat rnd lo hi n = (Ok x, S n)
    /\ (lo < hi -> lo <= x < hi)
    /\ (lo == hi -> x == lo)
    /\ (hi < lo -> hi < x <= lo).
Proof.
  exists (lo + rnd n * (hi - lo)). split; [reflexivity |].
  destruct (rnd_range n) as [H0 H1]. set (u := rnd n) in *.
  split; [| split].
  - intros Hlh.
    assert (0 <= u * (hi - lo)) by (apply Qmult_le_0_compat; lra).
    assert (u * (hi - lo) < 1 * (hi - lo)) by (apply Qmult_lt_compat_r; lra).
    split; lra.
  - intros E. rewrite E. ring.
  - intros Hhl.
    assert (0 <= u * (lo - hi)) by (apply Qmult_le_0_compat; lra).
    assert (u * (lo - hi) < 1 * (lo - hi)) by (apply Qmult_lt_compat_r; lra).
    assert (u * (hi - lo) == - (u * (lo - hi))) by ring.
    split; lra.
Qed.

Lemma log_draw_floor (lo hi u : Q) :
  0 <= u ->
  let safeMin := Math_max 0.000001 lo in
  let safeMax := Math_max (safeMin * 1.000001) hi in
  Qmax 0.000001 lo <= safeMin * Math_exp (Math_log (safeMax / safeMin) * u)
  /\ 0 < safeMin * Math_exp (Math_log (safeMax / safeMin) * u).
Proof.
  intros Hu safeMin safeMax.
  assert (Hpos : 0.000001 <= safeMin).
  { unfold safeMin. destruct (Math_max_cases 0.000001 lo) as [[H E] | [H E]];
      rewrite E; lra. }
  assert (Hmax : safeMin * 1.000001 <= safeMax).
  { unfold safeMax.
    destruct (Math_max_cases (safeMin * 1.000001) hi) as [[H E] | [H E]];
      rewrite E; lra. }
  assert (Hratio : 1 <= safeMax / safeMin).
  { apply Qle_shift_div_l; lra. }
  assert (Harg : 0 <= Math_log (safeMax / safeMin) * u).
  { apply Qmult_le_0_compat; [apply Math_log_nonneg, Hratio | exact Hu]. }
  pose proof (Math_exp_ge_1 _ Harg) as Hexp.
  assert (Hge : safeMin * 1 <= safeMin * Math_exp (Math_log (safeMax / safeMin) * u)).
  { apply Qmult_le_l; [lra | exact Hexp]. }
  change (Qmax 0.000001 lo) with safeMin. split; lra.
Qed.

Lemma randLog_positive (lo hi skew : Q) (n : nat) :
  (exists x, randLogFloat rnd lo hi n = (Ok x, S n)
             /\ Qmax 0.000001 lo <= x /\ 0 < x)
  /\ (exists x, randLogFloatSkew rnd lo hi skew n = (Ok x, S n)
                /\ Qmax 0.000001 lo <= x /\ 0 < x).
Proof.
  split.
  - eexists. split; [reflexivity |]. apply log_draw_floor, rnd_range.
  - eexists. split; [reflexivity |]. apply log_draw_floor, Math_pow_nonneg, rnd_range.
Qed.

Lemma pick_empty_or_member {A : Type} (arr : list A) (n : nat) :
  (arr = [] -> pick rnd arr n = (Ok None, S n))
  /\ (arr <> [] -> exists x, pick rnd arr n = (Ok (Some x), S n) /\ x ∈ arr).
Proof.
  split.
  - intros ->. unfold pick, bind, Math_random, ret. unfold js_index.
    destruct (_ <? 0)%Z; reflexivity.
  - apply pick_spec, rnd_range.
Qed.

Lemma shuffle_permutes {A : Type} (l : list A) (n : nat) :
  exists l',
    shuffle rnd l n = (Ok l', (n + (length l - 1))%nat)
    /\ l' ≡ₚ l
    /\ length l' = length l
    /\ (forall x, x ∈ l' <-> x ∈ l)
    /\ ((length l <= 1)%nat -> l' = l).
Proof.
  destruct (shuffle_spec rnd rnd_range l n) as [l' [Hs Hp]].
  exists l'. split; [exact Hs |]. split; [exact Hp |].
  split; [apply Permutation_length, Hp |].
  split; [intros x; rewrite Hp; reflexivity |].
  intros Hlen. unfold shuffle in Hs.
  replace (length l - 1)%nat with 0%nat in Hs by lia.
  cbn in Hs. unfold ret in Hs. congruence.
Qed.

End RandomHelpers.

(** X3: under the contract of [Math.random], [randFloat(min, max)] makes one
    draw and returns a value from [min] up to, not including, [max]; with
    equal bounds it returns the bound, and with the bounds swapped a value
    above [max] and up to [min]. *)
Theorem randFloat_range {ML : MathLib} (rnd : nat -> Q)
    (rnd_range : forall k, 0 <= rnd k < 1) (lo hi : Q) (n : nat) :
  exists x,
    randFloat rnd lo hi n = (Ok x, S n)
    /\ (lo < hi -> lo <= x < hi)
    /\ (lo == hi -> x == lo)
    /\ (hi < lo -> hi < x <= lo).
Proof. apply randFloat_between, rnd_range. Qed.

Lemma randFloat_range_witness :
  (forall k, 0 <= demo_draws k < 1)
  /\ (0.5 < 8.0
      /\ exists x, randFloat demo_draws 0.5 8.0 0%nat = (Ok x, 1%nat) /\ 0.5 <= x < 8.0)
  /\ (120 == 120
      /\ exists x, randFloat demo_draws 120 120 0%nat = (Ok x, 1%nat) /\ x == 120)
  /\ (0.5 < 8.0
      /\ exists x, randFloat demo_draws 8.0 0.5 0%nat = (Ok x, 1%nat) /\ 0.5 < x <= 8.0).
Proof.
  assert (H1 : 0.5 < 8.0) by lra.
  assert (H2 : 120 == 120) by reflexivity.
  split; [apply cyclic_draws_range |].
  split; [split; [exact H1 |] | split; [split; [exact H2 |] | split; [exact H1 |]]].
  - destruct (randFloat_range demo_draws (cyclic_draws_range 11 7 3) 0.5 8.0 0%nat)
      as (x & E & A & _). exists x. split; [exact E | exact (A H1)].
  - destruct (randFloat_range demo_draws (cyclic_draws_range 11 7 3) 120 120 0%nat)
      as (x & E & _ & A & _). exists x. split; [exact E | exact (A H2)].
  - destruct (randFloat_range demo_draws (cyclic_draws_range 11 7 3) 8.0 0.5 0%nat)
      as (x & E & _ & _ & A). exists x. split; [exact E | exact (A H1)].
Defined.

(** X4: under the contract of [Math.random], [randLogFloat] and
    [randLogFloatSkew] make one draw and return a positive value that is at
    least the larger of 1e-6 and [min], for any bounds, in either order, and
    any skew. *)
Theorem randLog_floor {ML : MathLib} (rnd : nat -> Q)
    (rnd_range : forall k, 0 <= rnd k < 1) (lo hi skew : Q) (n : nat) :
  (exists x, randLogFloat rnd lo hi n = (Ok x, S n)
             /\ Qmax 0.000001 lo <= x /\ 0 < x)
  /\ (exists x, randLogFloatSkew rnd lo hi skew n = (Ok x, S n)
                /\ Qmax 0.000001 lo <= x /\ 0 < x).
Proof. apply randLog_positive, rnd_range. Qed.

Lemma randLog_floor_witness :
  (forall k, 0 <= demo_draws k < 1)
  /\ (exists x, randLogFloat demo_draws (-3) (-7) 0%nat = (Ok x, 1%nat)
                /\ Qmax 0.000001 (-3) <= x /\ 0 < x)
  /\ (exists x, randLogFloatSkew demo_draws (-3) (-7) 0 0%nat = (Ok x, 1%nat)
                /\ Qmax 0.000001 (-3) <= x /\ 0 < x).
Proof.
  split; [apply cyclic_draws_range |].
  exact (randLog_floor demo_draws (cyclic_draws_range 11 7 3) (-3) (-7) 0 0%nat).
Defined.

(** X5: under the contract of [Math.random], [pick] makes one draw; on an
    empty array it returns [undefined], and on any other array one of its
    elements. *)
Theorem pick_member {ML : MathLib} (rnd : nat -> Q)
    (rnd_range : forall k, 0 <= rnd k < 1) {A : Type} (arr : list A) (n : nat) :
  (arr = [] -> pick rnd arr n = (Ok None, S n))
  /\ (arr <> [] -> exists x, pick rnd arr n = (Ok (Some x), S n) /\ x ∈ arr).
Proof. apply pick_empty_or_member, rnd_range. Qed.

Lemma pick_member_witness :
  (forall k, 0 <= demo_draws k < 1)
  /\ pick demo_draws (@nil Q) 0%nat = (Ok None, 1%nat)
  /\ SETTINGS.NOTE_FREQUENCIES_HZ <> []
  /\ exists x, pick demo_draws SETTINGS.NOTE_FREQUENCIES_HZ 0%nat = (Ok (Some x), 1%nat)
               /\ x ∈ SETTINGS.NOTE_FREQUENCIES_HZ.
Proof.
  assert (H : SETTINGS.NOTE_FREQUENCIES_HZ <> []) by discriminate.
  split; [apply cyclic_draws_range |].
  split; [exact (proj1 (pick_member demo_draws (cyclic_draws_range 11 7 3) (@nil Q) 0%nat)
                   eq_refl) |].
  split; [exact H |].
  exact (proj2 (pick_member demo_draws (cyclic_draws_range 11 7 3)
                  SETTINGS.NOTE_FREQUENCIES_HZ 0%nat) H).
Defined.

(** X6: under the contract of [Math.random], [shuffle] returns a permutation
    of its argument, of the same length and with the same elements, after
    one draw for each position but the first; a list of at most one element
    comes back as it is, without a draw. *)
Theorem shuffle_permutation {ML : MathLib} (rnd : nat -> Q)
    (rnd_range : forall k, 0 <= rnd k < 1) {A : Type} (l : list A) (n : nat) :
  exists l',
    shuffle rnd l n = (Ok l', (n + (length l - 1))%nat)
    /\ l' ≡ₚ l
    /\ length l' = length l
    /\ (forall x, x ∈ l' <-> x ∈ l)
    /\ ((length l <= 1)%nat -> l' = l).
Proof. apply shuffle_permutes, rnd_range. Qed.

Lemma shuffle_permutation_witness :
  (forall k, 0 <= demo_draws k < 1)
  /\ (exists l',
        shuffle demo_draws ["cutoff"; "resonance"; "decay"] 0%nat = (Ok l', 2%nat)
        /\ l' ≡ₚ ["cutoff"; "resonance"; "decay"])
  /\ (length ["cutoff"] <= 1)%nat
  /\ shuffle demo_draws ["cutoff"] 0%nat = (Ok ["cutoff"], 0%nat).
Proof.
  assert (H : (length ["cutoff"] <= 1)%nat) by (simpl; lia).
  split; [apply cyclic_draws_range |]. split; [| split; [exact H |]].
  - destruct (shuffle_permutation demo_draws (cyclic_draws_range 11 7 3)
                ["cutoff"; "resonance"; "decay"] 0%nat) as (l' & E & P & _).
    exists l'. split; [exact E | exact P].
  - destruct (shuffle_permutation demo_draws (cyclic_draws_range 11 7 3) ["cutoff"] 0%nat)
      as (l' & E & _ & _ & _ & A).
    rewrite (A H) in E. exact E.
Defined.

(** X7: [formatKnob] returns the label of a knob id, which differs from the
    id, and returns any other string unchanged. *)
Theorem formatKnob_label (i : string) :
  formatKnob "cutoff" = "Cutoff"
  /\ formatKnob "resonance" = "Resonance"
  /\ formatKnob "decay" = "Decay"
  /\ (i ∈ knob_ids -> formatKnob i <> i)
  /\ (i ∉ knob_ids -> formatKnob i = i).
Proof.
  split; [reflexivity |]. split; [reflexivity |]. split; [reflexivity |].
  unfold knob_ids. cbn [map KNOBS id]. split.
  - intros Hin.
    repeat (apply elem_of_cons in Hin; destruct Hin as [-> | Hin]);
      [| | | apply elem_of_nil in Hin; contradiction]; vm_compute; discriminate.
  - intros Hnot. unfold formatKnob, KNOB_BY_ID. cbn [map KNOBS id list_to_map].
    rewrite (not_elem_of_list_to_map_1 (M := gmap string)); [reflexivity |].
    exact Hnot.
Qed.

Lemma formatKnob_label_witness :
  ("decay" ∈ knob_ids /\ formatKnob "decay" <> "decay")
  /\ (("volume" ∉ knob_ids) /\ formatKnob "volume" = "volume").
Proof.
  assert (H1 : "decay" ∈ knob_ids) by (repeat constructor).
  assert (H2 : "volume" ∉ knob_ids).
  { intros H. unfold knob_ids in H. simpl in H.
    repeat (apply elem_of_cons in H; destruct H as [H | H]; [discriminate H |]).
    apply elem_of_nil in H. exact H. }
  split.
  - split; [exact H1 | exact (proj1 (proj2 (proj2 (proj2 (formatKnob_label "decay")))) H1)].
  - split; [exact H2 | exact (proj2 (proj2 (proj2 (proj2 (formatKnob_label "volume")))) H2)].
Defined.

(** ** The audio schedule *)

Lemma ascending_cons (x y : Q) (l : list Q) :
  ascending (x :: y :: l) <-> x <= y /\ ascending (y :: l).
Proof. reflexivity. Qed.

Lemma takeFade_fade (d : Q) :
  0 <= d ->
  let fade := clamp SETTINGS.TAKE_FADE_SECONDS 0.001 (d / 2) in
  0 <= fade /\ fade + fade <= d /\ (0.04 <= d -> fade == 0.02).
Proof.
  intros Hd fade. subst fade. unfold clamp, SETTINGS.TAKE_FADE_SECONDS.
  set (h := d / 2).
  assert (Hh : h + h == d) by (unfold h; field).
  destruct (Math_max_cases 0.001 0.02) as [[H1 E1] | [H1 E1]]; [| lra].
  destruct (Math_min_cases h (Math_max 0.001 0.02)) as [[H2 E2] | [H2 E2]];
    rewrite E1 in H2; rewrite E2, ?E1; (split; [| split; [| intros ?]]); lra.
Qed.

(** X8: for a duration that is not negative, the calls of [scheduleTakeFade]
    are in time order from the start to the end of the take, so the fade-in
    is over before the fade-out begins; the gain is programmed to 0, 1, 1
    and 0; and for a duration of at least 40 ms the two fades last 20 ms. *)
Theorem scheduleTakeFade_ordered (startTime d : Q) :
  0 <= d ->
  ascending (map automation_time (scheduleTakeFade startTime d))
  /\ map automation_value (scheduleTakeFade startTime d)
     = [None; Some 0.0; Some 1.0; Some 1.0; Some 0.0]
  /\ head (map automation_time (scheduleTakeFade startTime d)) = Some startTime
  /\ last (map automation_time (scheduleTakeFade startTime d)) = Some (startTime + d)
  /\ (0.04 <= d ->
      Forall2 Qeq (map automation_time (scheduleTakeFade startTime d))
        [startTime; startTime; startTime + 0.02; startTime + d - 0.02; startTime + d]).
Proof.
  intros Hd. destruct (takeFade_fade d Hd) as (F0 & F1 & F2).
  unfold scheduleTakeFade. cbv zeta.
  set (fade := clamp SETTINGS.TAKE_FADE_SECONDS 0.001 (d / 2)) in *.
  cbn [map automation_time automation_value head last].
  split; [| split; [reflexivity | split; [reflexivity | split; [reflexivity |]]]].
  - rewrite !ascending_cons. repeat split; lra.
  - intros H. specialize (F2 H).
    repeat (constructor; [lra |]). constructor.
Qed.

Lemma scheduleTakeFade_ordered_witness :
  0 <= SETTINGS.TAKE_SECONDS
  /\ ascending (map automation_time (scheduleTakeFade 0.05 SETTINGS.TAKE_SECONDS))
  /\ 0.04 <= SETTINGS.TAKE_SECONDS
  /\ Forall2 Qeq (map automation_time (scheduleTakeFade 0.05 SETTINGS.TAKE_SECONDS))
       [0.05; 0.05; 0.05 + 0.02; 0.05 + SETTINGS.TAKE_SECONDS - 0.02;
        0.05 + SETTINGS.TAKE_SECONDS].
Proof.
  assert (H : 0 <= SETTINGS.TAKE_SECONDS) by (vm_compute; discriminate).
  assert (H' : 0.04 <= SETTINGS.TAKE_SECONDS) by (vm_compute; discriminate).
  pose proof (scheduleTakeFade_ordered 0.05 SETTINGS.TAKE_SECONDS H) as (A & _ & _ & _ & B).
  split; [exact H | split; [exact A | split; [exact H' | exact (B H')]]].
Defined.

Lemma voice_cutoffs (p : params) :
  let base := clamp (cutoffHz p) 20 20000 in
  let peak := clamp (base + SETTINGS.FILTER_ENV_AMOUNT_HZ) 20 20000 in
  20 <= base <= 20000 /\ 20 <= peak <= 20000 /\ base <= peak
  /\ (20 <= cutoffHz p <= 19500 ->
      base == cutoffHz p /\ peak == cutoffHz p + SETTINGS.FILTER_ENV_AMOUNT_HZ).
Proof.
  intros base peak.
  assert (Hb : 20 <= base <= 20000) by (apply clamp_range; lra).
  assert (Hp : 20 <= peak <= 20000) by (apply clamp_range; lra).
  split; [exact Hb |]. split; [exact Hp |]. split.
  - subst peak. unfold clamp at 1. unfold SETTINGS.FILTER_ENV_AMOUNT_HZ.
    destruct (Math_max_cases 20 (base + 500)) as [[H1 E1] | [H1 E1]];
      destruct (Math_min_cases 20000 (Math_max 20 (base + 500))) as [[H2 E2] | [H2 E2]];
      rewrite E1 in H2; rewrite E2, ?E1; lra.
  - intros Hc.
    assert (Eb : base == cutoffHz p) by (apply clamp_inside; lra).
    split; [exact Eb |].
    subst peak. unfold SETTINGS.FILTER_ENV_AMOUNT_HZ in *.
    rewrite clamp_inside; lra.
Qed.

(** X9: whatever the parameters of a note, its filter has two stages, the
    first with the resonance of the take and the second with Q 0.707; the
    base and the peak of the filter envelope lie between 20 Hz and 20 kHz,
    the peak at or above the base, so every target of an exponential ramp is
    positive; a cutoff between 20 Hz and 19.5 kHz is used as it is, with a
    peak 500 Hz above it; and for a decay that is not negative the calls on
    the filter frequency are in time order. *)
Theorem voice_filter_envelope (p : params) (noteStartTime hardStopTime : Q) :
  let v := scheduleVoice p noteStartTime hardStopTime in
  filter_Q v = [resonanceQ p; SETTINGS.FILTER_STACK_Q2]
  /\ 20 <= baseCutoff v <= 20000
  /\ baseCutoff v <= envPeak v <= 20000
  /\ map automation_value (voice_filter p noteStartTime)
     = [Some (baseCutoff v); Some (envPeak v); Some (baseCutoff v)]
  /\ Forall (fun a => exists x, automation_value a = Some x /\ 0 < x)
       (voice_filter p noteStartTime)
  /\ (20 <= cutoffHz p <= 19500 ->
      baseCutoff v == cutoffHz p /\ envPeak v == cutoffHz p + 500)
  /\ (0 <= decayMs p -> ascending (map automation_time (voice_filter p noteStartTime))).
Proof.
  intros v. destruct (voice_cutoffs p) as (Hb & Hp & Hbp & Hin).
  cbv zeta in Hb, Hp, Hbp, Hin.
  split; [reflexivity |].
  split; [exact Hb |]. split; [split; [exact Hbp | apply Hp] |].
  split; [reflexivity |]. split; [| split].
  - unfold voice_filter. cbv zeta.
    repeat (constructor; [eexists; split; [reflexivity | lra] |]).
    constructor.
  - exact Hin.
  - intros Hd. unfold voice_filter. cbv zeta. cbn [map automation_time].
    unfold msToSec, SETTINGS.FILTER_ENV_ATTACK_SECONDS.
    set (dd := decayMs p / 1000).
    assert (Hdd : 0 <= dd).
    { unfold dd. apply Qle_shift_div_l; lra. }
    rewrite !ascending_cons. repeat split; lra.
Qed.

Lemma voice_filter_envelope_witness :
  let p := {| cutoffHz := 250; resonanceQ := 0.5; decayMs := 120; noteFreqHz := 98.0 |} in
  let v := scheduleVoice p 0.05 2.2 in
  20 <= cutoffHz p <= 19500
  /\ baseCutoff v == cutoffHz p /\ envPeak v == cutoffHz p + 500
  /\ 0 <= decayMs p
  /\ ascending (map automation_time (voice_filter p 0.05)).
Proof.
  intros p v.
  assert (H1 : 20 <= cutoffHz p <= 19500) by (split; vm_compute; discriminate).
  assert (H2 : 0 <= decayMs p) by (vm_compute; discriminate).
  pose proof (voice_filter_envelope p 0.05 2.2) as (_ & _ & _ & _ & _ & A & B).
  split; [exact H1 |]. split; [exact (proj1 (A H1)) |]. split; [exact (proj2 (A H1)) |].
  split; [exact H2 | exact (B H2)].
Defined.

(** X10: for a decay that is not negative, the calls of [scheduleVoice] on
    the gain of a note are in time order; the gain is programmed to 0, to
    the peak gain 5 ms after the start, to 0.0001 at the end of the decay
    and to 0 at the natural end of the voice; no programmed value exceeds
    the peak gain; and the oscillator stops before that natural end only
    when the hard stop comes first. *)
Theorem voice_gain_envelope (p : params) (noteStartTime hardStopTime : Q) :
  0 <= decayMs p ->
  let v := scheduleVoice p noteStartTime hardStopTime in
  ascending (map automation_time (voice_gain p noteStartTime))
  /\ map automation_value (voice_gain p noteStartTime)
     = [Some 0.0; Some 0.0; Some SETTINGS.VOICE_PEAK_GAIN; Some 0.0001; Some 0.0]
  /\ last (map automation_time (voice_gain p noteStartTime)) = Some (naturalEndTime v)
  /\ Forall (fun a => exists x, automation_value a = Some x
                                /\ 0 <= x <= SETTINGS.VOICE_PEAK_GAIN)
       (voice_gain p noteStartTime)
  /\ noteStartTime + 0.055 <= naturalEndTime v
  /\ (naturalEndTime v <= hardStopTime -> osc_stop v == naturalEndTime v)
  /\ (osc_stop v < naturalEndTime v -> hardStopTime < naturalEndTime v).
Proof.
  intros Hd v.
  assert (Hdd : 0 <= msToSec (decayMs p)).
  { unfold msToSec. apply Qle_shift_div_l; lra. }
  assert (Hnat : noteStartTime + 0.055 <= naturalEndTime v).
  { subst v. cbn [scheduleVoice naturalEndTime].
    unfold SETTINGS.AMP_ATTACK_SECONDS, SETTINGS.AMP_RELEASE_SECONDS. lra. }
  assert (Hstop : osc_stop v
                  = Math_max (noteStartTime + 0.01) (Math_min (naturalEndTime v) hardStopTime))
    by reflexivity.
  split; [| split; [reflexivity | split; [reflexivity | split; [| split; [exact Hnat | split]]]]].
  - unfold voice_gain. cbv zeta. cbn [map automation_time].
    unfold SETTINGS.AMP_ATTACK_SECONDS, SETTINGS.AMP_RELEASE_SECONDS.
    rewrite !ascending_cons. repeat split; lra.
  - unfold voice_gain, SETTINGS.VOICE_PEAK_GAIN. cbv zeta.
    repeat (constructor; [eexists; split; [reflexivity | lra] |]).
    constructor.
  - intros Hh. rewrite Hstop.
    destruct (Math_min_cases (naturalEndTime v) hardStopTime) as [[H1 E1] | [H1 E1]];
      destruct (Math_max_cases (noteStartTime + 0.01)
                  (Math_min (naturalEndTime v) hardStopTime)) as [[H2 E2] | [H2 E2]];
      rewrite E2, ?E1; rewrite E1 in H2; lra.
  - intros Hlt. rewrite Hstop in Hlt.
    destruct (Math_min_cases (naturalEndTime v) hardStopTime) as [[H1 E1] | [H1 E1]];
      destruct (Math_max_cases (noteStartTime + 0.01)
                  (Math_min (naturalEndTime v) hardStopTime)) as [[H2 E2] | [H2 E2]];
      rewrite E2, ?E1 in Hlt; rewrite E1 in H2; lra.
Qed.

Lemma voice_gain_envelope_witness :
  let p := {| cutoffHz := 250; resonanceQ := 0.5; decayMs := 120; noteFreqHz := 98.0 |} in
  0 <= decayMs p
  /\ ascending (map automation_time (voice_gain p 0.05))
  /\ naturalEndTime (scheduleVoice p 0.05 2.2) <= 2.2
  /\ osc_stop (scheduleVoice p 0.05 2.2) == naturalEndTime (scheduleVoice p 0.05 2.2)
  /\ osc_stop (scheduleVoice p 0.05 0.1) < naturalEndTime (scheduleVoice p 0.05 0.1)
  /\ 0.1 < naturalEndTime (scheduleVoice p 0.05 0.1).
Proof.
  intros p.
  assert (H : 0 <= decayMs p) by (vm_compute; discriminate).
  assert (H1 : naturalEndTime (scheduleVoice p 0.05 2.2) <= 2.2)
    by (vm_compute; discriminate).
  assert (H2 : osc_stop (scheduleVoice p 0.05 0.1) < naturalEndTime (scheduleVoice p 0.05 0.1))
    by (vm_compute; reflexivity).
  pose proof (voice_gain_envelope p 0.05 2.2 H) as (A & _ & _ & _ & _ & B & _).
  pose proof (voice_gain_envelope p 0.05 0.1 H) as (_ & _ & _ & _ & _ & _ & C).
  split; [exact H | split; [exact A | split; [exact H1 | split; [exact (B H1) |
    split; [exact H2 | exact (C H2)]]]]].
Defined.

Lemma take_voice_window (p : params) (when t : Q) :
  t ∈ SETTINGS.NOTE_TIMES_SECONDS ->
  let hard := when + SETTINGS.TAKE_SECONDS + SETTINGS.TAKE_CLEANUP_EXTRA_SECONDS in
  let v := scheduleVoice p (when + t) hard in
  when <= osc_start v
  /\ osc_start v < when + SETTINGS.TAKE_SECONDS
  /\ osc_start v + 0.01 <= osc_stop v
  /\ osc_stop v <= hard.
Proof.
  intros Hin hard v.
  assert (Ht : 0 <= t <= 1.66).
  { unfold SETTINGS.NOTE_TIMES_SECONDS in Hin.
    repeat (apply elem_of_cons in Hin; destruct Hin as [-> | Hin]); try lra.
    apply elem_of_nil in Hin. contradiction. }
  subst v hard. cbn [scheduleVoice osc_start osc_stop].
  unfold SETTINGS.TAKE_SECONDS, SETTINGS.TAKE_CLEANUP_EXTRA_SECONDS.
  set (natural := when + t + SETTINGS.AMP_ATTACK_SECONDS + msToSec (decayMs p)
                  + SETTINGS.AMP_RELEASE_SECONDS).
  destruct (Math_min_cases natural (when + 2.0 + 0.15)) as [[H1 E1] | [H1 E1]];
    destruct (Math_max_cases (when + t + 0.01) (Math_min natural (when + 2.0 + 0.15)))
      as [[H2 E2] | [H2 E2]];
    rewrite E2, ?E1; rewrite E1 in H2; repeat split; lra.
Qed.

Lemma take_voices_window (p : params) (when : Q) :
  Forall (fun v => when <= osc_start v
                   /\ osc_start v < when + SETTINGS.TAKE_SECONDS
                   /\ osc_start v + 0.01 <= osc_stop v
                   /\ osc_stop v <= when + SETTINGS.TAKE_SECONDS
                                    + SETTINGS.TAKE_CLEANUP_EXTRA_SECONDS)
    (take_voices p when).
Proof.
  unfold take_voices. apply Forall_map, Forall_forall.
  intros t Hin. apply (take_voice_window p when t Hin).
Qed.

(** X11: [playTake] schedules six voices; each starts within the take and
    stops no later than 150 ms after the take's end, whatever its decay;
    and the timer that disconnects the take's gain node has a delay that is
    not negative and expires no earlier than the last voice stops.  No other
    timer is touched, and the value returned is the end of the take. *)
Theorem playTake_cleanup_after_voices (now : Q) (p : params) (when : Q) (w : world) :
  let w' := snd (playTake now p when w) in
  fst (playTake now p when w) == when + 2
  /\ length (take_voices p when) = 6%nat
  /\ Forall (fun v => when <= osc_start v < when + 2
                      /\ osc_start v < osc_stop v <= when + 2.15)
       (take_voices p when)
  /\ (exists d,
        timers w' !! nextTimer w = Some (CbDisconnect, d)
        /\ 0 <= d
        /\ Forall (fun v => osc_stop v <= now + d / 1000) (take_voices p when))
  /\ (forall t, t <> nextTimer w -> timers w' !! t = timers w !! t)
  /\ nextTimer w' = S (nextTimer w).
Proof.
  intros w'. pose proof (take_voices_window p when) as Hv.
  unfold SETTINGS.TAKE_SECONDS, SETTINGS.TAKE_CLEANUP_EXTRA_SECONDS in Hv.
  split; [cbn [playTake fst]; unfold SETTINGS.TAKE_SECONDS; lra |].
  split; [reflexivity |].
  split; [eapply Forall_impl; [exact Hv |]; cbn beta; intros v (A & B & C & D);
          repeat split; lra |].
  split; [| split; [| reflexivity]].
  - eexists. split; [subst w'; cbn; apply lookup_insert_eq |].
    unfold SETTINGS.TAKE_SECONDS, SETTINGS.TAKE_CLEANUP_EXTRA_SECONDS.
    set (raw := (when + 2.0 + 0.15 - now) * 1000).
    destruct (Math_max_cases 0 raw) as [[H E] | [H E]];
      (split; [rewrite E; unfold raw in *; lra |]);
      (eapply Forall_impl; [exact Hv |]); cbn beta; intros v (_ & _ & _ & D);
      rewrite E; unfold raw in *; unfold Qdiv; change (/ 1000) with (1 # 1000); lra.
  - intros t Ht. subst w'. cbn. apply lookup_insert_ne. congruence.
Qed.

(** X12: in a round, every voice of the first take has stopped at least
    100 ms before the second take starts, and every voice of the second take
    starts no earlier than that take and stops no later than 150 ms after
    the end of the round, which is before the earliest start of the next
    loop cycle; the round lasts 4.25 s from the start of the first take, and
    [playRound] arms exactly the two disconnection timers of its takes. *)
Theorem playRound_takes_apart (now : Q) (r : round) (when : Q) (w : world) :
  let t := fst (playRound now r when w) in
  let w' := snd (playRound now r when w) in
  aStart t = when
  /\ endAt t == when + 4.25
  /\ Forall (fun v => aStart t <= osc_start v /\ osc_stop v <= bStart t - 0.1)
       (take_voices (takeA r) (aStart t))
  /\ Forall (fun v => bStart t <= osc_start v
                      /\ osc_stop v < endAt t + SETTINGS.LOOP_CYCLE_PAUSE_SECONDS)
       (take_voices (takeB r) (bStart t))
  /\ nextTimer w' = S (S (nextTimer w))
  /\ (forall i, (i < nextTimer w \/ nextTimer w' <= i)%nat -> timers w' !! i = timers w !! i)
  /\ (forall i, (nextTimer w <= i < nextTimer w')%nat ->
                exists d, timers w' !! i = Some (CbDisconnect, d) /\ 0 <= d).
Proof.
  intros t w'. subst t. rewrite playRound_times.
  cbn [round_times aStart aEnd bStart bEnd endAt].
  split; [reflexivity |].
  split; [unfold SETTINGS.TAKE_SECONDS, SETTINGS.SILENCE_GAP_SECONDS; lra |].
  split; [| split; [| split; [reflexivity | split]]].
  - eapply Forall_impl; [apply take_voices_window |]. cbn beta.
    unfold SETTINGS.TAKE_SECONDS, SETTINGS.TAKE_CLEANUP_EXTRA_SECONDS,
      SETTINGS.SILENCE_GAP_SECONDS.
    intros v (A & B & C & D). split; lra.
  - eapply Forall_impl; [apply take_voices_window |]. cbn beta.
    unfold SETTINGS.TAKE_SECONDS, SETTINGS.TAKE_CLEANUP_EXTRA_SECONDS,
      SETTINGS.SILENCE_GAP_SECONDS, SETTINGS.LOOP_CYCLE_PAUSE_SECONDS.
    intros v (A & B & C & D). split; lra.
  - intros i Hi. subst w'. cbn in *.
    rewrite !lookup_insert_ne by lia. reflexivity.
  - intros i Hi. subst w'. cbn in *.
    assert (Hcase : i = nextTimer w \/ i = S (nextTimer w)) by lia.
    destruct Hcase as [-> | ->].
    + rewrite lookup_insert_ne by lia. rewrite lookup_insert_eq.
      eexists. split; [reflexivity |].
      match goal with |- 0 <= Math_max 0 ?x =>
        destruct (Math_max_cases 0 x) as [[H E] | [H E]]; rewrite E; lra end.
    + rewrite lookup_insert_eq.
      eexists. split; [reflexivity |].
      match goal with |- 0 <= Math_max 0 ?x =>
        destruct (Math_max_cases 0 x) as [[H E] | [H E]]; rewrite E; lra end.
Qed.

Lemma playRound_takes_apart_witness :
  let r := {| index := 0; changedKnob := "decay";
              takeA := {| cutoffHz := 250; resonanceQ := 0.5; decayMs := 1200;
                          noteFreqHz := 98.0 |};
              takeB := {| cutoffHz := 250; resonanceQ := 0.5; decayMs := 1920;
                          noteFreqHz := 98.0 |};
              answerOrder := None |} in
  let w' := snd (playRound 0 r 0.05 initial_world) in
  (0 < nextTimer initial_world \/ nextTimer w' <= 0)%nat
  /\ timers w' !! 0%nat = timers initial_world !! 0%nat
  /\ (nextTimer initial_world <= 2 < nextTimer w')%nat
  /\ exists d, timers w' !! 2%nat = Some (CbDisconnect, d) /\ 0 <= d.
Proof.
  intros r w'.
  assert (H1 : (0 < nextTimer initial_world \/ nextTimer w' <= 0)%nat) by (left; simpl; lia).
  assert (H2 : (nextTimer initial_world <= 2 < nextTimer w')%nat) by (simpl; lia).
  pose proof (playRound_takes_apart 0 r 0.05 initial_world) as (_ & _ & _ & _ & _ & A & B).
  split; [exact H1 | split; [exact (A 0%nat H1) | split; [exact H2 | exact (B 2%nat H2)]]].
Defined.

(** ** The generator and the validator *)

Lemma Qabs_ge (a x : Q) : a <= x \/ a <= - x -> a <= Qabs x.
Proof.
  intros [H | H].
  - apply Qle_trans with x; [exact H | apply Qle_Qabs].
  - apply Qle_trans with (- x); [exact H |]. rewrite <- Qabs_opp. apply Qle_Qabs.
Qed.

Lemma clamp_low_side (x lo hi : Q) : lo <= hi -> x <= hi -> clamp x lo hi == Qmax lo x.
Proof.
  intros Hb Hx. unfold clamp.
  destruct (Math_max_cases lo x) as [[H1 E1] | [H1 E1]];
    destruct (Math_min_cases hi (Math_max lo x)) as [[H2 E2] | [H2 E2]];
    rewrite E1 in H2; rewrite E2; unfold Math_max in *; lra.
Qed.

Section GeneratedSizes.

Context {ML : MathLib}.
Variable rnd : nat -> Q.
Hypothesis rnd_range : forall k, 0 <= rnd k < 1.

(** How far the second take of a generated round is from the first. *)
Definition change_sizes (r : round) : Prop :=
  let a := takeA r in
  let b := takeB r in
  (changedKnob r = "cutoff" -> 155 <= Qabs (cutoffHz b - cutoffHz a))
  /\ (changedKnob r = "resonance" ->
      (resonanceQ b == resonanceQ a + 2 \/ resonanceQ b == Qmax 0.5 (resonanceQ a - 2))
      /\ resonanceQ b < 10
      /\ Qabs (resonanceQ b - resonanceQ a) <= 2)
  /\ (changedKnob r = "decay" ->
      (decayMs b == decayMs a * 1.6 \/ decayMs b == Qmax 80 (decayMs a * 0.6))
      /\ decayMs b < 1920
      /\ 40 <= Qabs (decayMs b - decayMs a)).

Lemma generated_round_sizes (r : round) : generated_round rnd r -> change_sizes r.
Proof.
  intros Hr. pose proof Hr as (Hin & (Hc & Hq & Hd & _) & _).
  unfold SETTINGS.CUTOFF_BASE_HZ_MIN, SETTINGS.RESONANCE_BASE_Q_MIN,
    SETTINGS.RESONANCE_BASE_Q_MAX, SETTINGS.DECAY_BASE_MS_MIN,
    SETTINGS.DECAY_BASE_MS_MAX in *.
  unfold change_sizes. cbv zeta.
  destruct (generated_round_cases rnd rnd_range r Hr)
    as (u & _ & [[Hk Hb] | [[Hk Hb] | [Hk Hb]]]); rewrite Hb, Hk;
    cbn [cutoffHz resonanceQ decayMs];
    (split; [| split]); intros Hk'; try discriminate Hk'.
  - set (c := cutoffHz (takeA r)) in *.
    apply Qabs_ge. destruct (ltb u 0.5); [left | right]; lra.
  - unfold SETTINGS.RESONANCE_CHANGE_DELTA_Q, SETTINGS.RESONANCE_Q_MIN,
      SETTINGS.RESONANCE_Q_MAX.
    set (q := resonanceQ (takeA r)) in *.
    destruct (ltb u 0.5).
    + pose proof (clamp_low_side (q + -1 * 2.0) 0.5 12.0 ltac:(lra) ltac:(lra)) as E.
      assert (E' : Qmax 0.5 (q + -1 * 2.0) == Qmax 0.5 (q - 2)).
      { apply Q.max_compat; [reflexivity | lra]. }
      rewrite E' in E.
      split; [right; exact E |].
      destruct (Q.max_spec 0.5 (q - 2)) as [[M1 M2] | [M1 M2]]; rewrite M2 in E.
      * split; [lra |]. apply Qabs_Qle_condition. split; lra.
      * split; [lra |]. apply Qabs_Qle_condition. split; lra.
    + pose proof (clamp_inside (q + 1 * 2.0) 0.5 12.0 ltac:(lra)) as E.
      split; [left; lra |]. split; [lra |]. apply Qabs_Qle_condition. split; lra.
  - unfold SETTINGS.DECAY_MS_MIN, SETTINGS.DECAY_MS_MAX.
    set (d := decayMs (takeA r)) in *.
    destruct (ltb u 0.5).
    + pose proof (clamp_inside (d * 1.6) 80 2000 ltac:(lra)) as E.
      split; [left; exact E |]. split; [lra |]. apply Qabs_ge. left. lra.
    + pose proof (clamp_low_side (d * 0.6) 80 2000 ltac:(lra) ltac:(lra)) as E.
      split; [right; exact E |].
      destruct (Q.max_spec 80 (d * 0.6)) as [[M1 M2] | [M1 M2]]; rewrite M2 in E.
      * split; [lra |]. apply Qabs_ge. right. lra.
      * split; [lra |]. apply Qabs_ge. right. lra.
Qed.

Lemma generated_batch_shape (n : nat) :
  exists rounds,
    generateRounds rnd n = (Ok rounds, (n + 60)%nat)
    /\ map index rounds = seq 0 SETTINGS.ROUNDS_PER_GAME
    /\ Forall (fun r => answerOrder r = None
                        /\ 250 <= cutoffHz (takeA r)
                        /\ 0.5 <= resonanceQ (takeA r) < 8
                        /\ 120 <= decayMs (takeA r) < 1200) rounds
    /\ Forall change_sizes rounds.
Proof.
  destruct (generateRounds_spec rnd rnd_range n)
    as (extra & bag & rounds & _ & _ & _ & _ & Hg & _ & Hi & Hf).
  exists rounds. split; [exact Hg |]. split; [exact Hi |]. split.
  - eapply Forall_impl; [exact Hf |]. cbn beta.
    intros r (_ & (Hc & Hq & Hd & _) & Ha & _).
    unfold SETTINGS.CUTOFF_BASE_HZ_MIN, SETTINGS.RESONANCE_BASE_Q_MIN,
      SETTINGS.RESONANCE_BASE_Q_MAX, SETTINGS.DECAY_BASE_MS_MIN,
      SETTINGS.DECAY_BASE_MS_MAX in *.
    split; [exact Ha |]. split; [lra |]. split; [split; lra | split; lra].
  - eapply Forall_impl; [exact Hf |]. exact generated_round_sizes.
Qed.

Lemma bag_occurrences (extra : knob) (l : list string) (k : string) :
  extra ∈ KNOBS -> l ≡ₚ knobBag0 ++ [id extra] -> k ∈ knob_ids ->
  (3 <= occurrences k l)%nat.
Proof.
  intros He Hperm Hk. unfold occurrences.
  rewrite (proj1 (Permutation_count_occ String.string_dec l (knobBag0 ++ [id extra])) Hperm k).
  unfold knob_ids in Hk. simpl in Hk. unfold KNOBS in He.
  repeat (apply elem_of_cons in He; destruct He as [-> | He]);
    [| | | apply elem_of_nil in He; contradiction];
    repeat (apply elem_of_cons in Hk; destruct Hk as [-> | Hk]);
    try (apply elem_of_nil in Hk; contradiction);
    vm_compute; lia.
Qed.

Lemma Forall_or_Exists {A : Type} (P Q' : A -> Prop) (l : list A) :
  Forall (fun x => P x \/ Q' x) l -> Forall P l \/ Exists Q' l.
Proof.
  induction 1 as [| x l [Hx | Hx] _ [IH | IH]].
  - left. constructor.
  - left. constructor; assumption.
  - right. apply Exists_cons_tl, IH.
  - right. apply Exists_cons_hd, Hx.
  - right. apply Exists_cons_hd, Hx.
Qed.

Lemma candidate_verdict (n n' : nat) (rounds : list round) :
  generateRounds rnd n = (Ok rounds, n') ->
  (ok (validateRounds rounds) = true <-> Forall single_difference rounds)
  /\ (ok (validateRounds rounds) = false ->
      Exists (fun r => changedKnob r = "resonance"
                       /\ resonanceQ (takeA r) <= SETTINGS.RESONANCE_Q_MIN + PARAM_EPS
                       /\ ~ differs (resonanceQ (takeA r)) (resonanceQ (takeB r)))
        rounds).
Proof.
  intros Hg.
  destruct (generateRounds_inv rnd rnd_range _ _ _ Hg)
    as (_ & Hlen & Hf & extra & He & Hperm).
  assert (Hdiff : Forall (fun r =>
              single_difference r
              \/ (changedKnob r = "resonance"
                  /\ resonanceQ (takeA r) <= SETTINGS.RESONANCE_Q_MIN + PARAM_EPS
                  /\ ~ differs (resonanceQ (takeA r)) (resonanceQ (takeB r)))) rounds).
  { eapply Forall_impl; [exact Hf |]. cbn beta. intros r Hr.
    destruct (generated_round_difference rnd rnd_range r Hr) as [_ [H | (A & B & _ & C & _)]];
      [left; exact H | right; split; [exact A | split; [exact B | exact C]]]. }
  assert (Hiff : ok (validateRounds rounds) = true <-> Forall single_difference rounds).
  { rewrite validateRounds_ok. split.
    - intros (_ & H & _). eapply Forall_impl; [exact H |]. cbn beta. tauto.
    - intros H. split; [exact Hlen |]. split.
      + rewrite Forall_forall in H, Hf. apply Forall_forall. intros r Hin.
        split; [| apply H, Hin].
        destruct (generated_round_difference rnd rnd_range r (Hf r Hin)) as [E _].
        rewrite E. apply nearEqual_refl.
      + apply Forall_forall. intros k Hk.
        apply (bag_occurrences extra); [exact He | exact Hperm |].
        unfold knob_ids. apply list_elem_of_fmap. exists k. split; [reflexivity | exact Hk]. }
  split; [exact Hiff |].
  intros Hno. destruct (Forall_or_Exists _ _ _ Hdiff) as [Hall | Hex]; [| exact Hex].
  apply Hiff in Hall. congruence.
Qed.

End GeneratedSizes.

(** X13: under the contract of [Math.random], a batch of the generator has
    its rounds numbered 0 to 9 in order and none has an answer order yet; the
    first take of a round has a cutoff of at least 250 Hz, a resonance from
    0.5 up to, not including, 8 and a decay from 120 ms up to, not including,
    1200 ms. *)
Theorem generated_first_take {ML : MathLib} (rnd : nat -> Q)
    (rnd_range : forall k, 0 <= rnd k < 1) (n : nat) :
  exists rounds,
    generateRounds rnd n = (Ok rounds, (n + 60)%nat)
    /\ map index rounds = [0; 1; 2; 3; 4; 5; 6; 7; 8; 9]%nat
    /\ Forall (fun r => answerOrder r = None
                        /\ 250 <= cutoffHz (takeA r)
                        /\ 0.5 <= resonanceQ (takeA r) < 8
                        /\ 120 <= decayMs (takeA r) < 1200) rounds.
Proof.
  destruct (generated_batch_shape rnd rnd_range n) as (rounds & Hg & Hi & Hf & _).
  exists rounds. split; [exact Hg | split; [exact Hi | exact Hf]].
Qed.

Lemma generated_first_take_witness :
  (forall k, 0 <= demo_draws k < 1)
  /\ exists rounds,
       generateRounds demo_draws 0%nat = (Ok rounds, 60%nat)
       /\ map index rounds = [0; 1; 2; 3; 4; 5; 6; 7; 8; 9]%nat
       /\ Forall (fun r => answerOrder r = None
                           /\ 250 <= cutoffHz (takeA r)
                           /\ 0.5 <= resonanceQ (takeA r) < 8
                           /\ 120 <= decayMs (takeA r) < 1200) rounds.
Proof.
  split; [apply cyclic_draws_range |].
  exact (generated_first_take demo_draws (cyclic_draws_range 11 7 3) 0%nat).
Defined.

(** X14: under the contract of [Math.random], in a batch of the generator a
    cutoff round moves the cutoff by at least 155 Hz; a resonance round sets
    the resonance to the first take's plus 2, or to the larger of 0.5 and the
    first take's minus 2, which stays below 10 and moves it by at most 2; a
    decay round sets the decay to 1.6 times the first take's, or to the
    larger of 80 ms and 0.6 times it, which stays below 1920 ms and moves it
    by at least 40 ms.  So the upper clamp bounds 12 and 2000 are never
    reached. *)
Theorem generated_change_sizes {ML : MathLib} (rnd : nat -> Q)
    (rnd_range : forall k, 0 <= rnd k < 1) (n : nat) :
  exists rounds,
    generateRounds rnd n = (Ok rounds, (n + 60)%nat)
    /\ Forall change_sizes rounds
    /\ Forall (fun r => resonanceQ (takeB r) < SETTINGS.RESONANCE_Q_MAX
                        /\ decayMs (takeB r) < SETTINGS.DECAY_MS_MAX) rounds.
Proof.
  destruct (generateRounds_spec rnd rnd_range n)
    as (extra & bag & rounds & _ & _ & _ & _ & Hg & _ & _ & Hf).
  exists rounds. split; [exact Hg |]. split.
  - eapply Forall_impl; [exact Hf |]. exact (generated_round_sizes rnd rnd_range).
  - eapply Forall_impl; [exact Hf |]. cbn beta. intros r Hr.
    pose proof (generated_round_sizes rnd rnd_range r Hr) as (_ & Sq & Sd).
    pose proof Hr as (Hin & (_ & Hq & Hd & _) & _).
    unfold SETTINGS.RESONANCE_BASE_Q_MIN, SETTINGS.RESONANCE_BASE_Q_MAX,
      SETTINGS.DECAY_BASE_MS_MIN, SETTINGS.DECAY_BASE_MS_MAX,
      SETTINGS.RESONANCE_Q_MAX, SETTINGS.DECAY_MS_MAX in *.
    cbv zeta in Sq, Sd.
    destruct (generated_round_cases rnd rnd_range r Hr)
      as (u & _ & [[Hk Hb] | [[Hk Hb] | [Hk Hb]]]).
    + rewrite Hb. cbn [resonanceQ decayMs]. split; lra.
    + destruct (Sq Hk) as (_ & S1 & _). rewrite Hb in *. cbn [resonanceQ decayMs] in *.
      split; lra.
    + destruct (Sd Hk) as (_ & S1 & _). rewrite Hb in *. cbn [resonanceQ decayMs] in *.
      split; lra.
Qed.

Lemma generated_change_sizes_witness :
  (forall k, 0 <= demo_draws k < 1)
  /\ exists rounds,
       generateRounds demo_draws 0%nat = (Ok rounds, 60%nat)
       /\ Forall change_sizes rounds
       /\ Forall (fun r => resonanceQ (takeB r) < SETTINGS.RESONANCE_Q_MAX
                           /\ decayMs (takeB r) < SETTINGS.DECAY_MS_MAX) rounds.
Proof.
  split; [apply cyclic_draws_range |].
  exact (generated_change_sizes demo_draws (cyclic_draws_range 11 7 3) 0%nat).
Defined.

(** X15: under the contract of [Math.random], the validator accepts a batch
    of the generator if and only if every round of it has a single
    difference; a batch that it rejects holds a resonance round whose first
    take has a resonance within the tolerance of 0.5 and whose second take
    has the same resonance within the tolerance: the downward change was
    absorbed by the lower clamp bound.  The length, the pitch and the
    distribution of the knobs never cause a rejection. *)
Theorem rejected_only_by_clamped_resonance {ML : MathLib} (rnd : nat -> Q)
    (rnd_range : forall k, 0 <= rnd k < 1) (n n' : nat) (rounds : list round) :
  generateRounds rnd n = (Ok rounds, n') ->
  (ok (validateRounds rounds) = true <-> Forall single_difference rounds)
  /\ (ok (validateRounds rounds) = false ->
      Exists (fun r => changedKnob r = "resonance"
                       /\ resonanceQ (takeA r) <= SETTINGS.RESONANCE_Q_MIN + PARAM_EPS
                       /\ ~ differs (resonanceQ (takeA r)) (resonanceQ (takeB r)))
        rounds).
Proof. apply candidate_verdict, rnd_range. Qed.

Lemma rejected_only_by_clamped_resonance_witness :
  let rnd := cyclic_draws 7 3 2 in
  let rounds := returned (generateRounds rnd 0%nat) in
  (forall k, 0 <= rnd k < 1)
  /\ generateRounds rnd 0%nat = (Ok rounds, 60%nat)
  /\ ok (validateRounds rounds) = false
  /\ Exists (fun r => changedKnob r = "resonance"
                      /\ resonanceQ (takeA r) <= SETTINGS.RESONANCE_Q_MIN + PARAM_EPS
                      /\ ~ differs (resonanceQ (takeA r)) (resonanceQ (takeB r)))
       rounds.
Proof.
  intros rnd rounds.
  assert (Hg : generateRounds rnd 0%nat = (Ok rounds, 60%nat)) by (vm_compute; reflexivity).
  assert (Hno : ok (validateRounds rounds) = false) by (vm_compute; reflexivity).
  split; [apply cyclic_draws_range |]. split; [exact Hg |]. split; [exact Hno |].
  exact (proj2 (rejected_only_by_clamped_resonance rnd (cyclic_draws_range 7 3 2)
                  0%nat 60%nat rounds Hg) Hno).
Defined.







Lemma knob_occurrences_sum (l : list string) :
  Forall (fun s => s ∈ knob_ids) l ->
  (occurrences "cutoff" l + occurrences "resonance" l + occurrences "decay" l
   = length l)%nat.
Proof.
  induction 1 as [| s l Hs _ IH]; [reflexivity |].
  unfold knob_ids in Hs. simpl in Hs. unfold occurrences in *.
  repeat (apply elem_of_cons in Hs; destruct Hs as [-> | Hs]);
    [| | | apply elem_of_nil in Hs; contradiction];
    cbn [count_occ length];
    repeat match goal with
           | |- context [String.string_dec ?a ?b] =>
               destruct (String.string_dec a b); try discriminate; try congruence
           end; lia.
Qed.

(** X17: a list of rounds that the validator accepts names one of the three
    knobs in every round, and names one knob in four rounds and each of the
    other two in three. *)
Theorem accepted_distribution (rounds : list round) :
  ok (validateRounds rounds) = true ->
  Forall (fun r => changedKnob r ∈ knob_ids) rounds
  /\ exists k4,
       k4 ∈ knob_ids
       /\ occurrences k4 (map changedKnob rounds) = 4%nat
       /\ forall k, k ∈ knob_ids -> k <> k4 ->
                    occurrences k (map changedKnob rounds) = 3%nat.
Proof.
  intros H. apply validateRounds_ok in H. destruct H as (Hlen & Hf & Hocc).
  assert (Hids : Forall (fun r => changedKnob r ∈ knob_ids) rounds).
  { eapply Forall_impl; [exact Hf |]. cbn beta. intros r (_ & Hin & _). exact Hin. }
  split; [exact Hids |].
  pose proof (knob_occurrences_sum (map changedKnob rounds)) as Hsum.
  rewrite length_map, Hlen in Hsum. unfold SETTINGS.ROUNDS_PER_GAME in Hsum.
  specialize (Hsum ltac:(apply Forall_map; exact Hids)).
  unfold KNOBS in Hocc. rewrite !Forall_cons in Hocc. cbn [id] in Hocc.
  destruct Hocc as (O1 & O2 & O3 & _).
  set (n1 := occurrences "cutoff" (map changedKnob rounds)) in *.
  set (n2 := occurrences "resonance" (map changedKnob rounds)) in *.
  set (n3 := occurrences "decay" (map changedKnob rounds)) in *.
  assert (Hcase : (n1 = 4 /\ n2 = 3 /\ n3 = 3)%nat \/ (n1 = 3 /\ n2 = 4 /\ n3 = 3)%nat
                  \/ (n1 = 3 /\ n2 = 3 /\ n3 = 4)%nat) by lia.
  unfold knob_ids. cbn [map KNOBS id].
  destruct Hcase as [(A & B & C) | [(A & B & C) | (A & B & C)]];
    [exists "cutoff" | exists "resonance" | exists "decay"];
    (split; [repeat constructor |]); (split; [assumption |]);
    intros k Hk Hne;
    repeat (apply elem_of_cons in Hk; destruct Hk as [-> | Hk]);
    try (apply elem_of_nil in Hk; contradiction);
    try congruence; assumption.
Qed.

Lemma accepted_distribution_witness :
  let batch := returned (generateRounds demo_draws 0%nat) in
  ok (validateRounds batch) = true
  /\ Forall (fun r => changedKnob r ∈ knob_ids) batch
  /\ exists k4,
       k4 ∈ knob_ids
       /\ occurrences k4 (map changedKnob batch) = 4%nat
       /\ forall k, k ∈ knob_ids -> k <> k4 ->
                    occurrences k (map changedKnob batch) = 3%nat.
Proof.
  intros batch.
  assert (H : ok (validateRounds batch) = true) by (vm_compute; reflexivity).
  split; [exact H |]. exact (accepted_distribution batch H).
Defined.

(** ** The course of a game *)

(** Some option button is enabled. *)
Definition anyEnabled (w : world) : bool := existsb (fun b => negb (snd b)) (buttons w).

(** Timer identifiers are positive and below the next identifier. *)
Definition fresh (w : world) : Prop :=
  (1 <= nextTimer w)%nat
  /\ forall t x, timers w !! t = Some x -> (1 <= t < nextTimer w)%nat.

(** A pending advance to the next round is the one that [state.moveNextTimer]
    holds, and the round is answered. *)
Definition advance_ok (w : world) : Prop :=
  forall t d, timers w !! t = Some (CbMoveNext, d) ->
              moveNextTimer w = Some t /\ answered w = true.

(** A batch is loaded and the current index lies in it. *)
Definition started (w : world) : Prop :=
  length (rounds w) = SETTINGS.ROUNDS_PER_GAME
  /\ (currentIndex w < SETTINGS.ROUNDS_PER_GAME)%nat.

(** Nothing that reads the current round can run: no audio output, no
    enabled button, no pending advance. *)
Definition idle (w : world) : Prop :=
  roundOutput w = false
  /\ anyEnabled w = false
  /\ forall t d, timers w !! t <> Some (CbMoveNext, d).

Definition game_inv (w : world) : Prop :=
  fresh w /\ advance_ok w /\ (started w \/ idle w).

(** From [w] to [w'] only timers were cancelled or added, none of them an
    advance, and the audio output was kept or dropped. *)
Definition benign (w w' : world) : Prop :=
  moveNextTimer w' = moveNextTimer w
  /\ answered w' = answered w
  /\ rounds w' = rounds w
  /\ currentIndex w' = currentIndex w
  /\ buttons w' = buttons w
  /\ playbackToken w' = playbackToken w
  /\ (roundOutput w' = roundOutput w \/ roundOutput w' = false)
  /\ (nextTimer w <= nextTimer w')%nat
  /\ forall t cb d, timers w' !! t = Some (cb, d) ->
       timers w !! t = Some (cb, d)
       \/ ((nextTimer w <= t < nextTimer w')%nat /\ cb <> CbMoveNext).

Lemma benign_refl (w : world) : benign w w.
Proof.
  split; [reflexivity |]. split; [reflexivity |]. split; [reflexivity |].
  split; [reflexivity |]. split; [reflexivity |]. split; [reflexivity |].
  split; [left; reflexivity |]. split; [lia |]. intros t cb d H. left. exact H.
Qed.

Lemma benign_trans (w1 w2 w3 : world) : benign w1 w2 -> benign w2 w3 -> benign w1 w3.
Proof.
  intros (A1 & A2 & A3 & A4 & A5 & A6 & A7 & A8 & A9)
         (B1 & B2 & B3 & B4 & B5 & B6 & B7 & B8 & B9).
  split; [congruence |]. split; [congruence |]. split; [congruence |].
  split; [congruence |]. split; [congruence |]. split; [congruence |].
  split; [destruct A7, B7; (left; congruence) || (right; congruence) |].
  split; [lia |]. intros t cb d H.
  destruct (B9 _ _ _ H) as [H' | [H' Hcb]].
  - destruct (A9 _ _ _ H') as [H'' | [H'' Hcb]]; [left; exact H'' |].
    right. split; [lia | exact Hcb].
  - right. split; [lia | exact Hcb].
Qed.

Lemma clearTimeout_benign (t : nat) (w : world) : benign w (clearTimeout t w).
Proof.
  split; [reflexivity |]. split; [reflexivity |]. split; [reflexivity |].
  split; [reflexivity |]. split; [reflexivity |]. split; [reflexivity |].
  split; [left; reflexivity |]. split; [cbn; lia |]. intros k cb d H. left.
  unfold clearTimeout in H. cbn [timers set_timers] in H.
  apply lookup_delete_Some in H. exact (proj2 H).
Qed.

Lemma clearPhaseTimers_benign (w : world) : benign w (clearPhaseTimers w).
Proof.
  unfold clearPhaseTimers. rewrite clear_all_timers.
  split; [reflexivity |]. split; [reflexivity |]. split; [reflexivity |].
  split; [reflexivity |]. split; [reflexivity |]. split; [reflexivity |].
  split; [left; reflexivity |]. split; [cbn; lia |]. intros k cb d H. left.
  cbn [timers set_phaseTimers set_timers] in H.
  apply lookup_fold_delete in H. exact (proj1 H).
Qed.

Lemma setTimeout_benign (cb : callback) (d : Q) (w : world) :
  cb <> CbMoveNext -> benign w (snd (setTimeout cb d w)).
Proof.
  intros Hcb.
  split; [reflexivity |]. split; [reflexivity |]. split; [reflexivity |].
  split; [reflexivity |]. split; [reflexivity |]. split; [reflexivity |].
  split; [left; reflexivity |]. split; [cbn; lia |]. intros k cb' d' H.
  cbn in H. apply lookup_insert_Some in H. destruct H as [[<- H] | [_ H]].
  - right. injection H as <- _. split; [cbn; lia | exact Hcb].
  - left. exact H.
Qed.

Lemma scheduleUi_benign (token : nat) (d : Q) (fn : ui_fn) (w : world) :
  benign w (scheduleUi token d fn w).
Proof.
  split; [reflexivity |]. split; [reflexivity |]. split; [reflexivity |].
  split; [reflexivity |]. split; [reflexivity |]. split; [reflexivity |].
  split; [left; reflexivity |]. split; [cbn; lia |]. intros k cb' d' H.
  cbn in H. apply lookup_insert_Some in H. destruct H as [[<- H] | [_ H]].
  - right. injection H as <- _. split; [cbn; lia | discriminate].
  - left. exact H.
Qed.

Lemma stopRoundAudio_benign (now : Q) (w : world) : benign w (stopRoundAudio now w).
Proof.
  unfold stopRoundAudio. destruct (roundOutput w) eqn:E; [| apply benign_refl].
  split; [reflexivity |]. split; [reflexivity |]. split; [reflexivity |].
  split; [reflexivity |]. split; [reflexivity |]. split; [reflexivity |].
  split; [right; reflexivity |]. split; [cbn; lia |]. intros k cb' d' H.
  cbn in H. apply lookup_insert_Some in H. destruct H as [[<- H] | [_ H]].
  - right. injection H as <- _. split; [cbn; lia | discriminate].
  - left. exact H.
Qed.

Lemma stopRoundAudio_silent (now : Q) (w : world) : roundOutput (stopRoundAudio now w) = false.
Proof. unfold stopRoundAudio. destruct (roundOutput w) eqn:E; [reflexivity | exact E]. Qed.

Lemma playRound_benign (now : Q) (r : round) (when : Q) (w : world) :
  benign w (snd (playRound now r when w)).
Proof.
  unfold playRound, playTake. cbv zeta. cbn [snd].
  eapply benign_trans; [| apply setTimeout_benign; discriminate].
  apply setTimeout_benign. discriminate.
Qed.

Lemma benign_set_cycles (v : list (nat * times)) (w w' : world) :
  benign w w' -> benign w (set_cycles v w').
Proof. exact (fun H => H). Qed.

Lemma benign_set_loopNextAt (v : Q) (w w' : world) :
  benign w w' -> benign w (set_loopNextAt v w').
Proof. exact (fun H => H). Qed.

Lemma benign_set_shownPhase (v : phase) (w w' : world) :
  benign w w' -> benign w (set_shownPhase v w').
Proof. exact (fun H => H). Qed.

Lemma benign_set_phaseCalls (v : list (nat * phase)) (w w' : world) :
  benign w w' -> benign w (set_phaseCalls v w').
Proof. exact (fun H => H). Qed.

Lemma benign_set_rng (v : nat) (w w' : world) : benign w w' -> benign w (set_rng v w').
Proof. exact (fun H => H). Qed.

Lemma loop_cycle_benign (token : nat) (now : Q) (r : round) (w : world) :
  benign w (loop_cycle token now r w) /\ roundOutput (loop_cycle token now r w) = roundOutput w.
Proof.
  split; [| reflexivity].
  unfold loop_cycle. cbv zeta.
  eapply benign_trans; [| apply scheduleUi_benign].
  apply benign_set_loopNextAt.
  do 4 (eapply benign_trans; [| apply scheduleUi_benign]).
  apply benign_set_cycles. apply playRound_benign.
Qed.

Lemma game_inv_benign (w w' : world) : game_inv w -> benign w w' -> game_inv w'.
Proof.
  intros ((F1 & F2) & A & S) (B1 & B2 & B3 & B4 & B5 & B6 & B7 & B8 & B9).
  split; [| split].
  - split; [lia |]. intros t [cb d] H.
    destruct (B9 _ _ _ H) as [H' | [H' _]]; [| lia].
    specialize (F2 _ _ H'). lia.
  - intros t d H. destruct (B9 _ _ _ H) as [H' | [_ Hcb]]; [| congruence].
    rewrite B1, B2. exact (A _ _ H').
  - destruct S as [[S1 S2] | (I1 & I2 & I3)].
    + left. split; [rewrite B3; exact S1 | rewrite B4; exact S2].
    + right. split; [destruct B7; congruence |].
      split; [unfold anyEnabled in *; rewrite B5; exact I2 |].
      intros t d H. destruct (B9 _ _ _ H) as [H' | [_ Hcb]]; [| congruence].
      exact (I3 _ _ H').
Qed.

(** No advance to the next round is pending. *)
Definition settled (w : world) : Prop :=
  fresh w /\ forall t d, timers w !! t <> Some (CbMoveNext, d).

Lemma settled_advance_ok (w : world) : settled w -> advance_ok w.
Proof. intros [_ H] t d Ht. exfalso. exact (H _ _ Ht). Qed.

Lemma clearTimers_spec (w : world) :
  fresh w -> advance_ok w ->
  let w1 := clearTimers w in
  settled w1
  /\ answered w1 = answered w /\ rounds w1 = rounds w
  /\ currentIndex w1 = currentIndex w /\ buttons w1 = buttons w
  /\ roundOutput w1 = roundOutput w /\ playbackToken w1 = playbackToken w
  /\ rng w1 = rng w.
Proof.
  intros [F1 F2] A. unfold clearTimers.
  set (w0 := match moveNextTimer w with
             | Some t => if Nat.eqb t 0 then w else set_moveNextTimer None (clearTimeout t w)
             | None => w
             end).
  assert (H0 : (forall t x, timers w0 !! t = Some x -> timers w !! t = Some x)
               /\ (forall t d, timers w0 !! t <> Some (CbMoveNext, d))
               /\ nextTimer w0 = nextTimer w
               /\ answered w0 = answered w /\ rounds w0 = rounds w
               /\ currentIndex w0 = currentIndex w /\ buttons w0 = buttons w
               /\ roundOutput w0 = roundOutput w /\ playbackToken w0 = playbackToken w
               /\ rng w0 = rng w).
  { unfold w0. destruct (moveNextTimer w) as [t |] eqn:Em.
    - destruct (Nat.eqb_spec t 0) as [-> | Hne].
      + split; [auto |]. split; [| repeat split].
        intros k d H. destruct (A _ _ H) as [E _]. rewrite Em in E. injection E as <-.
        specialize (F2 _ _ H). lia.
      + split; [| split; [| repeat split]].
        * intros k x H. cbn in H. apply lookup_delete_Some in H. exact (proj2 H).
        * intros k d H. cbn in H. apply lookup_delete_Some in H. destruct H as [Hk H].
          destruct (A _ _ H) as [E _]. rewrite Em in E. congruence.
    - split; [auto |]. split; [| repeat split].
      intros k d H. destruct (A _ _ H) as [E _]. rewrite Em in E. discriminate. }
  clearbody w0. destruct H0 as (T1 & T2 & E1 & E2 & E3 & E4 & E5 & E6 & E7 & E8).
  destruct (clearPhaseTimers_benign w0) as (B1 & B2 & B3 & B4 & B5 & B6 & B7 & B8 & B9).
  assert (Hnew : nextTimer (clearPhaseTimers w0) = nextTimer w0).
  { unfold clearPhaseTimers. rewrite clear_all_timers. reflexivity. }
  assert (Hout : roundOutput (clearPhaseTimers w0) = roundOutput w0).
  { unfold clearPhaseTimers. rewrite clear_all_timers. reflexivity. }
  assert (Hrng : rng (clearPhaseTimers w0) = rng w0).
  { unfold clearPhaseTimers. rewrite clear_all_timers. reflexivity. }
  cbv zeta. split; [split; [split |] |].
  - lia.
  - intros t [cb d] H. destruct (B9 _ _ _ H) as [H' | [H' _]]; [| lia].
    rewrite Hnew, E1. exact (F2 _ _ (T1 _ _ H')).
  - intros t d H. destruct (B9 _ _ _ H) as [H' | [_ Hcb]]; [| congruence].
    exact (T2 _ _ H').
  - repeat split; congruence.
Qed.

Lemma stopRoundAudio_rng (now : Q) (w : world) : rng (stopRoundAudio now w) = rng w.
Proof. unfold stopRoundAudio. destruct (roundOutput w); reflexivity. Qed.

Lemma settled_benign (w w' : world) : settled w -> benign w w' -> settled w'.
Proof.
  intros [[F1 F2] N] (_ & _ & _ & _ & _ & _ & _ & B8 & B9). split; [split |].
  - lia.
  - intros t [cb d] H. destruct (B9 _ _ _ H) as [H' | [H' _]]; [| lia].
    specialize (F2 _ _ H'). lia.
  - intros t d H. destruct (B9 _ _ _ H) as [H' | [_ Hcb]]; [| congruence].
    exact (N _ _ H').
Qed.

(** The common opening of [startRound], [startNewGame] and [finishGame]. *)
Lemma cleared_spec (now : Q) (w : world) :
  fresh w -> advance_ok w ->
  let w2 := stopRoundAudio now (clearTimers w) in
  settled w2 /\ roundOutput w2 = false
  /\ answered w2 = answered w /\ rounds w2 = rounds w
  /\ currentIndex w2 = currentIndex w /\ buttons w2 = buttons w
  /\ playbackToken w2 = playbackToken w /\ rng w2 = rng w.
Proof.
  intros F A. destruct (clearTimers_spec w F A) as (S & E2 & E3 & E4 & E5 & E6 & E7 & E8).
  cbv zeta in *.
  pose proof (stopRoundAudio_benign now (clearTimers w))
    as B. pose proof B as (B1 & B2 & B3 & B4 & B5 & B6 & B7 & B8 & B9).
  split; [exact (settled_benign _ _ S B) |].
  split; [apply stopRoundAudio_silent |].
  rewrite stopRoundAudio_rng. repeat split; congruence.
Qed.

Lemma all_disabled (l : list (string * bool)) :
  existsb (fun b => negb (snd b)) (map (fun b => (fst b, true)) l) = false.
Proof. induction l as [| b l IH]; [reflexivity | exact IH]. Qed.

Lemma all_enabled (order : list string) :
  map (fun b => (fst b, false)) (map (fun knobId : string => (knobId, true)) order)
  = map (fun knobId => (knobId, false)) order.
Proof. rewrite map_map. reflexivity. Qed.

(** What the generator wrote in a round: all but the answer order. *)
Definition core (r : round) : nat * string * params * params :=
  (index r, changedKnob r, takeA r, takeB r).

Lemma validate_step_core (r r' : round) (acc : list violation * gmap string nat) :
  core r = core r' -> validate_step acc r = validate_step acc r'.
Proof.
  intros H. injection H as H1 H2 H3 H4. destruct acc as [e c].
  unfold validate_step, round_errors, diffs_of. rewrite H1, H2, H3, H4. reflexivity.
Qed.

Lemma validateRounds_core (l l' : list round) :
  map core l = map core l' -> validateRounds l = validateRounds l'.
Proof.
  intros H.
  assert (Hlen : length l = length l').
  { rewrite <- (length_map core l), H. apply length_map. }
  assert (Hfold : forall acc, fold_left validate_step l acc = fold_left validate_step l' acc).
  { clear Hlen. revert l' H. induction l as [| r l IH]; intros [| r' l'] H acc;
      try discriminate H; [reflexivity |].
    cbn [map] in H.
    assert (Hr : core r = core r') by congruence.
    assert (Hl : map core l = map core l') by congruence.
    cbn [fold_left].
    rewrite (validate_step_core r r' acc Hr). apply IH, Hl. }
  unfold validateRounds. rewrite Hlen, Hfold. reflexivity.
Qed.

Lemma core_insert (l : list round) (i : nat) (order : list string) (r : round) :
  l !! i = Some r -> map core (<[i := with_answerOrder order r]> l) = map core l.
Proof.
  intros H. rewrite list_fmap_insert.
  apply list_insert_id. rewrite list_lookup_fmap, H. reflexivity.
Qed.

Lemma scheduleNextLoopCycle_closed (token : nat) (now : Q) (w : world) :
  roundOutput w = false -> scheduleNextLoopCycle token now w = (Ok tt, w).
Proof.
  intros H. unfold scheduleNextLoopCycle.
  destruct (negb (Nat.eqb token (playbackToken w))); [reflexivity |].
  destruct (answered w); [reflexivity |]. rewrite H. reflexivity.
Qed.

Section Course.

Context {ML : MathLib}.
Variable rnd : nat -> Q.
Hypothesis rnd_range : forall k, 0 <= rnd k < 1.

(** The world in which [startRound] calls [scheduleNextLoopCycle]: [w2] is
    the world after the timers are cleared and the audio is stopped. *)
Definition open_round (index : nat) (now : Q) (order : list string) (r : round) (n : nat)
    (w2 : world) : world :=
  set_loopNextAt (now + SETTINGS.SCHEDULING_LEAD_SECONDS)
    (set_roundOutput true
       (setPhase PHASE_GAP
          (setOptionsDisabled false
             (renderOptions order
                (set_rounds (<[index := with_answerOrder order r]> (rounds w2))
                   (set_rng n
                      (set_answered false
                         (set_currentIndex index
                            (set_playbackToken (playbackToken w2 + 1) w2))))))))).

(** [startRound] after its first two calls. *)
Definition startRound_from (index : nat) (now : Q) (w2 : world) : outcome unit * world :=
  match shuffle rnd (map id KNOBS) (rng w2) with
  | (Ok order, n) =>
      match rounds w2 !! index with
      | None =>
          (Throw TypeErrorUndefined,
           set_rng n (set_answered false (set_currentIndex index
                        (set_playbackToken (playbackToken w2 + 1) w2))))
      | Some r =>
          scheduleNextLoopCycle (playbackToken w2 + 1) now (open_round index now order r n w2)
      end
  | (Throw e, n) =>
      (Throw e, set_rng n (set_answered false (set_currentIndex index
                             (set_playbackToken (playbackToken w2 + 1) w2))))
  | (OutOfModel, n) =>
      (OutOfModel, set_rng n (set_answered false (set_currentIndex index
                                (set_playbackToken (playbackToken w2 + 1) w2))))
  end.

Lemma startRound_tail (index : nat) (now : Q) (w2 : world) :
  (let w := set_playbackToken (playbackToken w2 + 1) w2 in
    let token := playbackToken w in
    let w := set_currentIndex index w in
    let w := set_answered false w in
    let round := rounds w !! index in
    match shuffle rnd (map id KNOBS) (rng w) with
    | (Ok order, n) =>
        let w := set_rng n w in
        match round with
        | None => (Throw TypeErrorUndefined, w)
        | Some r =>
            let w := set_rounds (<[index := with_answerOrder order r]> (rounds w)) w in
            let w := renderOptions order w in
            let w := setOptionsDisabled false w in
            let w := setPhase PHASE_GAP w in
            let startAt := now + SETTINGS.SCHEDULING_LEAD_SECONDS in
            let w := set_roundOutput true w in
            let w := set_loopNextAt startAt w in
            scheduleNextLoopCycle token now w
        end
    | (Throw e, n) => (Throw e, set_rng n w)
    | (OutOfModel, n) => (OutOfModel, set_rng n w)
    end) = startRound_from index now w2.
Proof.
  cbv zeta. unfold startRound_from, open_round.
  cbn [rng rounds playbackToken set_answered set_currentIndex set_playbackToken set_rng].
  reflexivity.
Qed.

Lemma startRound_unfold (index : nat) (now : Q) (w : world) :
  startRound rnd index now w = startRound_from index now (stopRoundAudio now (clearTimers w)).
Proof.
  unfold startRound. cbv zeta.
  set (w2 := stopRoundAudio now (clearTimers w)). clearbody w2.
  exact (startRound_tail index now w2).
Qed.

Lemma open_round_fields (index : nat) (now : Q) (order : list string) (r : round) (n : nat)
    (w2 : world) :
  let w9 := open_round index now order r n w2 in
  playbackToken w9 = (playbackToken w2 + 1)%nat
  /\ answered w9 = false /\ roundOutput w9 = true
  /\ rounds w9 = <[index := with_answerOrder order r]> (rounds w2)
  /\ currentIndex w9 = index
  /\ buttons w9 = map (fun knobId => (knobId, false)) order
  /\ shownPhase w9 = PHASE_GAP
  /\ timers w9 = timers w2 /\ nextTimer w9 = nextTimer w2.
Proof.
  cbv zeta. split; [reflexivity |]. split; [reflexivity |]. split; [reflexivity |].
  split; [reflexivity |]. split; [reflexivity |]. split; [apply all_enabled |].
  split; [reflexivity |]. split; reflexivity.
Qed.

Lemma startRound_from_ok (index : nat) (now : Q) (w2 : world) :
  settled w2 -> (index < length (rounds w2))%nat ->
  exists order r w',
    startRound_from index now w2 = (Ok tt, w')
    /\ order ≡ₚ map id KNOBS
    /\ rounds w2 !! index = Some r
    /\ settled w'
    /\ currentIndex w' = index
    /\ answered w' = false
    /\ roundOutput w' = true
    /\ rounds w' = <[index := with_answerOrder order r]> (rounds w2)
    /\ buttons w' = map (fun knobId => (knobId, false)) order
    /\ playbackToken w' = (playbackToken w2 + 1)%nat
    /\ shownPhase w' = PHASE_GAP.
Proof.
  intros S2 Hidx. unfold startRound_from.
  destruct (lookup_lt_is_Some_2 (rounds w2) index Hidx) as [r Hr].
  destruct (shuffle_spec rnd rnd_range (map id KNOBS) (rng w2)) as [order [Hs Hperm]].
  rewrite Hs, Hr.
  set (n := (rng w2 + (length (map id KNOBS) - 1))%nat). clearbody n.
  destruct (open_round_fields index now order r n w2)
    as (G1 & G2 & G3 & G4 & G5 & G6 & G7 & G8 & G9).
  cbv zeta in *.
  set (w9 := open_round index now order r n w2) in *.
  assert (S9 : settled w9).
  { destruct S2 as [[Fa Fb] N]. split; [split |].
    - rewrite G9. exact Fa.
    - intros t x. rewrite G8, G9. apply Fb.
    - intros t d. rewrite G8. apply N. }
  clearbody w9.
  exists order, r.
  destruct (scheduleNextLoopCycle_cases (playbackToken w2 + 1) now w9)
    as [[_ [Hx | [Hx | Hx]]] | [[_ Hx] | (r' & _ & _ & _ & _ & E)]].
  - congruence.
  - congruence.
  - congruence.
  - rewrite G4, G5, list_lookup_insert_eq in Hx by exact Hidx.
    discriminate.
  - exists (loop_cycle (playbackToken w2 + 1) now r' w9).
    destruct (loop_cycle_benign (playbackToken w2 + 1) now r' w9)
      as [B Ho]. pose proof B as (B1 & B2 & B3 & B4 & B5 & B6 & B7 & B8 & B9).
    split; [exact E |]. split; [exact Hperm |]. split; [reflexivity |].
    split; [exact (settled_benign _ _ S9 B) |].
    assert (Hsh : shownPhase (loop_cycle (playbackToken w2 + 1) now r' w9) = shownPhase w9)
      by reflexivity.
    repeat split; congruence.
Qed.

(** [startRound] on a round of the batch: it returns, the round has its
    answer order, the buttons are those of the order, all enabled, and the
    audio output is open. *)
Lemma startRound_ok (index : nat) (now : Q) (w : world) :
  fresh w -> advance_ok w ->
  length (rounds w) = SETTINGS.ROUNDS_PER_GAME ->
  (index < SETTINGS.ROUNDS_PER_GAME)%nat ->
  exists order r w',
    startRound rnd index now w = (Ok tt, w')
    /\ order ≡ₚ map id KNOBS
    /\ rounds w !! index = Some r
    /\ settled w'
    /\ currentIndex w' = index
    /\ answered w' = false
    /\ roundOutput w' = true
    /\ rounds w' = <[index := with_answerOrder order r]> (rounds w)
    /\ buttons w' = map (fun knobId => (knobId, false)) order
    /\ playbackToken w' = (playbackToken w + 1)%nat
    /\ shownPhase w' = PHASE_GAP.
Proof.
  intros F A Hlen Hidx.
  destruct (cleared_spec now w F A) as (S2 & O2 & E2 & E3 & E4 & E5 & E6 & E7).
  cbv zeta in *. rewrite startRound_unfold.
  set (w2 := stopRoundAudio now (clearTimers w)) in *. clearbody w2.
  destruct (startRound_from_ok index now w2 S2 ltac:(rewrite E3; lia))
    as (order & r & w' & H1 & H2 & H3 & H4 & H5 & H6 & H7 & H8 & H9 & H10 & H11).
  exists order, r, w'. rewrite <- E3, <- E6.
  exact (conj H1 (conj H2 (conj H3 (conj H4 (conj H5 (conj H6 (conj H7 (conj H8
           (conj H9 (conj H10 H11)))))))))).
Qed.

Lemma finishGame_ok (now : Q) (w : world) :
  fresh w -> advance_ok w ->
  let w' := finishGame now w in
  settled w' /\ roundOutput w' = false /\ anyEnabled w' = false
  /\ rounds w' = rounds w /\ currentIndex w' = currentIndex w
  /\ answered w' = answered w /\ playbackToken w' = playbackToken w
  /\ shownPhase w' = PHASE_ANSWER.
Proof.
  intros F A.
  destruct (cleared_spec now w F A) as (S2 & O2 & E2 & E3 & E4 & E5 & E6 & E7).
  cbv zeta in *. unfold finishGame. cbv zeta.
  set (w2 := stopRoundAudio now (clearTimers w)) in *. clearbody w2.
  split; [exact S2 |]. split; [exact O2 |].
  split; [apply all_disabled |].
  split; [exact E3 |]. split; [exact E4 |]. split; [exact E2 |].
  split; [exact E6 | reflexivity].
Qed.

(** [handleAnswer] once its two guards are passed and the loop is stopped. *)
Definition handleAnswer_from (w2 : world) : outcome unit * world :=
  match rounds w2 !! currentIndex w2 with
  | None => (Throw TypeErrorUndefined, setPhase PHASE_ANSWER w2)
  | Some _ =>
      (Ok tt,
       set_moveNextTimer (Some (nextTimer w2))
         (snd (setTimeout CbMoveNext SETTINGS.FEEDBACK_ADVANCE_MS
                 (setOptionsDisabled true (setPhase PHASE_ANSWER w2)))))
  end.

Lemma handleAnswer_unfold (knobId : string) (now : Q) (w : world) :
  handleAnswer knobId now w =
  if answered w then (Ok tt, w)
  else if negb (anyEnabled w) then (Ok tt, w)
  else handleAnswer_from (stopRoundAudio now (clearPhaseTimers (set_answered true w))).
Proof.
  unfold handleAnswer, anyEnabled.
  destruct (answered w); [reflexivity |].
  destruct (negb (existsb (fun b => negb (snd b)) (buttons w))); [reflexivity |].
  cbv zeta.
  set (w2 := stopRoundAudio now (clearPhaseTimers (set_answered true w))). clearbody w2.
  unfold handleAnswer_from.
  cbn [rounds currentIndex setPhase set_shownPhase].
  destruct (rounds w2 !! currentIndex w2); reflexivity.
Qed.

Lemma handleAnswer_from_ok (w2 : world) :
  settled w2 -> started w2 -> answered w2 = true ->
  exists r w',
    handleAnswer_from w2 = (Ok tt, w')
    /\ rounds w2 !! currentIndex w2 = Some r
    /\ fresh w' /\ advance_ok w'
    /\ answered w' = true /\ anyEnabled w' = false
    /\ roundOutput w' = roundOutput w2
    /\ rounds w' = rounds w2 /\ currentIndex w' = currentIndex w2
    /\ playbackToken w' = playbackToken w2
    /\ shownPhase w' = PHASE_ANSWER
    /\ moveNextTimer w' = Some (nextTimer w2)
    /\ timers w' = <[nextTimer w2 := (CbMoveNext, SETTINGS.FEEDBACK_ADVANCE_MS)]> (timers w2).
Proof.
  intros [[F1 F2] N] [S1 S2] Ha. unfold handleAnswer_from.
  assert (Hlt : (currentIndex w2 < length (rounds w2))%nat) by (rewrite S1; exact S2).
  destruct (lookup_lt_is_Some_2 (rounds w2) (currentIndex w2) Hlt) as [r Hr].
  rewrite Hr. exists r. eexists. split; [reflexivity |]. split; [reflexivity |].
  split; [split |].
  - cbn. lia.
  - intros t x H. cbn in H. cbn.
    apply lookup_insert_Some in H. destruct H as [[<- _] | [_ H]]; [lia |].
    specialize (F2 _ _ H). lia.
  - split.
    + intros t d H. cbn in H.
      apply lookup_insert_Some in H. destruct H as [[<- _] | [_ H]].
      * split; [reflexivity | exact Ha].
      * exfalso. exact (N _ _ H).
    + split; [exact Ha |]. split; [apply all_disabled |]. repeat split.
Qed.

Lemma handleAnswer_ok (knobId : string) (now : Q) (w : world) :
  game_inv w ->
  (handleAnswer knobId now w = (Ok tt, w) /\ (answered w = true \/ anyEnabled w = false))
  \/ (answered w = false /\ anyEnabled w = true
      /\ exists r w',
           handleAnswer knobId now w = (Ok tt, w')
           /\ rounds w !! currentIndex w = Some r
           /\ game_inv w' /\ started w'
           /\ answered w' = true /\ anyEnabled w' = false
           /\ roundOutput w' = false
           /\ rounds w' = rounds w /\ currentIndex w' = currentIndex w
           /\ playbackToken w' = playbackToken w
           /\ shownPhase w' = PHASE_ANSWER
           /\ exists t, moveNextTimer w' = Some t
                        /\ timers w' !! t = Some (CbMoveNext, SETTINGS.FEEDBACK_ADVANCE_MS)).
Proof.
  intros (F & A & S). rewrite handleAnswer_unfold.
  destruct (answered w) eqn:Ha; [left; split; [reflexivity | left; reflexivity] |].
  destruct (anyEnabled w) eqn:Hb; cbn [negb];
    [| left; split; [reflexivity | right; reflexivity]].
  right. split; [reflexivity |]. split; [reflexivity |].
  assert (St : started w).
  { destruct S as [S | (_ & I2 & _)]; [exact S | congruence]. }
  assert (S1 : settled (set_answered true w)).
  { split; [exact F |]. intros t d H. destruct (A t d H) as [_ H']. congruence. }
  assert (B : benign (set_answered true w)
                (stopRoundAudio now (clearPhaseTimers (set_answered true w)))).
  { eapply benign_trans; [apply clearPhaseTimers_benign | apply stopRoundAudio_benign]. }
  pose proof (stopRoundAudio_silent now (clearPhaseTimers (set_answered true w))) as O2.
  pose proof (settled_benign _ _ S1 B) as S2.
  destruct B as (B1 & B2 & B3 & B4 & B5 & B6 & B7 & B8 & B9).
  set (w2 := stopRoundAudio now (clearPhaseTimers (set_answered true w))) in *.
  clearbody w2. cbn in B1, B2, B3, B4, B5, B6.
  assert (St2 : started w2).
  { destruct St as [X Y]. split; [rewrite B3; exact X | rewrite B4; exact Y]. }
  destruct (handleAnswer_from_ok w2 S2 St2 B2)
    as (r & w' & H1 & H2 & H3 & H4 & H5 & H6 & H7 & H8 & H9 & H10 & H11 & H12 & H13).
  exists r, w'. split; [exact H1 |]. split; [rewrite <- B3, <- B4; exact H2 |].
  assert (St' : started w').
  { destruct St2 as [X Y]. split; [rewrite H8; exact X | rewrite H9; exact Y]. }
  split; [split; [exact H3 | split; [exact H4 | left; exact St']] |].
  split; [exact St' |]. split; [exact H5 |]. split; [exact H6 |].
  split; [congruence |]. split; [congruence |]. split; [congruence |].
  split; [congruence |]. split; [exact H11 |].
  exists (nextTimer w2). split; [exact H12 |]. rewrite H13. apply lookup_insert_eq.
Qed.

(** What the handler of an event did to the game: it stayed in the round,
    the advance timer moved it to the next round, or the start button loaded
    a new game. *)
Inductive course (e : event) (w w' : world) : Prop :=
| course_stay :
    map core (rounds w') = map core (rounds w) ->
    currentIndex w' = currentIndex w ->
    playbackToken w' = playbackToken w ->
    answered w' = answered w ->
    course e w w'
| course_answer (knobId : string) (now : Q) (r : round) :
    e = EvAnswer knobId now ->
    answered w = false -> anyEnabled w = true ->
    rounds w !! currentIndex w = Some r ->
    rounds w' = rounds w ->
    currentIndex w' = currentIndex w ->
    playbackToken w' = playbackToken w ->
    answered w' = true ->
    course e w w'
| course_next (t : nat) (now d : Q) :
    e = EvTimer t now ->
    timers w !! t = Some (CbMoveNext, d) ->
    map core (rounds w') = map core (rounds w) ->
    currentIndex w' = S (currentIndex w) ->
    (currentIndex w' < SETTINGS.ROUNDS_PER_GAME)%nat ->
    playbackToken w' = S (playbackToken w) ->
    answered w = true -> answered w' = false ->
    course e w w'
| course_new (now : Q) (batch : list round) (n : nat) :
    e = EvStart now ->
    buildNewRounds rnd (rng (stopRoundAudio now (clearTimers w))) = (Ok batch, n) ->
    map core (rounds w') = map core batch ->
    ok (validateRounds (rounds w')) = true ->
    currentIndex w' = 0%nat ->
    playbackToken w' = S (playbackToken w) ->
    answered w' = false ->
    course e w w'
| course_failed (now : Q) (n : nat) :
    e = EvStart now ->
    buildNewRounds rnd (rng (stopRoundAudio now (clearTimers w)))
      = (Throw FailedToGenerate, n) ->
    rounds w' = rounds w ->
    currentIndex w' = currentIndex w ->
    playbackToken w' = playbackToken w ->
    answered w' = answered w ->
    course e w w'.

Lemma moveNext_ok (now : Q) (w : world) :
  fresh w -> advance_ok w -> started w ->
  exists w',
    moveNext rnd now w = (Ok tt, w')
    /\ game_inv w'
    /\ map core (rounds w') = map core (rounds w)
    /\ ((currentIndex w + 1 = SETTINGS.ROUNDS_PER_GAME
         /\ w' = finishGame now w
         /\ currentIndex w' = currentIndex w
         /\ playbackToken w' = playbackToken w
         /\ answered w' = answered w)
        \/ (currentIndex w' = S (currentIndex w)
            /\ (currentIndex w' < SETTINGS.ROUNDS_PER_GAME)%nat
            /\ playbackToken w' = S (playbackToken w)
            /\ answered w' = false))%nat.
Proof.
  intros F A [S1 S2]. unfold moveNext.
  destruct (Nat.leb_spec SETTINGS.ROUNDS_PER_GAME (currentIndex w + 1)) as [Hlast | Hmore].
  - exists (finishGame now w).
    destruct (finishGame_ok now w F A) as (G1 & G2 & G3 & G4 & G5 & G6 & G7 & G8).
    cbv zeta in *. split; [reflexivity |]. split; [| split].
    + split; [exact (proj1 G1) |]. split; [apply settled_advance_ok, G1 |].
      left. split; [rewrite G4; exact S1 | rewrite G5; exact S2].
    + rewrite G4. reflexivity.
    + left. split; [lia |]. split; [reflexivity |]. split; [exact G5 |].
      split; [exact G7 | exact G6].
  - destruct (startRound_ok (currentIndex w + 1) now w F A S1 Hmore)
      as (order & r & w' & H1 & H2 & H3 & H4 & H5 & H6 & H7 & H8 & H9 & H10 & H11).
    exists w'. split; [exact H1 |]. split; [| split].
    + split; [exact (proj1 H4) |]. split; [apply settled_advance_ok, H4 |].
      left. split; [rewrite H8, length_insert; exact S1 | rewrite H5; exact Hmore].
    + rewrite H8. apply core_insert, H3.
    + right. split; [rewrite H5; lia |]. split; [rewrite H5; exact Hmore |].
      split; [rewrite H10; lia | exact H6].
Qed.

(** [startNewGame] after its first two calls. *)
Definition startNewGame_from (now : Q) (w2 : world) : outcome unit * world :=
  match buildNewRounds rnd (rng w2) with
  | (Ok batch, n) =>
      startRound rnd 0 now
        (set_answered false (set_currentIndex 0 (set_rounds batch (set_rng n w2))))
  | (Throw e, n) => (Throw e, set_rng n w2)
  | (OutOfModel, n) => (OutOfModel, set_rng n w2)
  end.

Lemma startNewGame_unfold (now : Q) (w : world) :
  startNewGame rnd now w = startNewGame_from now (stopRoundAudio now (clearTimers w)).
Proof.
  unfold startNewGame. cbv zeta.
  set (w2 := stopRoundAudio now (clearTimers w)). clearbody w2.
  reflexivity.
Qed.

Lemma buildNewRounds_outcomes (n : nat) :
  (exists batch n', buildNewRounds rnd n = (Ok batch, n')
                    /\ ok (validateRounds batch) = true)
  \/ (exists n', buildNewRounds rnd n = (Throw FailedToGenerate, n')).
Proof.
  unfold buildNewRounds.
  destruct (attempts_spec rnd rnd_range 50 n) as [(j & b & _ & Ha & Hacc & _) | [Ht _]].
  - left. exists b. eexists. split; [exact Ha | exact (proj2 Hacc)].
  - right. eexists. exact Ht.
Qed.

Lemma startNewGame_ok (now : Q) (w : world) :
  game_inv w ->
  exists o w',
    startNewGame rnd now w = (o, w')
    /\ game_inv w'
    /\ ((o = Ok tt
         /\ (exists batch n,
               buildNewRounds rnd (rng (stopRoundAudio now (clearTimers w))) = (Ok batch, n)
               /\ map core (rounds w') = map core batch)
         /\ ok (validateRounds (rounds w')) = true
         /\ currentIndex w' = 0%nat
         /\ playbackToken w' = S (playbackToken w)
         /\ answered w' = false
         /\ roundOutput w' = true
         /\ anyEnabled w' = true)
        \/ (o = Throw FailedToGenerate
            /\ (exists n,
                  buildNewRounds rnd (rng (stopRoundAudio now (clearTimers w)))
                  = (Throw FailedToGenerate, n))
            /\ rounds w' = rounds w
            /\ currentIndex w' = currentIndex w
            /\ playbackToken w' = playbackToken w
            /\ answered w' = answered w
            /\ buttons w' = buttons w
            /\ roundOutput w' = false)).
Proof.
  intros (F & A & S).
  destruct (cleared_spec now w F A) as (S2 & O2 & E2 & E3 & E4 & E5 & E6 & E7).
  cbv zeta in *. rewrite startNewGame_unfold. unfold startNewGame_from.
  set (w2 := stopRoundAudio now (clearTimers w)) in *. clearbody w2.
  destruct (buildNewRounds_outcomes (rng w2)) as [(batch & n & Hb & Hv) | (n & Hb)];
    rewrite Hb.
  - pose proof (proj1 (validateRounds_ok batch) Hv) as (Hlen & _).
    set (w3 := set_answered false (set_currentIndex 0 (set_rounds batch (set_rng n w2)))).
    assert (F3 : fresh w3) by exact (proj1 S2).
    assert (A3 : advance_ok w3).
    { intros t d H. exfalso. exact (proj2 S2 t d H). }
    assert (L3 : length (rounds w3) = SETTINGS.ROUNDS_PER_GAME) by exact Hlen.
    assert (T3 : playbackToken w3 = playbackToken w2) by reflexivity.
    assert (R3 : rounds w3 = batch) by reflexivity.
    clearbody w3.
    destruct (startRound_ok 0 now w3 F3 A3 L3 ltac:(unfold SETTINGS.ROUNDS_PER_GAME; lia))
      as (order & r & w' & H1 & H2 & H3 & H4 & H5 & H6 & H7 & H8 & H9 & H10 & H11).
    exists (Ok tt), w'. split; [exact H1 |].
    assert (St : started w').
    { split; [rewrite H8, length_insert; exact L3 |].
      rewrite H5. unfold SETTINGS.ROUNDS_PER_GAME. lia. }
    split; [split; [exact (proj1 H4) | split; [apply settled_advance_ok, H4 | left; exact St]] |].
    assert (Hcore : map core (rounds w') = map core batch).
    { rewrite H8, <- R3. apply core_insert, H3. }
    left. split; [reflexivity |].
    split; [exists batch, n; split; [reflexivity | exact Hcore] |].
    split; [| split; [exact H5 | split; [| split; [exact H6 | split; [exact H7 |]]]]].
    + rewrite (validateRounds_core (rounds w') batch); [exact Hv | exact Hcore].
    + rewrite H10, T3, E6. lia.
    + unfold anyEnabled. rewrite H9.
      apply Permutation_length in H2. destruct order as [| k order]; [discriminate H2 |].
      reflexivity.
  - exists (Throw FailedToGenerate), (set_rng n w2). split; [reflexivity |].
    assert (G : game_inv (set_rng n w2)).
    { split; [exact (proj1 S2) |]. split; [intros t d H; exfalso; exact (proj2 S2 t d H) |].
      destruct S as [[X Y] | (I1 & I2 & I3)].
      - left. split; [cbn; rewrite E3; exact X | cbn; rewrite E4; exact Y].
      - right. split; [exact O2 |]. split; [unfold anyEnabled in *; cbn; rewrite E5; exact I2 |].
        exact (proj2 S2). }
    split; [exact G |]. right. split; [reflexivity |].
    split; [exists n; reflexivity |].
    split; [exact E3 |]. split; [exact E4 |]. split; [exact E6 |].
    split; [exact E2 |]. split; [exact E5 | exact O2].
Qed.

Lemma fire_ok (t : nat) (now : Q) (w : world) :
  game_inv w ->
  exists w',
    fire rnd t now w = (Ok tt, w') /\ game_inv w' /\ course (EvTimer t now) w w'.
Proof.
  intros G. unfold fire.
  destruct (timers w !! t) as [[cb d] |] eqn:Hl.
  2: { exists w. split; [reflexivity |]. split; [exact G |].
       apply course_stay; reflexivity. }
  cbv zeta.
  pose proof (clearTimeout_benign t w) as B.
  pose proof (game_inv_benign _ _ G B) as G1.
  destruct B as (B1 & B2 & B3 & B4 & B5 & B6 & B7 & B8 & B9).
  set (w1 := clearTimeout t w) in *. clearbody w1.
  assert (C1 : course (EvTimer t now) w w1) by (apply course_stay; congruence).
  destruct cb as [token fn | |].
  - destruct (negb (Nat.eqb token (playbackToken w1))).
    { exists w1. split; [reflexivity |]. split; [exact G1 | exact C1]. }
    destruct fn as [p | token'].
    + eexists. split; [reflexivity |]. split; [exact G1 |].
      apply course_stay; cbn; congruence.
    + destruct (scheduleNextLoopCycle_cases token' now w1)
        as [[E _] | [[E Hx] | (r & _ & _ & Ho & _ & E)]]; rewrite E.
      * exists w1. split; [reflexivity |]. split; [exact G1 | exact C1].
      * exfalso. destruct G1 as (_ & _ & [[X Y] | (I1 & _)]).
        -- destruct (lookup_lt_is_Some_2 (rounds w1) (currentIndex w1) ltac:(lia)) as [r Hr].
           congruence.
        -- rewrite (scheduleNextLoopCycle_closed token' now w1 I1) in E. discriminate.
      * destruct (loop_cycle_benign token' now r w1) as [B' _].
        exists (loop_cycle token' now r w1). split; [reflexivity |].
        split; [exact (game_inv_benign _ _ G1 B') |].
        destruct B' as (D1 & D2 & D3 & D4 & D5 & D6 & D7 & D8 & D9).
        apply course_stay; congruence.
  - destruct G as (F & A & S). destruct (A _ _ Hl) as [Hm Ha].
    assert (St : started w).
    { destruct S as [S | (_ & _ & I3)]; [exact S | exfalso; exact (I3 _ _ Hl)]. }
    assert (St1 : started w1).
    { destruct St as [X Y]. split; [rewrite B3; exact X | rewrite B4; exact Y]. }
    destruct G1 as (F1 & A1 & _).
    destruct (moveNext_ok now w1 F1 A1 St1)
      as (w' & H1 & H2 & H3 & [(_ & _ & H4 & H5 & H6) | (H4 & H5 & H6 & H7)]).
    + exists w'. split; [exact H1 |]. split; [exact H2 |].
      apply course_stay; congruence.
    + exists w'. split; [exact H1 |]. split; [exact H2 |].
      apply (course_next _ _ _ t now d); congruence.
  - exists w1. split; [reflexivity |]. split; [exact G1 | exact C1].
Qed.

Lemma handle_ok (e : event) (w : world) :
  game_inv w ->
  exists o w',
    handle rnd e w = (o, w')
    /\ (o = Ok tt \/ (o = Throw FailedToGenerate /\ exists now, e = EvStart now))
    /\ game_inv w' /\ course e w w'.
Proof.
  intros G. destruct e as [now | knobId now | t now]; cbn [handle].
  - destruct (startNewGame_ok now w G)
      as (o & w' & H1 & H2 & [(-> & (batch & n & Hb & Hc) & C1 & C2 & C3 & C4 & _)
                             | (-> & (n & Hb) & C1 & C2 & C3 & C4 & _)]).
    + exists (Ok tt), w'. split; [exact H1 |]. split; [left; reflexivity |].
      split; [exact H2 |].
      apply (course_new _ _ _ now batch n); try assumption; reflexivity.
    + exists (Throw FailedToGenerate), w'. split; [exact H1 |].
      split; [right; split; [reflexivity | exists now; reflexivity] |].
      split; [exact H2 |].
      apply (course_failed _ _ _ now n); try assumption; reflexivity.
  - destruct (handleAnswer_ok knobId now w G)
      as [[E _] | (Ha & Hb & r & w' & E & Hr & G' & _ & Ha' & _ & _ & R & I & T & _)].
    + exists (Ok tt), w. split; [exact E |]. split; [left; reflexivity |].
      split; [exact G | apply course_stay; reflexivity].
    + exists (Ok tt), w'. split; [exact E |]. split; [left; reflexivity |].
      split; [exact G' |].
      apply (course_answer _ _ _ knobId now r); try assumption; reflexivity.
  - destruct (fire_ok t now w G) as (w' & E & G' & C).
    exists (Ok tt), w'. split; [exact E |]. split; [left; reflexivity |].
    split; [exact G' | exact C].
Qed.

Lemma initial_game_inv : game_inv initial_world.
Proof.
  split; [split; [cbn; lia | intros t x H; cbn in H; rewrite lookup_empty in H; discriminate] |].
  split; [intros t d H; cbn in H; rewrite lookup_empty in H; discriminate |].
  right. split; [reflexivity |]. split; [reflexivity |].
  intros t d H. cbn in H. rewrite lookup_empty in H. discriminate.
Qed.

(** A batch is in play or none was ever loaded. *)
Definition batch_inv (w : world) : Prop :=
  (rounds w = [] \/ ok (validateRounds (rounds w)) = true)
  /\ (currentIndex w < SETTINGS.ROUNDS_PER_GAME)%nat.

Lemma course_batch_inv (e : event) (w w' : world) :
  batch_inv w -> course e w w' -> batch_inv w'.
Proof.
  assert (Hkeep : forall l l' : list round,
             map core l' = map core l ->
             l = [] \/ ok (validateRounds l) = true ->
             l' = [] \/ ok (validateRounds l') = true).
  { intros l l' X [Hb | Hb].
    - left. rewrite Hb in X. destruct l'; [reflexivity | discriminate X].
    - right. rewrite (validateRounds_core _ _ X). exact Hb. }
  intros [Hb Hi] [X Y Z U | k now r _ _ _ _ X Y Z U | t now d _ _ X Y Y' Z U V
                 | now batch n _ _ _ X Y Z U | now n _ _ X Y Z U].
  - split; [exact (Hkeep _ _ X Hb) | rewrite Y; exact Hi].
  - split; [rewrite X; exact Hb | rewrite Y; exact Hi].
  - split; [exact (Hkeep _ _ X Hb) | exact Y'].
  - split; [right; exact X |]. rewrite Y. unfold SETTINGS.ROUNDS_PER_GAME. lia.
  - split; [rewrite X; exact Hb | rewrite Y; exact Hi].
Qed.

Lemma reachable_game_inv (w : world) : reachable rnd w -> game_inv w /\ batch_inv w.
Proof.
  induction 1 as [| w e Hr [G Hb]].
  - split; [exact initial_game_inv |].
    split; [left; reflexivity | cbn; unfold SETTINGS.ROUNDS_PER_GAME; lia].
  - destruct (handle_ok e w G) as (o & w' & E & _ & G' & C).
    unfold step. rewrite E. cbn [snd].
    split; [exact G' | exact (course_batch_inv _ _ _ Hb C)].
Qed.

End Course.

(** ** A game played to its end *)

(** The round is answered and, if that armed the advance timer, the timer
    fires: [n] times in a row. *)
Fixpoint play (n : nat) (w : world) : world :=
  match n with
  | O => w
  | S n' =>
      let w1 := step demo_draws w (EvAnswer "decay" 1) in
      match moveNextTimer w1 with
      | Some t => play n' (step demo_draws w1 (EvTimer t 2))
      | None => w1
      end
  end.

(** The first round is answered. *)
Definition first_answered : world := step demo_draws playing (EvAnswer "decay" 1).

(** The last round of the game plays, and then it is answered. *)
Definition last_round : world := play 9 playing.
Definition last_answered : world := step demo_draws last_round (EvAnswer "decay" 1).

Lemma reachable_play (n : nat) :
  forall w, reachable demo_draws w -> reachable demo_draws (play n w).
Proof.
  induction n as [| n IH]; intros w H; [exact H |].
  cbn [play]. cbv zeta.
  destruct (moveNextTimer (step demo_draws w (EvAnswer "decay" 1))).
  - apply IH. do 2 apply reachable_step. exact H.
  - apply reachable_step. exact H.
Qed.

Lemma reachable_playing : reachable demo_draws playing.
Proof. apply reachable_step, reachable_initial. Qed.

(** The game is over: the last round is answered, no button is enabled, the
    audio output is closed and only disconnections of audio nodes are
    pending. *)
Definition game_over (w : world) : Prop :=
  answered w = true /\ anyEnabled w = false /\ roundOutput w = false
  /\ forall t cb d, timers w !! t = Some (cb, d) -> cb = CbDisconnect.

(** X18: under the contract of [Math.random], in every world that the page
    can reach the handler of every event returns, with one exception: a press
    of the start button throws "Failed to generate valid rounds." when all 50
    candidate batches are rejected.  No handler reads a round that does not
    exist, and the shuffle never reads outside its array. *)
Theorem handlers_return {ML : MathLib} (rnd : nat -> Q)
    (rnd_range : forall k, 0 <= rnd k < 1) (w : world) (e : event) :
  reachable rnd w ->
  fst (handle rnd e w) = Ok tt
  \/ (fst (handle rnd e w) = Throw FailedToGenerate /\ exists now, e = EvStart now).
Proof.
  intros Hr. destruct (reachable_game_inv rnd rnd_range w Hr) as [G _].
  destruct (handle_ok rnd rnd_range e w G) as (o & w' & E & [-> | [-> Hs]] & _).
  - left. rewrite E. reflexivity.
  - right. rewrite E. split; [reflexivity | exact Hs].
Qed.

Lemma handlers_return_witness :
  (forall k, 0 <= demo_draws k < 1)
  /\ reachable demo_draws playing
  /\ (fst (handle demo_draws (EvTimer 7 4.62) playing) = Ok tt
      \/ (fst (handle demo_draws (EvTimer 7 4.62) playing) = Throw FailedToGenerate
          /\ exists now, EvTimer 7 4.62 = EvStart now)).
Proof.
  split; [apply cyclic_draws_range |]. split; [exact reachable_playing |].
  exact (handlers_return demo_draws (cyclic_draws_range 11 7 3) playing (EvTimer 7 4.62)
           reachable_playing).
Defined.

(** X19: under the contract of [Math.random], in every world that the page
    can reach the current index is below 10, and the rounds in play are none
    or a batch that the validator accepts: 10 rounds, each with the same
    pitch in both takes and a single difference, the current one among
    them. *)
Theorem batch_in_play_is_valid {ML : MathLib} (rnd : nat -> Q)
    (rnd_range : forall k, 0 <= rnd k < 1) (w : world) :
  reachable rnd w ->
  (currentIndex w < 10)%nat
  /\ (rounds w = []
      \/ (ok (validateRounds (rounds w)) = true
          /\ length (rounds w) = 10%nat
          /\ Forall (fun r => nearEqual (noteFreqHz (takeA r)) (noteFreqHz (takeB r)) = true
                              /\ single_difference r) (rounds w)
          /\ exists r, rounds w !! currentIndex w = Some r)).
Proof.
  intros Hr. destruct (reachable_game_inv rnd rnd_range w Hr) as [_ [Hb Hi]].
  split; [exact Hi |]. destruct Hb as [Hb | Hb]; [left; exact Hb | right].
  pose proof (proj1 (validateRounds_ok _) Hb) as (Hlen & Hf & _).
  split; [exact Hb |]. split; [exact Hlen |]. split; [exact Hf |].
  apply lookup_lt_is_Some_2. rewrite Hlen. exact Hi.
Qed.

Lemma batch_in_play_is_valid_witness :
  (forall k, 0 <= demo_draws k < 1)
  /\ reachable demo_draws last_round
  /\ (currentIndex last_round < 10)%nat
  /\ (rounds last_round = []
      \/ (ok (validateRounds (rounds last_round)) = true
          /\ length (rounds last_round) = 10%nat
          /\ Forall (fun r => nearEqual (noteFreqHz (takeA r)) (noteFreqHz (takeB r)) = true
                              /\ single_difference r) (rounds last_round)
          /\ exists r, rounds last_round !! currentIndex last_round = Some r)).
Proof.
  split; [apply cyclic_draws_range |].
  split; [exact (reachable_play 9 playing reachable_playing) |].
  exact (batch_in_play_is_valid demo_draws (cyclic_draws_range 11 7 3) last_round
           (reachable_play 9 playing reachable_playing)).
Defined.

(** X20: under the contract of [Math.random], one event of a reachable world
    does one of four things to the game.  It stays in the round as it is:
    index, token, answered flag and what the generator wrote in the rounds
    are unchanged.  Or an answer is accepted: the round becomes answered, and
    index, token and rounds are unchanged.  Or the advance timer fires on an
    answered round: the index and the token grow by one, the index stays
    below 10, the new round is not answered and the rounds are unchanged but
    for the answer order.  Or the start button loads a new, validated batch:
    the index is 0, the round is not answered and the token grows by one.
    So no round is skipped, and none is left without an answer. *)
Theorem rounds_in_order {ML : MathLib} (rnd : nat -> Q)
    (rnd_range : forall k, 0 <= rnd k < 1) (w : world) (e : event) :
  reachable rnd w ->
  let w' := step rnd w e in
  (map core (rounds w') = map core (rounds w)
   /\ currentIndex w' = currentIndex w
   /\ playbackToken w' = playbackToken w
   /\ answered w' = answered w)
  \/ (rounds w' = rounds w
      /\ currentIndex w' = currentIndex w
      /\ playbackToken w' = playbackToken w
      /\ answered w = false /\ answered w' = true
      /\ exists knobId now, e = EvAnswer knobId now)
  \/ (map core (rounds w') = map core (rounds w)
      /\ currentIndex w' = S (currentIndex w)
      /\ (currentIndex w' < 10)%nat
      /\ playbackToken w' = S (playbackToken w)
      /\ answered w = true /\ answered w' = false
      /\ exists t now d, e = EvTimer t now /\ timers w !! t = Some (CbMoveNext, d))
  \/ (currentIndex w' = 0%nat
      /\ playbackToken w' = S (playbackToken w)
      /\ answered w' = false
      /\ ok (validateRounds (rounds w')) = true
      /\ exists now, e = EvStart now).
Proof.
  intros Hr w'. destruct (reachable_game_inv rnd rnd_range w Hr) as [G _].
  destruct (handle_ok rnd rnd_range e w G) as (o & w1 & E & _ & _ & C).
  assert (Hw : w' = w1) by (unfold w', step; rewrite E; reflexivity).
  rewrite Hw. clear Hw w' E.
  destruct C as [X Y Z U | k now r He Ha Hb Hl X Y Z U | t now d He Ht X Y Y' Z U V
                | now batch n He Hb Hc X Y Z U | now n He Hb X Y Z U].
  - left. split; [exact X | split; [exact Y | split; [exact Z | exact U]]].
  - right; left. split; [exact X |]. split; [exact Y |]. split; [exact Z |].
    split; [exact Ha |]. split; [exact U |]. exists k, now. exact He.
  - right; right; left. split; [exact X |]. split; [exact Y |]. split; [exact Y' |].
    split; [exact Z |]. split; [exact U |]. split; [exact V |].
    exists t, now, d. split; [exact He | exact Ht].
  - right; right; right. split; [exact Y |]. split; [exact Z |]. split; [exact U |].
    split; [exact X |]. exists now. exact He.
  - left. split; [rewrite X; reflexivity | split; [exact Y | split; [exact Z | exact U]]].
Qed.

Lemma rounds_in_order_witness :
  let w' := step demo_draws first_answered (EvTimer 9 2) in
  (forall k, 0 <= demo_draws k < 1)
  /\ reachable demo_draws first_answered
  /\ currentIndex w' = S (currentIndex first_answered)
  /\ ((map core (rounds w') = map core (rounds first_answered)
       /\ currentIndex w' = currentIndex first_answered
       /\ playbackToken w' = playbackToken first_answered
       /\ answered w' = answered first_answered)
      \/ (rounds w' = rounds first_answered
          /\ currentIndex w' = currentIndex first_answered
          /\ playbackToken w' = playbackToken first_answered
          /\ answered first_answered = false /\ answered w' = true
          /\ exists knobId now, EvTimer 9 2 = EvAnswer knobId now)
      \/ (map core (rounds w') = map core (rounds first_answered)
          /\ currentIndex w' = S (currentIndex first_answered)
          /\ (currentIndex w' < 10)%nat
          /\ playbackToken w' = S (playbackToken first_answered)
          /\ answered first_answered = true /\ answered w' = false
          /\ exists t now d, EvTimer 9 2 = EvTimer t now
                             /\ timers first_answered !! t = Some (CbMoveNext, d))
      \/ (currentIndex w' = 0%nat
          /\ playbackToken w' = S (playbackToken first_answered)
          /\ answered w' = false
          /\ ok (validateRounds (rounds w')) = true
          /\ exists now, EvTimer 9 2 = EvStart now)).
Proof.
  intros w'.
  split; [apply cyclic_draws_range |].
  split; [apply reachable_step, reachable_playing |].
  split; [vm_compute; reflexivity |].
  exact (rounds_in_order demo_draws (cyclic_draws_range 11 7 3) first_answered (EvTimer 9 2)
           (reachable_step _ _ _ reachable_playing)).
Defined.

Lemma over_step {ML : MathLib} (rnd : nat -> Q) (w : world) (e : event) :
  game_over w -> (forall now, e <> EvStart now) ->
  let w' := step rnd w e in
  game_over w'
  /\ rounds w' = rounds w /\ currentIndex w' = currentIndex w
  /\ buttons w' = buttons w /\ shownPhase w' = shownPhase w
  /\ playbackToken w' = playbackToken w
  /\ cycles w' = cycles w /\ phaseCalls w' = phaseCalls w.
Proof.
  intros (Ha & Hb & Ho & Ht) He. unfold step.
  destruct e as [now | knobId now | t now]; cbn [handle].
  - exfalso. exact (He now eq_refl).
  - rewrite handleAnswer_unfold, Ha. cbn [snd].
    split; [split; [exact Ha | split; [exact Hb | split; [exact Ho | exact Ht]]] |].
    repeat split.
  - unfold fire. destruct (timers w !! t) as [[cb d] |] eqn:Hl.
    + rewrite (Ht _ _ _ Hl). cbn [snd].
      split; [| repeat split].
      split; [exact Ha |]. split; [exact Hb |]. split; [exact Ho |].
      intros k cb' d' H. cbn in H. apply lookup_delete_Some in H.
      exact (Ht _ _ _ (proj2 H)).
    + cbn [snd].
      split; [split; [exact Ha | split; [exact Hb | split; [exact Ho | exact Ht]]] |].
      repeat split.
Qed.

Lemma last_advance_ends {ML : MathLib} (rnd : nat -> Q)
    (rnd_range : forall k, 0 <= rnd k < 1) (w : world) (t : nat) (d now : Q) :
  reachable rnd w ->
  timers w !! t = Some (CbMoveNext, d) ->
  currentIndex w = 9%nat ->
  let w' := step rnd w (EvTimer t now) in
  game_over w' /\ shownPhase w' = PHASE_ANSWER
  /\ rounds w' = rounds w /\ currentIndex w' = 9%nat
  /\ playbackToken w' = playbackToken w.
Proof.
  intros Hr Hl Hi.
  destruct (reachable_game_inv rnd rnd_range w Hr) as [G _].
  destruct (reachable_inv rnd w Hr) as (Tr & _ & _).
  pose proof G as (F & A & S). destruct (A _ _ Hl) as [_ Ha].
  assert (St : started w).
  { destruct S as [S | (_ & _ & I3)]; [exact S | exfalso; exact (I3 _ _ Hl)]. }
  unfold step. cbn [handle]. unfold fire. rewrite Hl. cbv zeta.
  pose proof (clearTimeout_benign t w) as B.
  pose proof (game_inv_benign _ _ G B) as (F1 & A1 & _).
  pose proof (clearTimeout_tracked t w Tr) as Tr1.
  destruct B as (B1 & B2 & B3 & B4 & B5 & B6 & B7 & B8 & B9).
  set (w1 := clearTimeout t w) in *. clearbody w1.
  assert (St1 : started w1).
  { destruct St as [X Y]. split; [rewrite B3; exact X | rewrite B4; exact Y]. }
  destruct (moveNext_ok rnd rnd_range now w1 F1 A1 St1)
    as (w' & H1 & _ & _ & [(_ & -> & _ & _) | (H4 & H5 & _)]).
  - rewrite H1. cbn [snd].
    destruct (finishGame_ok now w1 F1 A1) as (G1 & G2 & G3 & G4 & G5 & G6 & G7 & G8).
    destruct (finishGame_spec now w1 Tr1) as [N _].
    cbv zeta in *.
    split; [| split; [exact G8 | split; [congruence | split; [congruence | congruence]]]].
    split; [congruence |]. split; [exact G3 |]. split; [exact G2 |].
    intros k cb d' H. destruct cb as [token fn | |]; [| | reflexivity].
    + exfalso. exact (N _ _ _ _ H).
    + exfalso. exact (proj2 G1 _ _ H).
  - exfalso. rewrite H4, B4, Hi in H5. unfold SETTINGS.ROUNDS_PER_GAME in H5. lia.
Qed.

(** X21: under the contract of [Math.random], when the advance timer fires
    on the tenth round the game is over: the round stays answered, every
    button is disabled, the audio output is closed, the status shows the
    answer phase and only disconnections of audio nodes are pending.  From
    then on every event but a press of the start button leaves that so, and
    changes neither the rounds, the index, the buttons, the status, the
    token nor the history of cycles and phase changes. *)
Theorem game_over_is_stable {ML : MathLib} (rnd : nat -> Q)
    (rnd_range : forall k, 0 <= rnd k < 1) :
  (forall w t d now,
      reachable rnd w ->
      timers w !! t = Some (CbMoveNext, d) ->
      currentIndex w = 9%nat ->
      let w' := step rnd w (EvTimer t now) in
      game_over w' /\ shownPhase w' = PHASE_ANSWER
      /\ rounds w' = rounds w /\ currentIndex w' = 9%nat
      /\ playbackToken w' = playbackToken w)
  /\ (forall w e,
        game_over w -> (forall now, e <> EvStart now) ->
        let w' := step rnd w e in
        game_over w'
        /\ rounds w' = rounds w /\ currentIndex w' = currentIndex w
        /\ buttons w' = buttons w /\ shownPhase w' = shownPhase w
        /\ playbackToken w' = playbackToken w
        /\ cycles w' = cycles w /\ phaseCalls w' = phaseCalls w).
Proof.
  split.
  - intros w t d now. apply last_advance_ends, rnd_range.
  - intros w e. apply over_step.
Qed.

Lemma game_over_is_stable_witness :
  let w' := step demo_draws last_answered (EvTimer 90 2) in
  (forall k, 0 <= demo_draws k < 1)
  /\ reachable demo_draws last_answered
  /\ timers last_answered !! 90%nat = Some (CbMoveNext, SETTINGS.FEEDBACK_ADVANCE_MS)
  /\ currentIndex last_answered = 9%nat
  /\ game_over w'
  /\ (forall now, EvAnswer "cutoff" 3 <> EvStart now)
  /\ game_over (step demo_draws w' (EvAnswer "cutoff" 3)).
Proof.
  intros w'.
  assert (Hr : reachable demo_draws last_answered)
    by (apply reachable_step, (reachable_play 9 playing reachable_playing)).
  assert (Ht : timers last_answered !! 90%nat = Some (CbMoveNext, SETTINGS.FEEDBACK_ADVANCE_MS))
    by (vm_compute; reflexivity).
  assert (Hi : currentIndex last_answered = 9%nat) by (vm_compute; reflexivity).
  assert (He : forall now, EvAnswer "cutoff" 3 <> EvStart now) by (intros now; discriminate).
  pose proof (proj1 (game_over_is_stable demo_draws (cyclic_draws_range 11 7 3))
                last_answered 90%nat _ 2 Hr Ht Hi) as (Ho & _).
  split; [apply cyclic_draws_range |]. split; [exact Hr |]. split; [exact Ht |].
  split; [exact Hi |]. split; [exact Ho |]. split; [exact He |].
  exact (proj1 (proj2 (game_over_is_stable demo_draws (cyclic_draws_range 11 7 3))
                  w' (EvAnswer "cutoff" 3) Ho He)).
Defined.

(** X22: an answer given right after an answer changes nothing: whatever the
    world, the second of two calls of [handleAnswer] in a row returns at its
    first guard, or at its second when no button is enabled. *)
Theorem second_answer_is_ignored {ML : MathLib} (rnd : nat -> Q) (w : world)
    (knob1 knob2 : string) (now1 now2 : Q) :
  let w1 := step rnd w (EvAnswer knob1 now1) in
  handle rnd (EvAnswer knob2 now2) w1 = (Ok tt, w1)
  /\ step rnd w1 (EvAnswer knob2 now2) = w1.
Proof.
  intros w1.
  assert (H : handle rnd (EvAnswer knob2 now2) w1 = (Ok tt, w1)).
  { subst w1. unfold step. cbn [handle]. rewrite (handleAnswer_unfold knob1).
    destruct (answered w) eqn:Ha.
    - cbn [snd]. rewrite handleAnswer_unfold, Ha. reflexivity.
    - destruct (anyEnabled w) eqn:Hb; cbn [negb].
      + assert (B : benign (set_answered true w)
                      (stopRoundAudio now1 (clearPhaseTimers (set_answered true w)))).
        { eapply benign_trans; [apply clearPhaseTimers_benign | apply stopRoundAudio_benign]. }
        destruct B as (_ & B2 & _).
        set (w2 := stopRoundAudio now1 (clearPhaseTimers (set_answered true w))) in *.
        clearbody w2. cbn in B2.
        assert (Ha' : answered (snd (handleAnswer_from w2)) = true).
        { unfold handleAnswer_from. destruct (rounds w2 !! currentIndex w2); exact B2. }
        rewrite handleAnswer_unfold, Ha'. reflexivity.
      + cbn [snd]. rewrite handleAnswer_unfold, Ha, Hb. reflexivity. }
  split; [exact H |]. unfold step at 1. rewrite H. reflexivity.
Qed.

Lemma startRound_reachable {ML : MathLib} (rnd : nat -> Q)
    (rnd_range : forall k, 0 <= rnd k < 1) (w : world) (index : nat) (now : Q) :
  reachable rnd w ->
  length (rounds w) = 10%nat -> (index < 10)%nat ->
  exists order r w',
    startRound rnd index now w = (Ok tt, w')
    /\ order ≡ₚ ["cutoff"; "resonance"; "decay"]
    /\ rounds w !! index = Some r
    /\ rounds w' = <[index := with_answerOrder order r]> (rounds w)
    /\ buttons w' = map (fun knobId => (knobId, false)) order
    /\ changedKnob r ∈ order
    /\ currentIndex w' = index
    /\ answered w' = false
    /\ roundOutput w' = true
    /\ playbackToken w' = (playbackToken w + 1)%nat
    /\ shownPhase w' = PHASE_GAP
    /\ forall t d, timers w' !! t <> Some (CbMoveNext, d).
Proof.
  intros Hr Hlen Hidx.
  destruct (reachable_game_inv rnd rnd_range w Hr) as [(F & A & _) [Hb _]].
  destruct (startRound_ok rnd rnd_range index now w F A Hlen Hidx)
    as (order & r & w' & H1 & H2 & H3 & H4 & H5 & H6 & H7 & H8 & H9 & H10 & H11).
  exists order, r, w'. split; [exact H1 |]. split; [exact H2 |]. split; [exact H3 |].
  split; [exact H8 |]. split; [exact H9 |]. split.
  - destruct Hb as [Hb | Hb]; [rewrite Hb in Hlen; discriminate Hlen |].
    pose proof (proj1 (validateRounds_ok _) Hb) as (_ & Hf & _).
    rewrite Forall_forall in Hf.
    destruct (Hf r (proj2 (list_elem_of_lookup _ r) (ex_intro _ index H3))) as (_ & Hin & _).
    rewrite H2. exact Hin.
  - split; [exact H5 |]. split; [exact H6 |]. split; [exact H7 |].
    split; [exact H10 |]. split; [exact H11 | exact (proj2 H4)].
Qed.

(** X23: under the contract of [Math.random], in a reachable world with a
    batch loaded [startRound] on an index below 10 returns.  It stores in
    that round an answer order that is a permutation of the three knob ids,
    shows one enabled button for each id in that order, so the changed knob
    of the round is among them, makes the round the current one, not
    answered, with the next token, opens the audio output and shows the
    silence phase; and no advance to a further round is pending. *)
Theorem round_start {ML : MathLib} (rnd : nat -> Q)
    (rnd_range : forall k, 0 <= rnd k < 1) (w : world) (index : nat) (now : Q) :
  reachable rnd w ->
  length (rounds w) = 10%nat -> (index < 10)%nat ->
  exists order r w',
    startRound rnd index now w = (Ok tt, w')
    /\ order ≡ₚ ["cutoff"; "resonance"; "decay"]
    /\ rounds w !! index = Some r
    /\ rounds w' = <[index := with_answerOrder order r]> (rounds w)
    /\ buttons w' = map (fun knobId => (knobId, false)) order
    /\ changedKnob r ∈ order
    /\ currentIndex w' = index
    /\ answered w' = false
    /\ roundOutput w' = true
    /\ playbackToken w' = (playbackToken w + 1)%nat
    /\ shownPhase w' = PHASE_GAP
    /\ forall t d, timers w' !! t <> Some (CbMoveNext, d).
Proof. apply startRound_reachable, rnd_range. Qed.

Lemma round_start_witness :
  (forall k, 0 <= demo_draws k < 1)
  /\ reachable demo_draws first_answered
  /\ length (rounds first_answered) = 10%nat
  /\ (1 < 10)%nat
  /\ exists order r w',
       startRound demo_draws 1 2 first_answered = (Ok tt, w')
       /\ order ≡ₚ ["cutoff"; "resonance"; "decay"]
       /\ rounds first_answered !! 1%nat = Some r
       /\ rounds w' = <[1%nat := with_answerOrder order r]> (rounds first_answered)
       /\ buttons w' = map (fun knobId => (knobId, false)) order
       /\ changedKnob r ∈ order
       /\ currentIndex w' = 1%nat
       /\ answered w' = false
       /\ roundOutput w' = true
       /\ playbackToken w' = (playbackToken first_answered + 1)%nat
       /\ shownPhase w' = PHASE_GAP
       /\ forall t d, timers w' !! t <> Some (CbMoveNext, d).
Proof.
  assert (Hr : reachable demo_draws first_answered)
    by apply reachable_step, reachable_playing.
  assert (Hlen : length (rounds first_answered) = 10%nat) by (vm_compute; reflexivity).
  assert (Hidx : (1 < 10)%nat) by lia.
  split; [apply cyclic_draws_range |]. split; [exact Hr |]. split; [exact Hlen |].
  split; [exact Hidx |].
  exact (round_start demo_draws (cyclic_draws_range 11 7 3) first_answered 1 2 Hr Hlen Hidx).
Defined.

Lemma answer_ok {ML : MathLib} (rnd : nat -> Q)
    (rnd_range : forall k, 0 <= rnd k < 1) (w : world) :
  reachable rnd w ->
  (forall t1 t2 d1 d2,
      timers w !! t1 = Some (CbMoveNext, d1) -> timers w !! t2 = Some (CbMoveNext, d2) ->
      t1 = t2 /\ moveNextTimer w = Some t1 /\ answered w = true)
  /\ (forall knobId now,
        answered w = false -> anyEnabled w = true ->
        let w' := step rnd w (EvAnswer knobId now) in
        exists t r,
          rounds w !! currentIndex w = Some r
          /\ moveNextTimer w' = Some t
          /\ timers w' !! t = Some (CbMoveNext, 900)
          /\ timers w !! t = None
          /\ answered w' = true /\ anyEnabled w' = false
          /\ roundOutput w' = false /\ shownPhase w' = PHASE_ANSWER
          /\ rounds w' = rounds w /\ currentIndex w' = currentIndex w).
Proof.
  intros Hr. destruct (reachable_game_inv rnd rnd_range w Hr) as [G _].
  split.
  - intros t1 t2 d1 d2 H1 H2. destruct G as (_ & A & _).
    destruct (A _ _ H1) as [M1 Ha]. destruct (A _ _ H2) as [M2 _].
    split; [congruence | split; [exact M1 | exact Ha]].
  - intros knobId now Ha Hb w'.
    destruct (handleAnswer_ok knobId now w G)
      as [[_ [X | X]] | (_ & _ & r & w1 & E & H2 & (F' & _) & H4 & H5 & H6 & H7 & H8 & H9 & H10
                         & H11 & t & H12 & H13)];
      [congruence | congruence |].
    assert (Hw : w' = w1) by (unfold w', step; cbn [handle]; rewrite E; reflexivity).
    rewrite Hw. exists t, r. split; [exact H2 |]. split; [exact H12 |].
    split; [exact H13 |]. split; [| repeat split; assumption].
    destruct (timers w !! t) as [[cb d] |] eqn:Hl; [exfalso | reflexivity].
    destruct G as ((_ & F2) & A & _). specialize (F2 _ _ Hl).
    revert H12 H13 E. clear - Ha Hb F2 Hl A. intros H12 H13 E.
    rewrite handleAnswer_unfold, Ha, Hb in E. cbn [negb] in E.
    assert (B : benign (set_answered true w)
                  (stopRoundAudio now (clearPhaseTimers (set_answered true w)))).
    { eapply benign_trans; [apply clearPhaseTimers_benign | apply stopRoundAudio_benign]. }
    destruct B as (_ & _ & _ & _ & _ & _ & _ & B8 & _).
    set (w2 := stopRoundAudio now (clearPhaseTimers (set_answered true w))) in *.
    clearbody w2. cbn in B8.
    unfold handleAnswer_from in E. destruct (rounds w2 !! currentIndex w2); [| discriminate E].
    injection E as <-. cbn in H12. injection H12 as <-. lia.
Qed.

(** X24: under the contract of [Math.random], in a reachable world at most
    one advance to the next round is pending, it is the timer that
    [state.moveNextTimer] holds, and the round is answered.  An answer to a
    round that is not answered and has an enabled button arms that timer,
    with a fresh identifier and a delay of 900 ms, marks the round answered,
    disables every button, closes the audio output and shows the answer
    phase; the rounds and the index stay. *)
Theorem answer_arms_one_advance {ML : MathLib} (rnd : nat -> Q)
    (rnd_range : forall k, 0 <= rnd k < 1) (w : world) :
  reachable rnd w ->
  (forall t1 t2 d1 d2,
      timers w !! t1 = Some (CbMoveNext, d1) -> timers w !! t2 = Some (CbMoveNext, d2) ->
      t1 = t2 /\ moveNextTimer w = Some t1 /\ answered w = true)
  /\ (forall knobId now,
        answered w = false -> anyEnabled w = true ->
        let w' := step rnd w (EvAnswer knobId now) in
        exists t r,
          rounds w !! currentIndex w = Some r
          /\ moveNextTimer w' = Some t
          /\ timers w' !! t = Some (CbMoveNext, 900)
          /\ timers w !! t = None
          /\ answered w' = true /\ anyEnabled w' = false
          /\ roundOutput w' = false /\ shownPhase w' = PHASE_ANSWER
          /\ rounds w' = rounds w /\ currentIndex w' = currentIndex w).
Proof. apply answer_ok, rnd_range. Qed.

Lemma answer_arms_one_advance_witness :
  (forall k, 0 <= demo_draws k < 1)
  /\ reachable demo_draws playing
  /\ answered playing = false /\ anyEnabled playing = true
  /\ exists t r,
       rounds playing !! currentIndex playing = Some r
       /\ moveNextTimer first_answered = Some t
       /\ timers first_answered !! t = Some (CbMoveNext, 900)
       /\ timers playing !! t = None
       /\ answered first_answered = true /\ anyEnabled first_answered = false
       /\ roundOutput first_answered = false /\ shownPhase first_answered = PHASE_ANSWER
       /\ rounds first_answered = rounds playing
       /\ currentIndex first_answered = currentIndex playing.
Proof.
  assert (Ha : answered playing = false) by (vm_compute; reflexivity).
  assert (Hb : anyEnabled playing = true) by (vm_compute; reflexivity).
  split; [apply cyclic_draws_range |]. split; [exact reachable_playing |].
  split; [exact Ha |]. split; [exact Hb |].
  exact (proj2 (answer_arms_one_advance demo_draws (cyclic_draws_range 11 7 3) playing
                  reachable_playing) "decay" 1 Ha Hb).
Defined.

(** ** The timers of a cycle *)

Lemma loop_cycle_schedule (token : nat) (now : Q) (r : round) (w : world) :
  let t := round_times (cycle_start now w) in
  let n := nextTimer w in
  let ms := fun x : Q => Math_max 0 (x * 1000) in
  timers (loop_cycle token now r w)
  = <[S (S (S (S (S (S n))))) :=
        (CbUi token (NextLoopCycle token),
         ms (endAt t + SETTINGS.LOOP_CYCLE_PAUSE_SECONDS
             - SETTINGS.SCHEDULING_LEAD_SECONDS - now))]>
      (<[S (S (S (S (S n)))) := (CbUi token (SetPhase PHASE_GAP), ms (endAt t - now))]>
         (<[S (S (S (S n))) := (CbUi token (SetPhase PHASE_B), ms (bStart t - now))]>
            (<[S (S (S n)) := (CbUi token (SetPhase PHASE_GAP), ms (aEnd t - now))]>
               (<[S (S n) := (CbUi token (SetPhase PHASE_A), ms (aStart t - now))]>
                  (<[S n := (CbDisconnect,
                             ms (bStart t + SETTINGS.TAKE_SECONDS
                                 + SETTINGS.TAKE_CLEANUP_EXTRA_SECONDS - now))]>
                     (<[n := (CbDisconnect,
                              ms (aStart t + SETTINGS.TAKE_SECONDS
                                  + SETTINGS.TAKE_CLEANUP_EXTRA_SECONDS - now))]>
                        (timers w)))))))
  /\ nextTimer (loop_cycle token now r w) = S (S (S (S (S (S (S n))))))
  /\ phaseTimers (loop_cycle token now r w)
     = phaseTimers w ++ [S (S n); S (S (S n)); S (S (S (S n))); S (S (S (S (S n))));
                         S (S (S (S (S (S n)))))].
Proof.
  cbv zeta. split; [reflexivity |]. split; [reflexivity |].
  unfold loop_cycle. cbn. rewrite <- !app_assoc. reflexivity.
Qed.

Lemma cycle_start_lead (now : Q) (w : world) : now + 0.005 <= cycle_start now w.
Proof. rewrite cycle_start_max. apply Q.le_max_l. Qed.

(** X25: one cycle of the loop arms seven timers with the next seven
    identifiers: two that disconnect the gain nodes of the takes, four that
    change the status to take A, silence, take B and silence, and one that
    schedules the next cycle; the last five are the ones appended to
    [state.phaseTimers], in that order, and carry the token of the cycle.
    Take A is shown at the start of the cycle, which is at least 5 ms away,
    silence 2000 ms later, take B 2250 ms later and silence again 4250 ms
    later; the next cycle is scheduled 4550 ms after the start of this one,
    50 ms before it is due to start. *)
Theorem cycle_timers (token : nat) (now : Q) (r : round) (w : world) :
  let w' := loop_cycle token now r w in
  let n := nextTimer w in
  nextTimer w' = (n + 7)%nat
  /\ phaseTimers w' = phaseTimers w ++ [n + 2; n + 3; n + 4; n + 5; n + 6]%nat
  /\ (forall i, (i < n \/ n + 7 <= i)%nat -> timers w' !! i = timers w !! i)
  /\ exists c1 c2 d1 d2 d3 d4 d5,
       timers w' !! n = Some (CbDisconnect, c1)
       /\ timers w' !! (n + 1)%nat = Some (CbDisconnect, c2)
       /\ timers w' !! (n + 2)%nat = Some (CbUi token (SetPhase PHASE_A), d1)
       /\ timers w' !! (n + 3)%nat = Some (CbUi token (SetPhase PHASE_GAP), d2)
       /\ timers w' !! (n + 4)%nat = Some (CbUi token (SetPhase PHASE_B), d3)
       /\ timers w' !! (n + 5)%nat = Some (CbUi token (SetPhase PHASE_GAP), d4)
       /\ timers w' !! (n + 6)%nat = Some (CbUi token (NextLoopCycle token), d5)
       /\ d1 == (cycle_start now w - now) * 1000
       /\ 5 <= d1
       /\ d2 == d1 + 2000 /\ d3 == d1 + 2250 /\ d4 == d1 + 4250 /\ d5 == d1 + 4550
       /\ c1 == d1 + 2150 /\ c2 == d1 + 4400.
Proof.
  intros w' n.
  destruct (loop_cycle_schedule token now r w) as (Ht & Hn & Hp). cbv zeta in Ht.
  fold n in Ht, Hn, Hp. fold w' in Ht, Hn, Hp.
  replace (n + 1)%nat with (S n) by lia.
  replace (n + 2)%nat with (S (S n)) by lia.
  replace (n + 3)%nat with (S (S (S n))) by lia.
  replace (n + 4)%nat with (S (S (S (S n)))) by lia.
  replace (n + 5)%nat with (S (S (S (S (S n))))) by lia.
  replace (n + 6)%nat with (S (S (S (S (S (S n)))))) by lia.
  replace (n + 7)%nat with (S (S (S (S (S (S (S n))))))) by lia.
  split; [exact Hn |]. split; [exact Hp |]. split.
  - intros i Hi. rewrite Ht. rewrite !lookup_insert_ne by lia. reflexivity.
  - pose proof (cycle_start_lead now w) as Hs.
    set (s := cycle_start now w) in *.
    assert (Hms : forall x, 0 <= x -> Math_max 0 (x * 1000) == x * 1000).
    { intros x Hx. destruct (Math_max_cases 0 (x * 1000)) as [[H E] | [H E]]; rewrite E; lra. }
    do 7 eexists.
    split; [rewrite Ht; rewrite !lookup_insert_ne by lia; apply lookup_insert_eq |].
    split; [rewrite Ht; rewrite !lookup_insert_ne by lia; apply lookup_insert_eq |].
    split; [rewrite Ht; rewrite !lookup_insert_ne by lia; apply lookup_insert_eq |].
    split; [rewrite Ht; rewrite !lookup_insert_ne by lia; apply lookup_insert_eq |].
    split; [rewrite Ht; rewrite !lookup_insert_ne by lia; apply lookup_insert_eq |].
    split; [rewrite Ht; rewrite !lookup_insert_ne by lia; apply lookup_insert_eq |].
    split; [rewrite Ht; apply lookup_insert_eq |].
    cbn [round_times aStart aEnd bStart bEnd endAt].
    unfold SETTINGS.TAKE_SECONDS, SETTINGS.SILENCE_GAP_SECONDS,
      SETTINGS.LOOP_CYCLE_PAUSE_SECONDS, SETTINGS.SCHEDULING_LEAD_SECONDS,
      SETTINGS.TAKE_CLEANUP_EXTRA_SECONDS.
    rewrite !Hms by lra.
    repeat split; lra.
Qed.

(** ** The score *)

(** An entry of [state.results]. *)
Record result := {
  correctKnob : string;
  chosenKnob : string;
  isCorrect : bool
}.

(** [state.score] and [state.results]. *)
Record scoreboard := {
  score : nat;
  results : list result
}.

Definition initial_scoreboard : scoreboard := {| score := 0; results := [] |}.

(** What [handleAnswer] does to the score and the results when it runs in
    the world [w]: nothing when it returns at a guard or when the read of
    the round fails; otherwise it pushes the result and counts a correct
    answer.  The round is read after the calls that stop the loop, which
    change neither [state.rounds] nor [state.currentIndex]. *)
Definition handleAnswer_score (knobId : string) (w : world) (s : scoreboard) : scoreboard :=
  if answered w then s
  else if negb (existsb (fun b => negb (snd b)) (buttons w)) then s
  else
    match rounds w !! currentIndex w with
    | None => s
    | Some round =>
        let correct := changedKnob round in
        let isCorrect := String.eqb knobId correct in
        let results :=
          results s ++ [{| correctKnob := correct; chosenKnob := knobId;
                           isCorrect := isCorrect |}] in
        {| score := if isCorrect then (score s + 1)%nat else score s; results := results |}
    end.

Section Score.

Context {ML : MathLib}.
Variable rnd : nat -> Q.

(** What [startNewGame] does to the score and the results: it resets them
    once [buildNewRounds] has returned, and not when that throws. *)
Definition startNewGame_score (now : Q) (w : world) (s : scoreboard) : scoreboard :=
  match fst (buildNewRounds rnd (rng (stopRoundAudio now (clearTimers w)))) with
  | Ok _ => {| score := 0; results := [] |}
  | _ => s
  end.

(** The score and the results after the handler of [e] has run in [w]; the
    callbacks of timers change neither. *)
Definition step_score (w : world) (e : event) (s : scoreboard) : scoreboard :=
  match e with
  | EvStart now => startNewGame_score now w s
  | EvAnswer knobId now => handleAnswer_score knobId w s
  | EvTimer _ _ => s
  end.

(** The worlds that the page can reach, with the score and the results. *)
Inductive played : world -> scoreboard -> Prop :=
| played_initial : played initial_world initial_scoreboard
| played_step (w : world) (s : scoreboard) (e : event) :
    played w s -> played (step rnd w e) (step_score w e s).

Lemma played_reachable (w : world) (s : scoreboard) : played w s -> reachable rnd w.
Proof.
  induction 1 as [| w s e _ IH]; [apply reachable_initial | apply reachable_step, IH].
Qed.

(** One result for each round answered so far, each naming the changed knob
    of its round, and the score counts the correct ones. *)
Definition score_inv (w : world) (s : scoreboard) : Prop :=
  length (results s) = (currentIndex w + (if answered w then 1 else 0))%nat
  /\ score s = length (filter (fun res => isCorrect res = true) (results s))
  /\ forall i res,
       results s !! i = Some res ->
       exists r, rounds w !! i = Some r
                 /\ correctKnob res = changedKnob r
                 /\ isCorrect res = String.eqb (chosenKnob res) (changedKnob r).

Lemma score_inv_core (w w' : world) (s : scoreboard) :
  score_inv w s ->
  map core (rounds w') = map core (rounds w) ->
  (currentIndex w' + (if answered w' then 1 else 0)
   = currentIndex w + (if answered w then 1 else 0))%nat ->
  score_inv w' s.
Proof.
  intros (H1 & H2 & H3) Hc Hi. split; [rewrite Hi; exact H1 |]. split; [exact H2 |].
  intros i res Hres. destruct (H3 i res Hres) as (r & Hr & Hk & Hb).
  assert (Hm : map core (rounds w') !! i = Some (core r)).
  { rewrite Hc, list_lookup_fmap, Hr. reflexivity. }
  rewrite list_lookup_fmap in Hm.
  destruct (rounds w' !! i) as [r' |]; [| discriminate Hm].
  injection Hm as Hi' Hk' _ _. exists r'. split; [reflexivity |].
  rewrite Hk'. split; [exact Hk | exact Hb].
Qed.

Hypothesis rnd_range : forall k, 0 <= rnd k < 1.

Lemma played_inv (w : world) (s : scoreboard) : played w s -> score_inv w s.
Proof.
  induction 1 as [| w s e Hp IH].
  - split; [reflexivity |]. split; [reflexivity |].
    intros i res H. cbn in H. rewrite lookup_nil in H. discriminate.
  - pose proof (played_reachable w s Hp) as Hr.
    destruct (reachable_game_inv rnd rnd_range w Hr) as [G _].
    unfold step. destruct e as [now | knobId now | t now]; cbn [handle step_score].
    + unfold startNewGame_score.
      destruct (startNewGame_ok rnd rnd_range now w G)
        as (o & w' & E & _ & [(-> & (batch & n & Hb & Hc) & _ & C2 & _ & C4 & _)
                             | (-> & (n & Hb) & C1 & C2 & _ & C4 & _)]);
        rewrite E, Hb; cbn [fst snd].
      * split; [cbn; rewrite C2, C4; reflexivity |]. split; [reflexivity |].
        intros i res H. cbn in H. rewrite lookup_nil in H. discriminate.
      * apply (score_inv_core w w' s IH); [rewrite C1; reflexivity |].
        rewrite C2, C4. reflexivity.
    + unfold handleAnswer_score.
      destruct (handleAnswer_ok knobId now w G)
        as [[E [Ha | Hb]] | (Ha & Hb & r & w' & E & Hl & _ & _ & Ha' & _ & _ & R & I & _)];
        rewrite E; cbn [snd].
      * rewrite Ha. exact IH.
      * unfold anyEnabled in Hb. rewrite Hb. cbn [negb].
        destruct (answered w); exact IH.
      * unfold anyEnabled in Hb. rewrite Ha, Hb, Hl. cbn [negb]. cbv zeta.
        destruct IH as (H1 & H2 & H3). rewrite Ha in H1.
        split; [| split].
        -- cbn [results]. rewrite length_app, H1, I, Ha'. cbn. lia.
        -- cbn [score results]. rewrite filter_app, length_app, <- H2.
           destruct (String.eqb knobId (changedKnob r)) eqn:Eq.
           ++ rewrite filter_cons_True by (cbn; reflexivity). cbn. lia.
           ++ rewrite filter_cons_False by (cbn; congruence). cbn. lia.
        -- intros i res Hres. cbn [results] in Hres. rewrite R.
           apply lookup_app_Some in Hres. destruct Hres as [Hres | [Hge Hres]].
           ++ exact (H3 i res Hres).
           ++ rewrite H1 in Hres, Hge.
              assert (Hi : i = currentIndex w).
              { apply lookup_lt_Some in Hres. cbn in Hres. lia. }
              subst i. replace (currentIndex w - (currentIndex w + 0))%nat with 0%nat
                in Hres by lia.
              injection Hres as <-. exists r. cbn. split; [exact Hl |].
              split; reflexivity.
    + destruct (fire_ok rnd rnd_range t now w G) as (w' & E & _ & C).
      rewrite E. cbn [snd].
      destruct C as [X Y Z U | k now' r He | t' now' d He Ht X Y Y' Z U V
                    | now' batch n He | now' n He]; try discriminate He.
      * apply (score_inv_core w w' s IH X). rewrite Y, U. reflexivity.
      * apply (score_inv_core w w' s IH X). rewrite Y, U, V. lia.
Qed.

End Score.

(** X26: under the contract of [Math.random], whatever the player does the
    results hold one entry for each round answered so far, in the order of
    the rounds: as many as the current index, and one more when the current
    round is answered, so never more than 10.  Each entry names the changed
    knob of its round and is marked correct exactly when the chosen knob is
    that knob, and the score is the number of entries marked correct. *)
Theorem score_counts_correct_answers {ML : MathLib} (rnd : nat -> Q)
    (rnd_range : forall k, 0 <= rnd k < 1) (w : world) (s : scoreboard) :
  played rnd w s ->
  length (results s) = (currentIndex w + (if answered w then 1 else 0))%nat
  /\ (score s <= length (results s) <= 10)%nat
  /\ score s = length (filter (fun res => isCorrect res = true) (results s))
  /\ forall i res,
       results s !! i = Some res ->
       exists r, rounds w !! i = Some r
                 /\ correctKnob res = changedKnob r
                 /\ isCorrect res = String.eqb (chosenKnob res) (changedKnob r).
Proof.
  intros Hp. destruct (played_inv rnd rnd_range w s Hp) as (H1 & H2 & H3).
  destruct (reachable_game_inv rnd rnd_range w (played_reachable rnd w s Hp))
    as [_ [_ Hi]].
  split; [exact H1 |]. split; [| split; [exact H2 | exact H3]].
  split.
  - rewrite H2. apply length_filter.
  - rewrite H1. unfold SETTINGS.ROUNDS_PER_GAME in Hi. destruct (answered w); lia.
Qed.

Lemma score_counts_correct_answers_witness :
  let s1 := step_score demo_draws initial_world (EvStart 0) initial_scoreboard in
  let s2 := step_score demo_draws playing (EvAnswer "resonance" 1) s1 in
  let w2 := step demo_draws playing (EvAnswer "resonance" 1) in
  (forall k, 0 <= demo_draws k < 1)
  /\ played demo_draws w2 s2
  /\ score s2 = 1%nat
  /\ length (results s2) = (currentIndex w2 + (if answered w2 then 1 else 0))%nat
  /\ (score s2 <= length (results s2) <= 10)%nat.
Proof.
  intros s1 s2 w2.
  assert (Hp : played demo_draws w2 s2) by (do 2 apply played_step; apply played_initial).
  pose proof (score_counts_correct_answers demo_draws (cyclic_draws_range 11 7 3) w2 s2 Hp)
    as (H1 & H2 & _).
  split; [apply cyclic_draws_range |]. split; [exact Hp |].
  split; [vm_compute; reflexivity |]. split; [exact H1 | exact H2].
Defined.
